(** * go-tag-updater: the YAML tag resolution and update engine

    A shallow embedding of [internal/yaml/parser.go] and
    [internal/yaml/updater.go] (package [yaml]) together with the pieces of
    [pkg/errors/types.go] they use, followed by the properties of the
    engine that the specification states and by further properties of the
    code.

    Conventions.
    - A Go [string] is a Rocq [string], a sequence of bytes; [len] is
      [String.length].
    - A Go function returning [(T, error)] returns [Result T].
    - The standard library ([strings], [path/filepath], [os], [time]) and
      [gopkg.in/yaml.v3] are not part of the repository.  The string and
      path functions are written out for the Unix build ([/] is the only
      separator, there are no volume names); the YAML codec is the type
      class [yaml_v3.Codec]; the file system is a finite map from paths to
      contents with a fault oracle for the system calls.
    - Two Go structs may name a field alike; the second one carries a
      prefix here: [Loc_] for [TagLocation], [PR_] for [ParseResult],
      [Req_] for [UpdateRequest] and [Res_] for [UpdateResult]. *)

From stdpp Require Import gmap strings list.
From Stdlib Require Import ZArith DecimalString Ascii.

#[local] Set Warnings "-register-all".

Local Open Scope Z_scope.

(** ** Package [strings] *)

Module strings.

Definition HasPrefix (s prefix : string) : bool := String.prefix prefix s.

(** [strings.Contains]: [substr] occurs in [s]. *)
Fixpoint Contains (s substr : string) : bool :=
  String.prefix substr s ||
  match s with
  | EmptyString => false
  | String _ s' => Contains s' substr
  end.

Definition lower_byte (c : ascii) : ascii :=
  let n := nat_of_ascii c in
  if (65 <=? n)%nat && (n <=? 90)%nat then ascii_of_nat (n + 32) else c.

(** [strings.ToLower].  Bytes [A]..[Z] go to [a]..[z].  Go lower-cases by
    code point; the only code points outside ASCII whose lower case is an
    ASCII letter are U+0130 (bytes C4 B0, to [i]) and U+212A (bytes
    E2 84 AA, to [k]).  Every other code point outside ASCII is mapped
    to a code point outside ASCII; it is left as it is here, which the
    package cannot tell apart: it only searches the result for ASCII
    patterns and compares it with ASCII words. *)
Fixpoint ToLower (s : string) : string :=
  match s with
  | EmptyString => EmptyString
  | String c s' =>
      match nat_of_ascii c, s' with
      | 196%nat, String c1 s1 =>
          if (nat_of_ascii c1 =? 176)%nat then String "i" (ToLower s1)
          else String c (ToLower s')
      | 226%nat, String c1 (String c2 s2 as s1) =>
          if (nat_of_ascii c1 =? 132)%nat && (nat_of_ascii c2 =? 170)%nat
          then String "k" (ToLower s2)
          else String c (ToLower s')
      | _, _ => String (lower_byte c) (ToLower s')
      end
  end.

(** [strings.ReplaceAll s old new] for one-byte [old] and [new], the only
    use in the package. *)
Fixpoint ReplaceAll (s : string) (old new : ascii) : string :=
  match s with
  | EmptyString => EmptyString
  | String c s' =>
      String (if Ascii.eqb c old then new else c) (ReplaceAll s' old new)
  end.

(** [strings.Join elems sep]. *)
Fixpoint Join (elems : list string) (sep : string) : string :=
  match elems with
  | [] => ""
  | [e] => e
  | e :: rest => e +:+ sep +:+ Join rest sep
  end.

(** [strings.Split s sep] for a one-byte separator. *)
Fixpoint Split (s : string) (sep : ascii) : list string :=
  match s with
  | EmptyString => [""]
  | String c s' =>
      if Ascii.eqb c sep then "" :: Split s' sep
      else match Split s' sep with
           | [] => [String c ""]
           | e :: rest => String c e :: rest
           end
  end.

End strings.

(** ** Package [fmt] *)

Module fmt.

(** The verb [%d] for a non-negative [int]. *)
Definition d (n : nat) : string := NilZero.string_of_uint (Nat.to_uint n).

(** The verb [%v] for a [[]string]: the elements between brackets,
    separated by one space. *)
Definition v_strings (l : list string) : string :=
  "[" +:+ strings.Join l " " +:+ "]".

End fmt.

(** ** Package [path/filepath], Unix build *)

Module filepath.

Definition Separator : ascii := "/"%char.

(** One element of the path read by [Clean].  [out] is the list of
    elements written so far, last element first.  An element [..] removes
    the last real element; where there is none it is dropped under the
    root and kept in a relative path. *)
Definition clean_step (rooted : bool) (out : list string) (elem : string)
  : list string :=
  if String.eqb elem "" then out
  else if String.eqb elem "." then out
  else if String.eqb elem ".." then
    match out with
    | top :: rest =>
        if String.eqb top ".." then (if rooted then out else elem :: out)
        else rest
    | [] => if rooted then [] else [elem]
    end
  else elem :: out.

(** [filepath.Clean]: the shortest path name equivalent to [path] by
    purely lexical processing. *)
Definition Clean (path : string) : string :=
  if String.eqb path "" then "."
  else
    let rooted := strings.HasPrefix path "/" in
    let out := foldl (clean_step rooted) [] (strings.Split path Separator) in
    let body := strings.Join (rev out) "/" in
    if rooted then "/" +:+ body
    else if String.eqb body "" then "." else body.

(** [filepath.IsAbs] on Unix. *)
Definition IsAbs (path : string) : bool := strings.HasPrefix path "/".

(** [path] without its trailing separators. *)
Definition strip_trailing (path : string) : string :=
  let fix drop (l : list ascii) :=
    match l with
    | c :: l' => if Ascii.eqb c Separator then drop l' else l
    | [] => []
    end in
  String.string_of_list_ascii (rev (drop (rev (String.list_ascii_of_string path)))).

(** [filepath.Base]: the last element of [path]. *)
Definition Base (path : string) : string :=
  if String.eqb path "" then "."
  else
    let path := strip_trailing path in
    let last_elem := List.last (strings.Split path Separator) "" in
    if String.eqb last_elem "" then "/" else last_elem.

(** [filepath.Dir]: all but the last element of [path], cleaned. *)
Definition Dir (path : string) : string :=
  let elems := strings.Split path Separator in
  match rev elems with
  | _ :: before =>
      match before with
      | [] => Clean ""
      | _ => Clean (strings.Join (rev before) "/" +:+ "/")
      end
  | [] => Clean ""
  end.

(** [filepath.Join]: the elements from the first non-empty one on, joined
    with the separator and cleaned. *)
Fixpoint Join (elem : list string) : string :=
  match elem with
  | [] => ""
  | e :: rest =>
      if String.eqb e "" then Join rest
      else Clean (strings.Join elem "/")
  end.

End filepath.

(** ** Package [errors] ([pkg/errors/types.go]) *)

Module errors.

Definition ErrCodeFileNotFound : Z := 1002.
Definition ErrCodeInvalidYAML : Z := 1003.
Definition ErrCodeValidation : Z := 1007.

Definition MaxErrorMessageLength : nat := 500.
Definition MaxErrorContextLength : nat := 200.

Definition CategoryFile : string := "file".
Definition CategoryFileSystem : string := "filesystem".
Definition CategoryValidation : string := "validation".

(** [AppError]; the field [Cause] is never set by the constructors used
    in package [yaml]. *)
Record AppError := {
  Code : Z;
  Category : string;
  Message : string;
  Context : string
}.

Definition truncateString (s : string) (maxLen : nat) : string :=
  if (String.length s <=? maxLen)%nat then s
  else
    let suffix := "..." in
    if (maxLen <=? String.length suffix)%nat then String.substring 0 maxLen s
    else String.substring 0 (maxLen - String.length suffix) s +:+ suffix.

Definition NewAppError (code : Z) (category message : string) : AppError :=
  {| Code := code; Category := category;
     Message := truncateString message MaxErrorMessageLength;
     Context := "" |}.

Definition NewAppErrorWithContext (code : Z) (category message context : string)
  : AppError :=
  {| Code := code; Category := category;
     Message := truncateString message MaxErrorMessageLength;
     Context := truncateString context MaxErrorContextLength |}.

Definition NewFileNotFoundError (filePath : string) : AppError :=
  NewAppErrorWithContext ErrCodeFileNotFound CategoryFile "file not found" filePath.

Definition NewInvalidYAMLError (message : string) : AppError :=
  NewAppError ErrCodeInvalidYAML CategoryFile message.

Definition NewFileSystemError (message : string) : AppError :=
  NewAppError ErrCodeFileNotFound CategoryFileSystem message.

Definition NewValidationError (message : string) : AppError :=
  NewAppError ErrCodeValidation CategoryValidation message.

(** The method [Error] of [AppError]. *)
Definition AppError_Error (e : AppError) : string :=
  if String.eqb (Context e) "" then
    "[" +:+ Category e +:+ "] " +:+ Message e
  else
    "[" +:+ Category e +:+ "] " +:+ Message e +:+ ": " +:+ Context e.

End errors.

(** The Go interface [error] as package [yaml] produces it: an [AppError],
    or [fmt.Errorf(prefix + "%w", cause)], which wraps a cause. *)
Inductive error :=
| ErrApp (e : errors.AppError)
| ErrOS (text : string)
| ErrWrap (prefix : string) (cause : error).

Fixpoint error_Error (e : error) : string :=
  match e with
  | ErrApp a => errors.AppError_Error a
  | ErrOS text => text
  | ErrWrap prefix cause => prefix +:+ error_Error cause
  end.

(** The [AppError] in the chain of [Unwrap], as [errors.As] finds it. *)
Fixpoint error_root (e : error) : option errors.AppError :=
  match e with
  | ErrApp a => Some a
  | ErrOS _ => None
  | ErrWrap _ cause => error_root cause
  end.

(** [errors.IsAppError], [errors.GetErrorCode] and
    [errors.GetErrorCategory].  The type assertion of [err] to a pointer
    to [AppError] holds for an [AppError] itself and for nothing that
    wraps one; [None] is the [nil] error. *)
Definition IsAppError (err : option error) : bool :=
  match err with
  | Some (ErrApp _) => true
  | _ => false
  end.

Definition GetErrorCode (err : option error) : Z :=
  match err with
  | Some (ErrApp appErr) => errors.Code appErr
  | _ => 0
  end.

Definition GetErrorCategory (err : option error) : string :=
  match err with
  | Some (ErrApp appErr) => errors.Category appErr
  | _ => "unknown"
  end.

(** The kinds of error of the specification's taxonomy, told apart by the
    code and category that the constructors of [pkg/errors] set. *)
Definition has_kind (code : Z) (category : string) (e : error) : Prop :=
  ∃ a, error_root e = Some a ∧ errors.Code a = code ∧ errors.Category a = category.

Definition is_ValidationError : error → Prop :=
  has_kind errors.ErrCodeValidation errors.CategoryValidation.

Definition is_FileNotFoundError : error → Prop :=
  has_kind errors.ErrCodeFileNotFound errors.CategoryFile.

Definition is_FileSystemError : error → Prop :=
  has_kind errors.ErrCodeFileNotFound errors.CategoryFileSystem.

Definition is_InvalidYAMLError : error → Prop :=
  has_kind errors.ErrCodeInvalidYAML errors.CategoryFile.

Inductive Result (A : Type) :=
| Ok (a : A)
| Err (e : error).
Arguments Ok {A} a.
Arguments Err {A} e.

Definition is_Ok {A} (r : Result A) : bool :=
  match r with Ok _ => true | Err _ => false end.

(** ** Path validation ([updater.go]) *)

Definition TempFileSuffix : string := ".tmp".
Definition MaxBackupFiles : nat := 5.
Definition PathTraversalPattern : string := "..".
Definition WindowsDriveLetterSeparator : string := ":".
Definition WindowsPathSeparator : ascii := "\"%char.
Definition UnixPathSeparator : ascii := "/"%char.
Definition UnixTempDir : string := "/tmp/".
Definition UnixVarTempDir : string := "/var/tmp/".
Definition WindowsCTempDir : string := "C:/temp/".
Definition WindowsCTmpDir : string := "C:/tmp/".
Definition WindowsDTempDir : string := "D:/temp/".
Definition WindowsDTmpDir : string := "D:/tmp/".

(** [Updater.validateAndCleanFilePath]; the receiver is not used. *)
Definition validateAndCleanFilePath (filePath : string) : Result string :=
  if String.eqb filePath "" then
    Err (ErrApp (errors.NewValidationError "file path cannot be empty"))
  else
    let cleanPath := filepath.Clean filePath in
    if strings.Contains cleanPath PathTraversalPattern then
      Err (ErrApp (errors.NewValidationError
                     "file path contains invalid traversal patterns"))
    else if filepath.IsAbs cleanPath then
      let allowedPrefixes := [UnixTempDir; UnixVarTempDir] in
      let '(allowedPrefixes, cleanPath) :=
        if strings.Contains cleanPath WindowsDriveLetterSeparator then
          (allowedPrefixes ++
             [WindowsCTempDir; WindowsCTmpDir; WindowsDTempDir; WindowsDTmpDir],
           strings.ReplaceAll cleanPath WindowsPathSeparator UnixPathSeparator)
        else (allowedPrefixes, cleanPath) in
      let allowed :=
        existsb (fun prefix =>
                   strings.HasPrefix (strings.ToLower cleanPath)
                                     (strings.ToLower prefix))
                allowedPrefixes in
      if negb allowed then
        Err (ErrApp (errors.NewValidationError
               "absolute file paths outside safe directories are not allowed"))
      else Ok cleanPath
    else Ok cleanPath.

(** ** Package [gopkg.in/yaml.v3] *)

Module yaml_v3.

(** [yaml.Kind]; [KindZero] is the kind of the zero [Node], which
    [Unmarshal] leaves untouched when the text holds no document. *)
Inductive Kind :=
| KindZero | DocumentNode | SequenceNode | MappingNode | ScalarNode | AliasNode.

Definition Kind_eqb (a b : Kind) : bool :=
  match a, b with
  | KindZero, KindZero | DocumentNode, DocumentNode
  | SequenceNode, SequenceNode | MappingNode, MappingNode
  | ScalarNode, ScalarNode | AliasNode, AliasNode => true
  | _, _ => false
  end.

(** [yaml.Node], with the fields that the package reads or the codec
    needs to tell nodes apart: [Kind], [Style], [Tag], [Value], [Line],
    [Column] and the children [Content].  A mapping node holds its keys
    and values alternately in [Content]. *)
Inductive Node :=
| MkNode (kind : Kind) (style : nat) (tag value : string)
         (line column : Z) (content : list Node).

Definition Kind_of (n : Node) : Kind := let 'MkNode k _ _ _ _ _ _ := n in k.
Definition Style (n : Node) : nat := let 'MkNode _ s _ _ _ _ _ := n in s.
Definition Tag (n : Node) : string := let 'MkNode _ _ t _ _ _ _ := n in t.
Definition Value (n : Node) : string := let 'MkNode _ _ _ v _ _ _ := n in v.
Definition Line (n : Node) : Z := let 'MkNode _ _ _ _ l _ _ := n in l.
Definition Column (n : Node) : Z := let 'MkNode _ _ _ _ _ c _ := n in c.
Definition Content (n : Node) : list Node := let 'MkNode _ _ _ _ _ _ c := n in c.

(** What [Encoder.Encode] followed by [Encoder.Close] gives: the text, or
    the error of the stage that failed. *)
Inductive Encoded :=
| EncOk (text : string)
| EncodeErr (err : string)
| CloseErr (err : string).

(** The codec.  [Unmarshal_Node content] is
    [yaml.Unmarshal([]byte(content), &rootNode)] for a [yaml.Node]: the
    tree, or the text of the error.  [Unmarshal_any] is the same call for
    an [interface{}], of which the package only keeps the error.
    [Encode indent node] is an encoder with [SetIndent(indent)] run on
    [node]. *)
Class Codec := {
  Unmarshal_Node : string → Node + string;
  Unmarshal_any : string → option string;
  Encode : Z → Node → Encoded
}.

End yaml_v3.

Import yaml_v3.

(** ** The parser ([parser.go]) *)

Definition DefaultIndentation : Z := 2.
Definition MaxFileSize : nat := 10 * 1024 * 1024.
Definition MaxTagValueLength : nat := 256.
Definition MinTagValueLength : nat := 1.

Record Parser := {
  preserveComments : bool;
  preserveOrder : bool;
  indentation : Z
}.

(** A [*yaml.Node] held by a [TagLocation] is the position of the node in
    the tree of the same [ParseResult]: the indices into [Content] on the
    way down from the root. *)
Definition NodeRef := list nat.

Record TagLocation := {
  Path : list string;
  Loc_Line : Z;
  Loc_Column : Z;
  Loc_Value : string;
  Loc_Node : option NodeRef
}.

Record ParseResult := {
  PR_Content : Node;
  TagLocations : list TagLocation;
  OriginalContent : string;
  IsValid : bool;
  Errors : list string
}.

Record UpdateOptions := {
  TagPath : list string;
  NewValue : string;
  CreateIfMissing : bool;
  BackupContent : bool
}.

Definition NewParser : Parser :=
  {| preserveComments := true; preserveOrder := true;
     indentation := DefaultIndentation |}.

Definition NewParserWithOptions (preserveComments preserveOrder : bool)
    (indentation : Z) : Parser :=
  let indentation := if indentation <=? 0 then DefaultIndentation else indentation in
  {| preserveComments := preserveComments; preserveOrder := preserveOrder;
     indentation := indentation |}.

(** The node that a reference points to. *)
Fixpoint node_at (root : Node) (ref : NodeRef) : option Node :=
  match ref with
  | [] => Some root
  | i :: ref' =>
      match Content root !! i with
      | Some child => node_at child ref'
      | None => None
      end
  end.

(** The assignment [node.Value = v] through a reference: the tree in which
    the node at [ref] has the value [v] and nothing else has changed. *)
Fixpoint set_Value (root : Node) (ref : NodeRef) (v : string) : Node :=
  let 'MkNode kind style tag value line column content := root in
  match ref with
  | [] => MkNode kind style tag v line column content
  | i :: ref' =>
      MkNode kind style tag value line column
        ((fix children (l : list Node) (i : nat) : list Node :=
            match l, i with
            | [], _ => []
            | c :: l', O => set_Value c ref' v :: l'
            | c :: l', S i' => c :: children l' i'
            end) content i)
  end.

(** [Parser.isTagField]. *)
Definition isTagField (key : string) (valueNode : Node) : bool :=
  if negb (Kind_eqb (Kind_of valueNode) ScalarNode) then false
  else
    let tagPatterns := ["tag"; "version"; "image"; "release"] in
    let keyLower := strings.ToLower key in
    if existsb (λ pattern, strings.Contains keyLower pattern) tagPatterns then true
    else
      let value := strings.ToLower (Value valueNode) in
      if strings.Contains value "v" || strings.Contains value ".v"
         || strings.Contains value "-"
      then strings.Contains value "tag" || strings.Contains value "version"
           || strings.Contains key "image"
      else false.

(** The loop [for i, child := range node.Content]. *)
Fixpoint each_child {A} (body : nat → Node → list A) (content : list Node)
    (i : nat) : list A :=
  match content with
  | [] => []
  | child :: rest => body i child ++ each_child body rest (S i)
  end.

(** The loop [for i := 0; i < len(node.Content); i += 2] over the keys
    [Content[i]] and values [Content[i+1]] of a mapping node.  yaml.v3
    builds mapping nodes with as many values as keys; on a last key without
    value the Go loop would stop with an index out of range. *)
Fixpoint each_pair {A} (body : nat → Node → Node → list A) (content : list Node)
    (i : nat) : list A :=
  match content with
  | keyNode :: valueNode :: rest =>
      body i keyNode valueNode ++ each_pair body rest (S (S i))
  | _ => []
  end.

(** [Parser.findTagLocations]: the locations that the call appends to
    [result.TagLocations], in the order of the appends.  [ref] is the
    position of [node]. *)
Fixpoint findTagLocations (node : Node) (path : list string) (ref : NodeRef)
    {struct node} : list TagLocation :=
  let 'MkNode kind _ _ _ _ _ content := node in
  match kind with
  | DocumentNode =>
      each_child (λ i child, findTagLocations child path (ref ++ [i])) content 0%nat
  | MappingNode =>
      each_pair
        (λ i keyNode valueNode,
           if negb (String.eqb (Value keyNode) "") then
             let nodePath := path ++ [Value keyNode] in
             (if isTagField (Value keyNode) valueNode then
                [ {| Path := nodePath;
                     Loc_Line := Line valueNode;
                     Loc_Column := Column valueNode;
                     Loc_Value := Value valueNode;
                     Loc_Node := Some (ref ++ [S i]) |} ]
              else [])
             ++ findTagLocations valueNode nodePath (ref ++ [S i])
           else [])
        content 0%nat
  | SequenceNode =>
      each_child
        (λ i child,
           let indexPath := path ++ ["[" +:+ fmt.d i +:+ "]"] in
           findTagLocations child indexPath (ref ++ [i]))
        content 0%nat
  | _ => []
  end.

(** The location that [findTagLocations] appends for a field that it
    classifies: [i] is the index of the key in [Content], [ref] the
    position of the mapping node. *)
Definition field_location (path : list string) (ref : NodeRef) (i : nat)
    (keyNode valueNode : Node) : TagLocation :=
  {| Path := path ++ [Value keyNode];
     Loc_Line := Line valueNode;
     Loc_Column := Column valueNode;
     Loc_Value := Value valueNode;
     Loc_Node := Some (ref ++ [S i]) |}.

(** The body of the loop of [findTagLocations] over the fields of a
    mapping node. *)
Definition field_locations (path : list string) (ref : NodeRef) (i : nat)
    (keyNode valueNode : Node) : list TagLocation :=
  if negb (String.eqb (Value keyNode) "") then
    (if isTagField (Value keyNode) valueNode
     then [field_location path ref i keyNode valueNode] else [])
    ++ findTagLocations valueNode (path ++ [Value keyNode]) (ref ++ [S i])
  else [].

(** [Parser.pathsEqual]. *)
Definition pathsEqual (path1 path2 : list string) : bool :=
  if negb (length path1 =? length path2)%nat then false
  else
    (fix loop (path1 path2 : list string) : bool :=
       match path1, path2 with
       | segment :: rest1, other :: rest2 =>
           if negb (String.eqb segment other) then false else loop rest1 rest2
       | _, _ => true
       end) path1 path2.

(** [Parser.findTagByPath]: a copy of the first location with the path. *)
Fixpoint findTagByPath_in (locations : list TagLocation) (targetPath : list string)
    : option TagLocation :=
  match locations with
  | [] => None
  | location :: rest =>
      if pathsEqual (Path location) targetPath then Some location
      else findTagByPath_in rest targetPath
  end.

Definition findTagByPath (parseResult : ParseResult) (targetPath : list string)
    : option TagLocation :=
  findTagByPath_in (TagLocations parseResult) targetPath.

(** [Parser.createAndUpdateTag]. *)
Definition createAndUpdateTag (_ : ParseResult) (_ : UpdateOptions) : Result string :=
  Err (ErrApp (errors.NewValidationError "creating new tags is not implemented yet")).

Section Parser.

Context `{Codec}.

(** [Parser.ParseContent].  On a syntax error the Go function returns,
    next to the error, a result that no caller looks at. *)
Definition ParseContent (p : Parser) (content : string) : Result ParseResult :=
  if String.eqb content "" then
    Err (ErrApp (errors.NewValidationError "YAML content cannot be empty"))
  else if (MaxFileSize <? String.length content)%nat then
    Err (ErrApp (errors.NewValidationError
           ("YAML content too large: " +:+ fmt.d (String.length content)
            +:+ " bytes (max " +:+ fmt.d MaxFileSize +:+ ")")))
  else
    match Unmarshal_Node content with
    | inr err =>
        Err (ErrApp (errors.NewInvalidYAMLError ("failed to parse YAML: " +:+ err)))
    | inl rootNode =>
        Ok {| PR_Content := rootNode;
              TagLocations := findTagLocations rootNode [] [];
              OriginalContent := content;
              IsValid := true;
              Errors := [] |}
    end.

(** The tree that [UpdateTag] encodes: the tree of [parseResult] after
    the value has been written through the node of [tagLocation].  A
    location without node, or whose reference names no node of the tree,
    leaves the tree as it is. *)
Definition updated_tree (parseResult : ParseResult) (tagLocation : TagLocation)
    (newValue : string) : Node :=
  match Loc_Node tagLocation with
  | Some ref => set_Value (PR_Content parseResult) ref newValue
  | None => PR_Content parseResult
  end.

(** [Parser.UpdateTag].  Both arguments are pointers that the function
    compares with [nil].  The write to the node is seen by the encoder
    only: every caller drops the parse result afterwards. *)
Definition UpdateTag (p : Parser) (parseResult : option ParseResult)
    (options : option UpdateOptions) : Result string :=
  match parseResult with
  | None => Err (ErrApp (errors.NewValidationError "parse result cannot be nil"))
  | Some parseResult =>
  match options with
  | None => Err (ErrApp (errors.NewValidationError "update options cannot be nil"))
  | Some options =>
    if String.eqb (NewValue options) "" then
      Err (ErrApp (errors.NewValidationError "new tag value cannot be empty"))
    else if (MaxTagValueLength <? String.length (NewValue options))%nat then
      Err (ErrApp (errors.NewValidationError
             ("tag value too long: " +:+ fmt.d (String.length (NewValue options))
              +:+ " characters (max " +:+ fmt.d MaxTagValueLength +:+ ")")))
    else
      match findTagByPath parseResult (TagPath options) with
      | None =>
          if CreateIfMissing options then createAndUpdateTag parseResult options
          else Err (ErrApp (errors.NewValidationError
                      ("tag not found at path: " +:+ fmt.v_strings (TagPath options))))
      | Some tagLocation =>
          match Encode (indentation p)
                       (updated_tree parseResult tagLocation (NewValue options)) with
          | EncodeErr err =>
              Err (ErrApp (errors.NewInvalidYAMLError
                     ("failed to encode updated YAML: " +:+ err)))
          | CloseErr err =>
              Err (ErrApp (errors.NewInvalidYAMLError
                     ("failed to close YAML encoder: " +:+ err)))
          | EncOk text => Ok text
          end
      end
  end end.

Definition commonTagPaths : list (list string) :=
  [ ["tag"];
    ["image"; "tag"];
    ["spec"; "template"; "spec"; "containers"; "image"];
    ["spec"; "containers"; "image"];
    ["metadata"; "labels"; "version"];
    ["version"] ].

(** [Parser.UpdateTagSimple]. *)
Definition UpdateTagSimple (p : Parser) (content newTag : string) : Result string :=
  match ParseContent p content with
  | Err err => Err (ErrWrap "failed to parse YAML content: " err)
  | Ok parseResult =>
      (fix probe (paths : list (list string)) : Result string :=
         match paths with
         | [] => Err (ErrApp (errors.NewValidationError
                                "no suitable tag field found in YAML content"))
         | tagPath :: rest =>
             let options := {| TagPath := tagPath; NewValue := newTag;
                               CreateIfMissing := false; BackupContent := false |} in
             match findTagByPath parseResult tagPath with
             | Some _ => UpdateTag p (Some parseResult) (Some options)
             | None => probe rest
             end
         end) commonTagPaths
  end.

(** [Parser.ValidateYAML]. *)
Definition ValidateYAML (p : Parser) (content : string) : option error :=
  if String.eqb content "" then
    Some (ErrApp (errors.NewValidationError "YAML content cannot be empty"))
  else
    match Unmarshal_any content with
    | Some err =>
        Some (ErrApp (errors.NewInvalidYAMLError ("invalid YAML syntax: " +:+ err)))
    | None => None
    end.

(** [Parser.FormatYAML]: the document as the encoder writes it with the
    indentation of the parser. *)
Definition FormatYAML (p : Parser) (content : string) : Result string :=
  match ParseContent p content with
  | Err err => Err (ErrWrap "failed to parse YAML for formatting: " err)
  | Ok parseResult =>
      match Encode (indentation p) (PR_Content parseResult) with
      | EncodeErr err =>
          Err (ErrApp (errors.NewInvalidYAMLError ("failed to format YAML: " +:+ err)))
      | CloseErr err =>
          Err (ErrApp (errors.NewInvalidYAMLError
                 ("failed to close YAML encoder: " +:+ err)))
      | EncOk text => Ok text
      end
  end.

(** [Parser.GetTagValue].  The value is read through the node of the
    location; the field [Value] of the location is the fallback. *)
Definition GetTagValue (p : Parser) (parseResult : ParseResult)
    (tagPath : list string) : Result string :=
  match findTagByPath parseResult tagPath with
  | None => Err (ErrApp (errors.NewValidationError
                           ("tag not found at path: " +:+ fmt.v_strings tagPath)))
  | Some tagLocation =>
      match Loc_Node tagLocation ≫= node_at (PR_Content parseResult) with
      | Some node =>
          if negb (String.eqb (Value node) "") then Ok (Value node)
          else Ok (Loc_Value tagLocation)
      | None => Ok (Loc_Value tagLocation)
      end
  end.

(** [Parser.ListAllTags]. *)
Definition ListAllTags (p : Parser) (parseResult : ParseResult) : list TagLocation :=
  TagLocations parseResult.

End Parser.

(** ** Package [os] *)

Module os.

(** The system calls that package [yaml] makes. *)
Inductive Call :=
| CallStat (name : string)
| CallReadFile (name : string)
| CallWriteFile (name data : string)
| CallRename (oldpath newpath : string)
| CallRemove (name : string)
| CallMkdirAll (path : string).

(** The file system: the regular files by path, the calls made so far
    (oldest first), and the faults: [fault calls c] is the text of the
    error with which the system refuses the call [c] after the calls
    [calls], for a reason that the map of files does not show
    (permissions, a full disk, a directory in the way).  Directories are
    not represented. *)
Record World := {
  files : gmap string string;
  trace : list Call;
  fault : list Call → Call → option string
}.

Definition called (c : Call) (w : World) (files' : gmap string string) : World :=
  {| files := files'; trace := trace w ++ [c]; fault := fault w |}.

Definition no_such (op name : string) : string :=
  op +:+ " " +:+ name +:+ ": no such file or directory".

Definition Stat (name : string) (w : World) : option string * World :=
  let c := CallStat name in
  (match fault w (trace w) c with
   | Some err => Some err
   | None => match files w !! name with
             | Some _ => None
             | None => Some (no_such "stat" name)
             end
   end, called c w (files w)).

Definition ReadFile (name : string) (w : World) : (string + string) * World :=
  let c := CallReadFile name in
  (match fault w (trace w) c with
   | Some err => inr err
   | None => match files w !! name with
             | Some data => inl data
             | None => inr (no_such "open" name)
             end
   end, called c w (files w)).

(** A refused write leaves the files as they are. *)
Definition WriteFile (name data : string) (w : World) : option string * World :=
  let c := CallWriteFile name data in
  match fault w (trace w) c with
  | Some err => (Some err, called c w (files w))
  | None => (None, called c w (<[name := data]> (files w)))
  end.

Definition Rename (oldpath newpath : string) (w : World) : option string * World :=
  let c := CallRename oldpath newpath in
  match fault w (trace w) c with
  | Some err => (Some err, called c w (files w))
  | None =>
      match files w !! oldpath with
      | Some data => (None, called c w (<[newpath := data]> (delete oldpath (files w))))
      | None => (Some (no_such "rename" (oldpath +:+ " " +:+ newpath)),
                 called c w (files w))
      end
  end.

Definition Remove (name : string) (w : World) : option string * World :=
  let c := CallRemove name in
  match fault w (trace w) c with
  | Some err => (Some err, called c w (files w))
  | None =>
      match files w !! name with
      | Some _ => (None, called c w (delete name (files w)))
      | None => (Some (no_such "remove" name), called c w (files w))
      end
  end.

Definition MkdirAll (path : string) (w : World) : option string * World :=
  let c := CallMkdirAll path in
  (fault w (trace w) c, called c w (files w)).

End os.

(** ** The updater ([updater.go]) *)

Record Updater := {
  parser : Parser;
  backupDir : string;
  keepBackups : bool;
  atomicWrite : bool
}.

Record UpdateRequest := {
  FilePath : string;
  NewTagValue : string;
  Req_TagPath : list string;
  CreateBackup : bool;
  ValidateAfter : bool;
  DryRun : bool
}.

Record UpdateResult := {
  Success : bool;
  UpdatedContent : string;
  BackupPath : string;
  Res_OriginalContent : string;
  ValidationError : option error;
  ChangesDetected : bool
}.

Definition NewUpdater : Updater :=
  {| parser := NewParser; backupDir := ""; keepBackups := true; atomicWrite := true |}.

Definition NewUpdaterWithOptions (backupDir : string) (keepBackups atomicWrite : bool)
    : Updater :=
  {| parser := NewParser; backupDir := backupDir;
     keepBackups := keepBackups; atomicWrite := atomicWrite |}.

(** A function of the updater that touches the file system takes the world
    and returns its result with the world it leaves. *)
Definition IO (A : Type) : Type := os.World → Result A * os.World.

Definition ret {A} (a : A) : IO A := λ w, (Ok a, w).

Definition bind {A B} (m : IO A) (k : A → IO B) : IO B := λ w,
  match m w with
  | (Ok a, w') => k a w'
  | (Err e, w') => (Err e, w')
  end.

Notation "'let*' x ':=' m 'in' k" := (bind m (λ x, k))
  (at level 10, x pattern, m at level 100, k at level 200).

Definition fail {A} (e : error) : IO A := λ w, (Err e, w).

(** [fmt.Errorf(prefix + "%w", err)] around the error of [m]. *)
Definition wrapping {A} (prefix : string) (m : IO A) : IO A := λ w,
  match m w with
  | (Err e, w') => (Err (ErrWrap prefix e), w')
  | r => r
  end.

(** A pure step that may fail. *)
Definition lift {A} (r : Result A) : IO A := λ w, (r, w).

(** [Updater.fileExists]. *)
Definition fileExists (u : Updater) (filePath : string) (w : os.World)
    : bool * os.World :=
  match validateAndCleanFilePath filePath with
  | Err _ => (false, w)
  | Ok cleanPath =>
      let '(err, w') := os.Stat cleanPath w in
      (match err with None => true | Some _ => false end, w')
  end.

(** [Updater.readFile]. *)
Definition readFile (u : Updater) (filePath : string) : IO string :=
  let* cleanPath := lift (validateAndCleanFilePath filePath) in
  λ w,
    let '(found, w) := fileExists u cleanPath w in
    if negb found then (Err (ErrApp (errors.NewFileNotFoundError cleanPath)), w)
    else
      let '(r, w) := os.ReadFile cleanPath w in
      match r with
      | inr err =>
          (Err (ErrApp (errors.NewFileSystemError
                  ("failed to read file " +:+ cleanPath +:+ ": " +:+ err))), w)
      | inl content => (Ok content, w)
      end.

(** [Updater.writeFileAtomic]. *)
Definition writeFileAtomic (u : Updater) (filePath content : string) : IO () := λ w,
  let dir := filepath.Dir filePath in
  let base := filepath.Base filePath in
  let tempPath := filepath.Join [dir; base +:+ TempFileSuffix] in
  let '(err, w) := os.WriteFile tempPath content w in
  match err with
  | Some err =>
      (Err (ErrApp (errors.NewFileSystemError
              ("failed to write temporary file: " +:+ err))), w)
  | None =>
      let '(err, w) := os.Rename tempPath filePath w in
      match err with
      | Some err =>
          let '(_, w) := os.Remove tempPath w in
          (Err (ErrApp (errors.NewFileSystemError
                  ("failed to rename temporary file: " +:+ err))), w)
      | None => (Ok (), w)
      end
  end.

(** [Updater.writeFile]. *)
Definition writeFile (u : Updater) (filePath content : string) : IO () :=
  let* cleanPath := lift (validateAndCleanFilePath filePath) in
  if atomicWrite u then writeFileAtomic u cleanPath content
  else λ w,
    let '(err, w) := os.WriteFile cleanPath content w in
    match err with
    | Some err =>
        (Err (ErrApp (errors.NewFileSystemError
                ("failed to write file " +:+ cleanPath +:+ ": " +:+ err))), w)
    | None => (Ok (), w)
    end.

(** [Updater.createBackup].  [timestamp] is what
    [time.Now().Format(BackupTimestampFormat)] returns at the call: the
    local time to the second, as [20060102_150405]. *)
Definition createBackup (u : Updater) (timestamp : string)
    (filePath content : string) : IO string :=
  let baseFileName := filepath.Base filePath in
  let* backupPath :=
    (if negb (String.eqb (backupDir u) "") then
       λ w,
         let '(err, w) := os.MkdirAll (backupDir u) w in
         match err with
         | Some err =>
             (Err (ErrWrap "failed to create backup directory: " (ErrOS err)), w)
         | None =>
             (Ok (filepath.Join
                    [backupDir u; baseFileName +:+ "." +:+ timestamp +:+ ".backup"]), w)
         end
     else ret (filePath +:+ "." +:+ timestamp +:+ ".backup")) in
  let* _ := wrapping "failed to write backup file: " (writeFile u backupPath content) in
  ret backupPath.

(** The inner loop of [autoDetectTagPath] for one preferred name. *)
Fixpoint scan_preferred (preferred : string) (locations : list TagLocation)
    : option (list string) :=
  match locations with
  | [] => None
  | location :: rest =>
      if (0 <? length (Path location))%nat
         && String.eqb (strings.ToLower (List.last (Path location) "")) preferred
      then Some (Path location)
      else scan_preferred preferred rest
  end.

(** [Updater.autoDetectTagPath]. *)
Definition autoDetectTagPath (u : Updater) (parseResult : ParseResult)
    : Result (list string) :=
  match TagLocations parseResult with
  | [] => Err (ErrApp (errors.NewValidationError "no tag fields found in YAML content"))
  | first :: _ =>
      let preferredPaths := ["tag"; "version"; "image"] in
      (fix prefer (preferredPaths : list string) : Result (list string) :=
         match preferredPaths with
         | [] => Ok (Path first)
         | preferred :: rest =>
             match scan_preferred preferred (TagLocations parseResult) with
             | Some path => Ok path
             | None => prefer rest
             end
         end) preferredPaths
  end.

Section Updater.

Context `{Codec}.

(** [Updater.UpdateTagInFile]; [timestamp] is the time of the call, see
    [createBackup]. *)
Definition UpdateTagInFile (u : Updater) (timestamp : string)
    (request : option UpdateRequest) : IO UpdateResult :=
  match request with
  | None => fail (ErrApp (errors.NewValidationError "update request cannot be nil"))
  | Some request =>
    if String.eqb (FilePath request) "" then
      fail (ErrApp (errors.NewValidationError "file path cannot be empty"))
    else if String.eqb (NewTagValue request) "" then
      fail (ErrApp (errors.NewValidationError "new tag value cannot be empty"))
    else
      let* originalContent :=
        wrapping ("failed to read file " +:+ FilePath request +:+ ": ")
                 (readFile u (FilePath request)) in
      let* parseResult :=
        wrapping ("failed to parse YAML file " +:+ FilePath request +:+ ": ")
                 (lift (ParseContent (parser u) originalContent)) in
      let* tagPath :=
        (if (length (Req_TagPath request) =? 0)%nat then
           wrapping "failed to auto-detect tag path: "
                    (lift (autoDetectTagPath u parseResult))
         else ret (Req_TagPath request)) in
      let updateOptions :=
        {| TagPath := tagPath; NewValue := NewTagValue request;
           CreateIfMissing := false; BackupContent := false |} in
      let* updatedContent :=
        wrapping "failed to update tag: "
                 (lift (UpdateTag (parser u) (Some parseResult) (Some updateOptions))) in
      let validationError :=
        if ValidateAfter request then ValidateYAML (parser u) updatedContent
        else None in
      let result backupPath :=
        {| Success := true;
           UpdatedContent := updatedContent;
           BackupPath := backupPath;
           Res_OriginalContent := originalContent;
           ValidationError := validationError;
           ChangesDetected := negb (String.eqb originalContent updatedContent) |} in
      if DryRun request then ret (result "")
      else
        let* backupPath :=
          (if CreateBackup request && keepBackups u then
             wrapping "failed to create backup: "
                      (createBackup u timestamp (FilePath request) originalContent)
           else ret "") in
        let* _ := wrapping "failed to write updated file: "
                     (writeFile u (FilePath request) updatedContent) in
        ret (result backupPath)
  end.

(** [Updater.PreviewUpdate]. *)
Definition PreviewUpdate (u : Updater) (timestamp : string)
    (request : UpdateRequest) : IO UpdateResult :=
  let previewRequest :=
    {| FilePath := FilePath request; NewTagValue := NewTagValue request;
       Req_TagPath := Req_TagPath request; CreateBackup := false;
       ValidateAfter := ValidateAfter request; DryRun := true |} in
  UpdateTagInFile u timestamp (Some previewRequest).

(** [Updater.RollbackFromBackup]. *)
Definition RollbackFromBackup (u : Updater) (filePath backupPath : string) : IO () :=
  if String.eqb filePath "" then
    fail (ErrApp (errors.NewValidationError "file path cannot be empty"))
  else if String.eqb backupPath "" then
    fail (ErrApp (errors.NewValidationError "backup path cannot be empty"))
  else λ w,
    let '(found, w) := fileExists u backupPath w in
    if negb found then (Err (ErrApp (errors.NewFileNotFoundError backupPath)), w)
    else
      (let* backupContent :=
         wrapping ("failed to read backup file " +:+ backupPath +:+ ": ")
                  (readFile u backupPath) in
       let* _ := (match ValidateYAML (parser u) backupContent with
            | Some err => fail (ErrWrap "backup file contains invalid YAML: " err)
            | None => ret ()
            end) in
       wrapping "failed to restore file from backup: "
                (writeFile u filePath backupContent)) w.

(** [Updater.UpdateTagSimpleInFile]: the request leaves [TagPath] unset. *)
Definition UpdateTagSimpleInFile (u : Updater) (timestamp : string)
    (filePath newTagValue : string) (createBackup : bool) : IO UpdateResult :=
  let request :=
    {| FilePath := filePath; NewTagValue := newTagValue; Req_TagPath := [];
       CreateBackup := createBackup; ValidateAfter := true; DryRun := false |} in
  UpdateTagInFile u timestamp (Some request).

(** [Updater.ValidateFile]. *)
Definition ValidateFile (u : Updater) (filePath : string) : IO () :=
  let* content :=
    wrapping "failed to read file for validation: " (readFile u filePath) in
  match ValidateYAML (parser u) content with
  | Some err => fail err
  | None => ret ()
  end.

(** [Updater.GetFileTagLocations]. *)
Definition GetFileTagLocations (u : Updater) (filePath : string)
    : IO (list TagLocation) :=
  let* content := wrapping "failed to read file: " (readFile u filePath) in
  let* parseResult :=
    wrapping "failed to parse YAML: " (lift (ParseContent (parser u) content)) in
  ret (TagLocations parseResult).

End Updater.

(** ** Removal of old backups ([updater.go]) *)

Section Cleanup.

(** [filepath.Glob pattern]: the names of the files that match the
    pattern, as the library lists them in the file system at hand, or the
    text of its error for a malformed pattern. *)
Variable Glob : string → os.World → list string + string.

(** The loop [for i := MaxBackupFiles; i < len(matches); i++] over the
    matches from the index [MaxBackupFiles] on: each one is removed, and a
    refused removal is passed over. *)
Fixpoint remove_each (matches : list string) (w : os.World) : os.World :=
  match matches with
  | [] => w
  | name :: rest =>
      let '(_, w) := os.Remove name w in
      remove_each rest w
  end.

(** [Updater.CleanupOldBackups]. *)
Definition CleanupOldBackups (u : Updater) (filePath : string) : IO () :=
  if String.eqb (backupDir u) "" then ret ()
  else
    let baseFileName := filepath.Base filePath in
    let backupPattern := baseFileName +:+ ".*.backup" in
    let backupGlob := filepath.Join [backupDir u; backupPattern] in
    λ w,
      match Glob backupGlob w with
      | inr err => (Err (ErrWrap "failed to list backup files: " (ErrOS err)), w)
      | inl matches =>
          if (MaxBackupFiles <? length matches)%nat
          then (Ok (), remove_each (drop MaxBackupFiles matches) w)
          else (Ok (), w)
      end.

End Cleanup.

(** ** Sample documents

    The behaviour of yaml.v3 on a handful of small documents, for the
    examples: [sample_codec] decodes and encodes these documents as the
    library does.  It is a table and not the library: it refuses what the
    table does not hold, and the examples use it on its rows only. *)

Module samples.

Definition scalar (value : string) (line column : Z) : Node :=
  MkNode ScalarNode 0 "!!str" value line column [].

Definition mapping (line column : Z) (content : list Node) : Node :=
  MkNode MappingNode 0 "!!map" "" line column content.

Definition document (content : list Node) : Node :=
  MkNode DocumentNode 0 "" "" 1 1 content.

(** A chart values file, indented by four spaces. *)
Definition chart_text : string :=
  "image:" +:+ "
" +:+ "    tag: v1.0.0" +:+ "
".

Definition chart (tag : string) (column : Z) : Node :=
  document
    [mapping 1 1
       [scalar "image" 1 1;
        mapping 2 column [scalar "tag" 2 column; scalar tag 2 (column + 5)]]].

(** The same file as the encoder writes it with an indentation of two. *)
Definition chart_encoded (tag : string) : string :=
  "image:" +:+ "
" +:+ "  tag: " +:+ tag +:+ "
".

(** A scalar in literal block style ([yaml.LiteralStyle]). *)
Definition literal (value : string) (line column : Z) : Node :=
  MkNode ScalarNode 8 "!!str" value line column [].

(** A tag value that is one line break: a string of length 1. *)
Definition line_break : string := "
".

(** The chart with the line break for tag, as the encoder writes it: the
    value goes into a literal block scalar with the indentation indicator
    [2] and the chomping indicator [+], and its only character ends the
    header line.  The block holds no line. *)
Definition chart_block_text : string :=
  "image:" +:+ "
" +:+ "  tag: |2+" +:+ "
".

(** The same text as the decoder reads it: the block, without a line, is
    the empty string. *)
Definition chart_block : Node :=
  document
    [mapping 1 1
       [scalar "image" 1 1;
        mapping 2 3 [scalar "tag" 2 3; literal "" 2 8]]].

(** The mapping of the chart on its own, without the document node. *)
Definition chart_mapping (tag : string) : Node :=
  mapping 1 1
    [scalar "image" 1 1;
     mapping 2 3 [scalar "tag" 2 3; scalar tag 2 8]].

(** A file whose two fields look like tags by their values only. *)
Definition labels (name label : string) : Node :=
  document
    [mapping 1 1
       [scalar "name" 1 1; scalar name 1 7;
        scalar "label" 2 1; scalar label 2 8]].

Definition labels_text (name label : string) : string :=
  "name: " +:+ name +:+ "
" +:+ "label: " +:+ label +:+ "
".

(** A file without any field that looks like a tag. *)
Definition plain_text : string :=
  "name: demo" +:+ "
".

Definition plain : Node :=
  document [mapping 1 1 [scalar "name" 1 1; scalar "demo" 1 7]].

(** A text that is not YAML. *)
Definition broken_text : string := "tag: [".

Fixpoint Node_eqb (a b : Node) {struct a} : bool :=
  let 'MkNode ka sa ta va la ca contenta := a in
  let 'MkNode kb sb tb vb lb cb contentb := b in
  Kind_eqb ka kb && (sa =? sb)%nat && String.eqb ta tb && String.eqb va vb
  && (la =? lb) && (ca =? cb)
  && (fix all (l1 l2 : list Node) : bool :=
        match l1, l2 with
        | [], [] => true
        | x :: l1', y :: l2' => Node_eqb x y && all l1' l2'
        | _, _ => false
        end) contenta contentb.

Definition decode_table : list (string * Node) :=
  [ (chart_text, chart "v1.0.0" 5);
    (chart_encoded "v1.0.0", chart "v1.0.0" 3);
    (chart_encoded "v2.0.0", chart "v2.0.0" 3);
    (labels_text "old-tag" "my-tag", labels "old-tag" "my-tag");
    (labels_text "new" "my-tag", labels "new" "my-tag");
    (labels_text "new" "new", labels "new" "new");
    (plain_text, plain);
    (chart_block_text, chart_block) ].

Definition encode_table : list (Node * string) :=
  [ (chart "v2.0.0" 5, chart_encoded "v2.0.0");
    (chart "v2.0.0" 3, chart_encoded "v2.0.0");
    (chart "v1.0.0" 5, chart_encoded "v1.0.0");
    (chart "v1.0.0" 3, chart_encoded "v1.0.0");
    (labels "old-tag" "my-tag", labels_text "old-tag" "my-tag");
    (labels "new" "my-tag", labels_text "new" "my-tag");
    (labels "new" "new", labels_text "new" "new");
    (plain, plain_text);
    (chart line_break 5, chart_block_text);
    (chart_mapping "v2.0.0", chart_encoded "v2.0.0") ].

Definition not_in_table : string := "yaml: document outside the sample table".

Definition sample_Unmarshal_Node (content : string) : Node + string :=
  match List.find (λ entry, String.eqb (fst entry) content) decode_table with
  | Some entry => inl (snd entry)
  | None =>
      if String.eqb content broken_text
      then inr "yaml: line 1: did not find expected node content"
      else inr not_in_table
  end.

Definition sample_Unmarshal_any (content : string) : option string :=
  match sample_Unmarshal_Node content with
  | inl _ => None
  | inr err => Some err
  end.

Definition sample_Encode (indent : Z) (node : Node) : Encoded :=
  if negb (indent =? 2) then EncodeErr not_in_table
  else
    match List.find (λ entry, Node_eqb (fst entry) node) encode_table with
    | Some entry => EncOk (snd entry)
    | None => EncodeErr not_in_table
    end.

#[export] Instance sample_codec : Codec :=
  {| Unmarshal_Node := sample_Unmarshal_Node;
     Unmarshal_any := sample_Unmarshal_any;
     Encode := sample_Encode |}.

Definition no_result : ParseResult :=
  {| PR_Content := document []; TagLocations := []; OriginalContent := "";
     IsValid := false; Errors := [] |}.

Definition parsed (content : string) : ParseResult :=
  match ParseContent NewParser content with
  | Ok parseResult => parseResult
  | Err _ => no_result
  end.

(** A value of 257 bytes. *)
Definition long_value : string :=
  String.string_of_list_ascii (repeat "v"%char 257).

Definition new_options (tagPath : list string) (newValue : string) : UpdateOptions :=
  {| TagPath := tagPath; NewValue := newValue;
     CreateIfMissing := false; BackupContent := false |}.

(** An empty file system in which no call is refused. *)
Definition empty_world : os.World :=
  {| os.files := ∅; os.trace := []; os.fault := λ _ _, None |}.

Definition world_with (fs : list (string * string)) : os.World :=
  {| os.files := list_to_map fs; os.trace := []; os.fault := λ _ _, None |}.

(** A file system whose directory has lost the write permission after the
    temporary file was created: renames are refused, and removals too when
    [removals] is set. *)
Definition read_only_directory (removals : bool) (fs : list (string * string))
    : os.World :=
  {| os.files := list_to_map fs;
     os.trace := [];
     os.fault := λ _ c,
       match c with
       | os.CallRename _ _ => Some "rename: permission denied"
       | os.CallRemove _ => if removals then Some "remove: permission denied" else None
       | _ => None
       end |}.

Definition request (filePath newValue : string) (tagPath : list string)
    (createBackup : bool) : UpdateRequest :=
  {| FilePath := filePath; NewTagValue := newValue; Req_TagPath := tagPath;
     CreateBackup := createBackup; ValidateAfter := true; DryRun := false |}.

(** Two updates of the chart to the tag [v2.0.0], five minutes apart. *)
Definition chart_request : UpdateRequest := request "values.yaml" "v2.0.0" [] true.

Definition chart_world : os.World := world_with [("values.yaml", chart_text)].

Definition chart_first_run : Result UpdateResult * os.World :=
  UpdateTagInFile NewUpdater "20240101_120000" (Some chart_request) chart_world.

Definition chart_second_run : Result UpdateResult * os.World :=
  UpdateTagInFile NewUpdater "20240101_120500" (Some chart_request)
    (snd chart_first_run).

End samples.

(** ** Notions for the statements *)

(** [sub] occurs in [s]. *)
Definition occurs (sub s : string) : Prop := ∃ a b, s = a +:+ sub +:+ b.

(** The fields of a mapping node: the index of each key in [Content], the
    key and its value, in the order of the file. *)
Fixpoint mapping_fields (content : list Node) (i : nat) : list (nat * Node * Node) :=
  match content with
  | keyNode :: valueNode :: rest =>
      (i, keyNode, valueNode) :: mapping_fields rest (S (S i))
  | _ => []
  end.

(** The tag-field heuristic as the specification words it: (a) the key,
    lower-cased, contains one of [tag], [version], [image], [release], or
    (b) the scalar value, lower-cased, looks like a version and the key
    also contains [tag], [version] or [image]. *)
Definition specified_tag_like (key : string) (valueNode : Node) : bool :=
  let keyLower := strings.ToLower key in
  let value := strings.ToLower (Value valueNode) in
  existsb (strings.Contains keyLower) ["tag"; "version"; "image"; "release"]
  || (Kind_eqb (Kind_of valueNode) ScalarNode
      && (strings.Contains value "v" || strings.Contains value ".v"
          || strings.Contains value "-")
      && existsb (strings.Contains keyLower) ["tag"; "version"; "image"]).

(** [l] is the first element of [locations] with the property [P]. *)
Definition first_with (P : TagLocation → Prop) (locations : list TagLocation)
    (l : TagLocation) : Prop :=
  ∃ i, locations !! i = Some l ∧ P l ∧
       ∀ j l', (j < i)%nat → locations !! j = Some l' → ¬ P l'.

(** The last segment of the path of [l], lower-cased, is [name]. *)
Definition named (name : string) (l : TagLocation) : Prop :=
  Path l ≠ [] ∧ strings.ToLower (List.last (Path l) "") = name.

(** The name of the temporary file of [writeFileAtomic] for [filePath]. *)
Definition tempPath_of (filePath : string) : string :=
  filepath.Join [filepath.Dir filePath; filepath.Base filePath +:+ TempFileSuffix].

(** A call that reads: it leaves the files as they are. *)
Definition is_read (c : os.Call) : Prop :=
  match c with
  | os.CallStat _ | os.CallReadFile _ => True
  | _ => False
  end.

(** [w'] is [w] after calls that only read. *)
Definition reads_only (w w' : os.World) : Prop :=
  os.files w' = os.files w ∧ os.fault w' = os.fault w ∧
  ∃ calls, os.trace w' = os.trace w ++ calls ∧ Forall is_read calls.

(** Two trees have the same shape: the same kinds and values, node by
    node.  Lines, columns, styles and tags may differ. *)
Fixpoint same_shape (a b : Node) {struct a} : bool :=
  let 'MkNode ka _ _ va _ _ contenta := a in
  let 'MkNode kb _ _ vb _ _ contentb := b in
  Kind_eqb ka kb && String.eqb va vb
  && (fix all (l1 l2 : list Node) : bool :=
        match l1, l2 with
        | [], [] => true
        | x :: l1', y :: l2' => same_shape x y && all l1' l2'
        | _, _ => false
        end) contenta contentb.

(** The key, lower-cased, contains one of the four words of the heuristic:
    the field is classified whatever its scalar value. *)
Definition key_has_tag_word (key : string) : bool :=
  existsb (strings.Contains (strings.ToLower key))
          ["tag"; "version"; "image"; "release"].

(** What a location says of the document: its path, value and node. *)
Definition loc_key (l : TagLocation) : list string * string * option NodeRef :=
  (Path l, Loc_Value l, Loc_Node l).

(** The location of the node at [ref] after the value [v] is written to
    the node; the other locations are as before. *)
Definition retarget (ref : NodeRef) (v : string) (l : TagLocation) : TagLocation :=
  if decide (Loc_Node l = Some ref) then
    {| Path := Path l; Loc_Line := Loc_Line l; Loc_Column := Loc_Column l;
       Loc_Value := v; Loc_Node := Loc_Node l |}
  else l.

(** [e] holds no separator. *)
Fixpoint no_separator (e : string) : bool :=
  match e with
  | EmptyString => true
  | String c e' => negb (Ascii.eqb c filepath.Separator) && no_separator e'
  end.

(** A real element of a path: not empty, not [.] nor [..], without
    separator. *)
Definition real_element (e : string) : Prop :=
  no_separator e = true ∧ e ≠ "" ∧ e ≠ "." ∧ e ≠ "..".

(** The elements that [Clean] has kept, last element first: real elements
    over, in a relative path, leading [..] elements. *)
Definition kept (rooted : bool) (out : list string) : Prop :=
  ∃ reals k, out = reals ++ repeat ".." k
             ∧ Forall real_element reals ∧ (rooted = true → k = 0%nat).

(** The path that [Clean] writes for the elements that it has kept. *)
Definition render (rooted : bool) (out : list string) : string :=
  let body := strings.Join (rev out) "/" in
  if rooted then "/" +:+ body
  else if String.eqb body "" then "." else body.

(** The length of the path written before the last kept element. *)
Definition plen (rooted : bool) (out : list string) : nat :=
  (if rooted then 1 else 0)
  + match out with
    | [] => 0
    | _ => String.length (strings.Join (rev out) "/") + 1
    end.

(** The path that [UpdateTagSimple] updates: the first of the conventional
    paths at which the document has a location. *)
Definition simple_path (parseResult : ParseResult) : option (list string) :=
  List.find (λ tagPath, bool_decide (is_Some (findTagByPath parseResult tagPath)))
            commonTagPaths.

(** The tree that [UpdateTag] hands to the encoder: the parsed tree, with
    the new value in the node of the first location at the path. *)
Definition encoded_tree (parseResult : ParseResult) (tagPath : list string)
    (newValue : string) : option Node :=
  match findTagByPath parseResult tagPath with
  | Some tagLocation => Some (updated_tree parseResult tagLocation newValue)
  | None => None
  end.

Section Notions.

Context `{Codec}.

(** The result that [UpdateTagInFile] builds. *)
Definition result_of (u : Updater) (request : UpdateRequest)
    (originalContent updatedContent backupPath : string) : UpdateResult :=
  {| Success := true;
     UpdatedContent := updatedContent;
     BackupPath := backupPath;
     Res_OriginalContent := originalContent;
     ValidationError :=
       if ValidateAfter request then ValidateYAML (parser u) updatedContent
       else None;
     ChangesDetected := negb (String.eqb originalContent updatedContent) |}.

End Notions.

(** * Properties *)

Import samples.

Example Clean_examples :
  map filepath.Clean
    ["a//b/./c/.."; "../../x"; "/../a"; "a/.."; "a/../.."; "/"; "./config.yaml";
     "abc/"; "a/b/../../../c"; "//tmp//x"]
  = ["a/b"; "../../x"; "/a"; "."; ".."; "/"; "config.yaml";
     "abc"; "../c"; "/tmp/x"].
Proof. reflexivity. Qed.

Example Base_Dir_examples :
  map (λ p, (filepath.Dir p, filepath.Base p))
    ["/tmp/app.yaml"; "app.yaml"; "a/b/"; "/"; ""; "/x"; "conf/app.yaml"]
  = [("/tmp", "app.yaml"); (".", "app.yaml"); ("a/b", "b"); ("/", "/");
     (".", "."); ("/", "x"); ("conf", "app.yaml")].
Proof. reflexivity. Qed.

(** ** Strings and paths *)

Lemma append_cons (c : ascii) (a b : string) :
  String c a +:+ b = String c (a +:+ b).
Proof. reflexivity. Qed.

Lemma prefix_occurs (p s : string) :
  String.prefix p s = true ↔ ∃ b, s = p +:+ b.
Proof.
  revert p. induction s as [|c' s IH]; intros [|c p]; simpl.
  - split; [intros _; by exists "" | done].
  - split; [done | intros [b Hb]; discriminate].
  - split; [intros _; by eexists | done].
  - setoid_rewrite append_cons.
    destruct (Ascii.ascii_dec c c') as [->|Hne].
    + rewrite IH. split; intros [b Hb]; exists b; congruence.
    + split; [done | intros [b Hb]; congruence].
Qed.

Lemma Contains_cons (c : ascii) (s sub : string) :
  strings.Contains (String c s) sub
  = String.prefix sub (String c s) || strings.Contains s sub.
Proof. reflexivity. Qed.

Lemma Contains_occurs (s sub : string) :
  strings.Contains s sub = true ↔ occurs sub s.
Proof.
  unfold occurs. induction s as [|c s IH].
  - change (strings.Contains "" sub) with (String.prefix sub "" || false).
    rewrite orb_false_r, prefix_occurs. split.
    + intros [b Hb]. exists "", b. done.
    + intros [[|c a] [b Hb]]; [eauto | discriminate].
  - rewrite Contains_cons, orb_true_iff, prefix_occurs, IH. split.
    + intros [[b Hb]|[a [b Hb]]].
      * exists "", b. done.
      * exists (String c a), b. rewrite append_cons. by rewrite Hb.
    + intros [[|c' a] [b Hb]].
      * left. eauto.
      * right. exists a, b. rewrite append_cons in Hb. congruence.
Qed.

Lemma existsb_Contains (s : string) (patterns : list string) :
  existsb (strings.Contains s) patterns = true ↔
  ∃ pattern, pattern ∈ patterns ∧ occurs pattern s.
Proof.
  rewrite existsb_exists. split; intros [x [Hin Hx]]; exists x.
  - by rewrite list_elem_of_In, <- Contains_occurs.
  - by rewrite <- list_elem_of_In, Contains_occurs.
Qed.

Lemma pathsEqual_eq (path1 path2 : list string) :
  pathsEqual path1 path2 = true ↔ path1 = path2.
Proof.
  unfold pathsEqual.
  destruct (length path1 =? length path2)%nat eqn:Hlen; simpl.
  - apply Nat.eqb_eq in Hlen. revert path2 Hlen.
    induction path1 as [|a path1 IH]; intros [|b path2] Hlen;
      simpl in *; try done.
    destruct (String.eqb a b) eqn:Hab; simpl.
    + apply String.eqb_eq in Hab as ->. rewrite IH by lia.
      split; congruence.
    + apply String.eqb_neq in Hab. split; [done | congruence].
  - apply Nat.eqb_neq in Hlen. split; [done | congruence].
Qed.

Lemma findTagByPath_in_None (locations : list TagLocation) (path : list string) :
  findTagByPath_in locations path = None ↔ ∀ l, l ∈ locations → Path l ≠ path.
Proof.
  induction locations as [|l0 locations IH]; simpl.
  - split; [intros _ l Hl; by apply elem_of_nil in Hl | done].
  - destruct (pathsEqual (Path l0) path) eqn:Heq.
    + apply pathsEqual_eq in Heq. split; [done |].
      intros Hall. destruct (Hall l0); [left | done].
    + rewrite IH. split.
      * intros Hall l Hl. apply elem_of_cons in Hl as [->|Hl]; [|by apply Hall].
        intros Hp. apply pathsEqual_eq in Hp. congruence.
      * intros Hall l Hl. apply Hall. by right.
Qed.

Lemma findTagByPath_in_Some (locations : list TagLocation) (path : list string)
    (l : TagLocation) :
  findTagByPath_in locations path = Some l ↔
  first_with (λ l', Path l' = path) locations l.
Proof.
  unfold first_with. induction locations as [|l0 locations IH]; simpl.
  - split; [done | intros (i & Hi & _); by rewrite lookup_nil in Hi].
  - destruct (pathsEqual (Path l0) path) eqn:Heq.
    + apply pathsEqual_eq in Heq. split.
      * intros [= <-]. exists 0%nat. split_and!; [done | done | intros; lia].
      * intros (i & Hi & Hp & Hfirst). destruct i as [|i]; [by inversion Hi |].
        destruct (Hfirst 0%nat l0); [lia | done | done].
    + assert (Path l0 ≠ path) as Hne.
      { intros Hp. apply pathsEqual_eq in Hp. congruence. }
      rewrite IH. split.
      * intros (i & Hi & Hp & Hfirst). exists (S i). split_and!; [done | done |].
        intros [|j] l' Hj Hl'; simpl in Hl'; [by inversion Hl'; subst |].
        apply (Hfirst j); [lia | done].
      * intros (i & Hi & Hp & Hfirst). destruct i as [|i].
        { inversion Hi; subst. done. }
        exists i. split_and!; [done | done |].
        intros j l' Hj Hl'. apply (Hfirst (S j)); [lia | done].
Qed.

Lemma NewValidationError_kind (message : string) :
  is_ValidationError (ErrApp (errors.NewValidationError message)).
Proof. by eexists. Qed.

(** ** Path elements *)

Lemma Split_nonempty (s : string) (sep : ascii) : strings.Split s sep ≠ [].
Proof.
  destruct s as [|c s]; simpl; [done |].
  destruct (Ascii.eqb c sep); [done |]. by destruct (strings.Split s sep).
Qed.

Lemma Split_element (e : string) :
  no_separator e = true → strings.Split e filepath.Separator = [e].
Proof.
  induction e as [|c e IH]; simpl; [done |].
  intros [Hc He]%andb_true_iff. apply negb_true_iff in Hc. rewrite Hc.
  by rewrite IH.
Qed.

Lemma Split_elements (s e : string) :
  e ∈ strings.Split s filepath.Separator → no_separator e = true.
Proof.
  revert e. induction s as [|c s IH]; intros e; simpl.
  - by intros ->%list_elem_of_singleton.
  - destruct (Ascii.eqb c filepath.Separator) eqn:Hc.
    + intros [->|He]%elem_of_cons; [done | by apply IH].
    + pose proof (Split_nonempty s filepath.Separator) as Hne.
      destruct (strings.Split s filepath.Separator) as [|e0 rest]; [done |].
      intros [->|He]%elem_of_cons.
      * simpl. rewrite Hc. simpl. apply IH. by left.
      * apply IH. by right.
Qed.

(** Appending a string without separator extends the last element. *)
Lemma Split_app (p s : string) :
  no_separator s = true →
  strings.Split (p +:+ s) filepath.Separator
  = removelast (strings.Split p filepath.Separator)
    ++ [List.last (strings.Split p filepath.Separator) "" +:+ s].
Proof.
  intros Hs. induction p as [|c p IH].
  - simpl. by apply Split_element.
  - rewrite append_cons. simpl.
    pose proof (Split_nonempty p filepath.Separator) as Hne.
    destruct (Ascii.eqb c filepath.Separator).
    + rewrite IH.
      destruct (strings.Split p filepath.Separator) as [|e0 rest]; done.
    + rewrite IH.
      destruct (strings.Split p filepath.Separator) as [|e0 [|e1 rest]]; done.
Qed.

Lemma clean_step_real (rooted : bool) (out : list string) (e : string) :
  real_element e → filepath.clean_step rooted out e = e :: out.
Proof.
  intros (_ & H1 & H2 & H3). unfold filepath.clean_step.
  apply String.eqb_neq in H1, H2, H3. by rewrite H1, H2, H3.
Qed.

Lemma append_assoc (a b c : string) : (a +:+ b) +:+ c = a +:+ b +:+ c.
Proof. induction a as [|x a IH]; [done |]. by rewrite !append_cons, IH. Qed.

Lemma Join_snoc (l : list string) (e : string) :
  strings.Join (l ++ [e]) "/"
  = match l with [] => e | _ => strings.Join l "/" +:+ "/" +:+ e end.
Proof.
  induction l as [|a l IH]; [done |].
  change (strings.Join ((a :: l) ++ [e]) "/")
    with (match l ++ [e] with
          | [] => a
          | _ => a +:+ "/" +:+ strings.Join (l ++ [e]) "/"
          end).
  destruct l as [|b l]; [done |].
  rewrite IH. simpl. by rewrite !append_assoc.
Qed.

Lemma append_nil_r (s : string) : s +:+ "" = s.
Proof. induction s as [|c s IH]; [done |]. by rewrite append_cons, IH. Qed.

Lemma append_empty_inv (a b : string) : a +:+ b = "" → a = "" ∧ b = "".
Proof. by destruct a. Qed.

Lemma Split_sep_end (y : string) :
  strings.Split (y +:+ "/") filepath.Separator
  = strings.Split y filepath.Separator ++ [""].
Proof.
  induction y as [|c y IH]; [done |].
  rewrite append_cons. simpl. rewrite IH.
  pose proof (Split_nonempty y filepath.Separator) as Hne.
  destruct (Ascii.eqb c filepath.Separator); [done |].
  by destruct (strings.Split y filepath.Separator).
Qed.

Lemma Split_last_sep (y : string) :
  List.last (strings.Split (y +:+ "/") filepath.Separator) "" = "".
Proof. rewrite Split_sep_end. apply last_last. Qed.

(** The cleaned form of a path that ends with a real element ends with
    this element, alone or after a separator. *)
Lemma Clean_last_element (p s : string) :
  let e := List.last (strings.Split p filepath.Separator) "" +:+ s in
  no_separator s = true → real_element e →
  ∃ x, filepath.Clean (p +:+ s) = x +:+ e ∧ (x = "" ∨ ∃ y, x = y +:+ "/").
Proof.
  intros e Hs He. unfold filepath.Clean.
  destruct (String.eqb (p +:+ s) "") eqn:Hempty.
  { apply String.eqb_eq, append_empty_inv in Hempty as [-> ->].
    by destruct He as (_ & ? & _). }
  rewrite (Split_app p s Hs). fold e.
  rewrite foldl_app. simpl. rewrite (clean_step_real _ _ e He).
  set (out := foldl _ _ _). simpl. rewrite Join_snoc.
  destruct (strings.HasPrefix (p +:+ s) "/").
  - destruct (rev out) as [|a l].
    + exists "/". split; [done |]. right. by exists "".
    + exists ("/" +:+ strings.Join (a :: l) "/" +:+ "/"). split.
      * by rewrite !append_assoc.
      * right. exists ("/" +:+ strings.Join (a :: l) "/").
        by rewrite append_assoc.
  - destruct (rev out) as [|a l].
    + exists "". split; [|by left]. simpl.
      destruct He as (_ & Hne & _). apply String.eqb_neq in Hne. by rewrite Hne.
    + exists (strings.Join (a :: l) "/" +:+ "/"). split; [|right; by eexists].
      rewrite !append_assoc.
      destruct (String.eqb (strings.Join (a :: l) "/" +:+ "/" +:+ e) "") eqn:Hbody;
        [|done].
      apply String.eqb_eq, append_empty_inv in Hbody as [_ Hbody].
      by apply append_empty_inv in Hbody as [? _].
Qed.

Lemma list_ascii_app (a b : string) :
  String.list_ascii_of_string (a +:+ b)
  = String.list_ascii_of_string a ++ String.list_ascii_of_string b.
Proof. induction a as [|c a IH]; [done |]. rewrite append_cons. simpl. by rewrite IH. Qed.

Lemma no_separator_chars (e : string) :
  no_separator e = true →
  Forall (λ c, Ascii.eqb c filepath.Separator = false) (String.list_ascii_of_string e).
Proof.
  induction e as [|c e IH]; simpl; [by constructor |].
  intros [Hc He]%andb_true_iff. apply negb_true_iff in Hc. constructor; auto.
Qed.

Lemma strip_trailing_element (x e : string) :
  no_separator e = true → e ≠ "" →
  filepath.strip_trailing (x +:+ e) = x +:+ e.
Proof.
  intros He Hne. unfold filepath.strip_trailing.
  rewrite <- (String.string_of_list_ascii_of_string (x +:+ e)) at 2. f_equal.
  rewrite <- (rev_involutive (String.list_ascii_of_string (x +:+ e))) at 2. f_equal.
  rewrite list_ascii_app, rev_app_distr.
  apply no_separator_chars, Forall_rev in He.
  destruct (rev (String.list_ascii_of_string e)) as [|c l] eqn:Hrev.
  - destruct e; [done |]. apply (f_equal length) in Hrev.
    rewrite length_rev in Hrev. done.
  - inversion He as [|? ? Hc _]; subst. simpl. by rewrite Hc.
Qed.

Lemma Base_last_element (x e : string) :
  no_separator e = true → e ≠ "" →
  x = "" ∨ (∃ y, x = y +:+ "/") →
  filepath.Base (x +:+ e) = e.
Proof.
  intros He Hne Hx. unfold filepath.Base.
  destruct (String.eqb (x +:+ e) "") eqn:Hempty.
  { by apply String.eqb_eq, append_empty_inv in Hempty as [_ ?]. }
  rewrite strip_trailing_element, Split_app by done.
  rewrite last_last.
  assert (List.last (strings.Split x filepath.Separator) "" = "") as ->.
  { destruct Hx as [->|[y ->]]; [done | apply Split_last_sep]. }
  change ("" +:+ e) with e. apply String.eqb_neq in Hne. by rewrite Hne.
Qed.

Lemma no_separator_app (a b : string) :
  no_separator (a +:+ b) = no_separator a && no_separator b.
Proof.
  induction a as [|c a IH]; [done |]. rewrite append_cons. simpl.
  by rewrite IH, andb_assoc.
Qed.

Lemma append_length (a b : string) :
  String.length (a +:+ b) = (String.length a + String.length b)%nat.
Proof. induction a as [|c a IH]; [done |]. rewrite append_cons. simpl. by rewrite IH. Qed.

Lemma Clean_nonempty (p : string) : filepath.Clean p ≠ "".
Proof.
  unfold filepath.Clean. destruct (String.eqb p ""); [done |].
  destruct (strings.HasPrefix p "/"); [done |].
  destruct (String.eqb _ "") eqn:Hbody; [done |]. by apply String.eqb_neq.
Qed.

(** The last element of a path has no separator, unless the path is made
    of separators. *)
Lemma Base_element (p : string) :
  filepath.Base p = "/" ∨ no_separator (filepath.Base p) = true.
Proof.
  unfold filepath.Base. destruct (String.eqb p ""); [by right |].
  set (elems := strings.Split _ _).
  destruct (String.eqb (List.last elems "") "") eqn:Hlast; [by left |].
  right. apply (Split_elements (filepath.strip_trailing p)). fold elems.
  pose proof (Split_nonempty (filepath.strip_trailing p) filepath.Separator) as Hne.
  fold elems in Hne. destruct (exists_last Hne) as (l & a & ->).
  rewrite last_last. apply elem_of_app. right. by left.
Qed.

(** The temporary file of [writeFileAtomic] is named after the file, with
    the suffix [.tmp]. *)
Lemma tempPath_of_Base (filePath : string) :
  filepath.Base (tempPath_of filePath)
  = if String.eqb (filepath.Base filePath) "/" then ".tmp"
    else filepath.Base filePath +:+ ".tmp".
Proof.
  unfold tempPath_of, filepath.Join.
  assert (filepath.Dir filePath ≠ "") as Hd.
  { unfold filepath.Dir. destruct (rev _) as [|? [|? ?]]; apply Clean_nonempty. }
  apply String.eqb_neq in Hd. rewrite Hd. clear Hd.
  change (strings.Join [filepath.Dir filePath; filepath.Base filePath +:+ TempFileSuffix] "/")
    with (filepath.Dir filePath +:+ "/" +:+ filepath.Base filePath +:+ TempFileSuffix).
  set (d := filepath.Dir filePath). set (b := filepath.Base filePath).
  destruct (String.eqb b "/") eqn:Hroot.
  - (* the path is made of separators *)
    apply String.eqb_eq in Hroot. rewrite Hroot.
    change (d +:+ "/" +:+ "/" +:+ TempFileSuffix)
      with (d +:+ "/" +:+ "/" +:+ ".tmp").
    replace (d +:+ "/" +:+ "/" +:+ ".tmp") with ((d +:+ "/" +:+ "/") +:+ ".tmp")
      by (by rewrite !append_assoc).
    destruct (Clean_last_element (d +:+ "/" +:+ "/") ".tmp") as (x & -> & Hx).
    + done.
    + replace (d +:+ "/" +:+ "/") with ((d +:+ "/") +:+ "/")
        by (by rewrite !append_assoc).
      rewrite Split_last_sep. by split_and!.
    + replace (d +:+ "/" +:+ "/") with ((d +:+ "/") +:+ "/")
        by (by rewrite !append_assoc).
      rewrite Split_last_sep. by rewrite Base_last_element.
  - apply String.eqb_neq in Hroot.
    destruct (Base_element filePath) as [?|Hb]; [done |]. fold b in Hb.
    replace (d +:+ "/" +:+ b +:+ TempFileSuffix)
      with ((d +:+ "/") +:+ b +:+ ".tmp") by (by rewrite !append_assoc).
    assert (real_element (b +:+ ".tmp")) as Hreal.
    { split_and!.
      - by rewrite no_separator_app, Hb.
      - intros Hs. by apply append_empty_inv in Hs as [_ ?].
      - intros Hs. apply (f_equal String.length) in Hs.
        rewrite append_length in Hs. simpl in Hs. lia.
      - intros Hs. apply (f_equal String.length) in Hs.
        rewrite append_length in Hs. simpl in Hs. lia. }
    destruct (Clean_last_element (d +:+ "/") (b +:+ ".tmp")) as (x & -> & Hx).
    + by rewrite no_separator_app, Hb.
    + by rewrite Split_last_sep.
    + rewrite Split_last_sep.
      change ("" +:+ b +:+ ".tmp") with (b +:+ ".tmp").
      by rewrite Base_last_element;
        [| by destruct Hreal | by destruct Hreal as (_ & ? & _) | done].
Qed.

(** It is never the file itself. *)
Lemma tempPath_of_ne (filePath : string) : tempPath_of filePath ≠ filePath.
Proof.
  intros Heq. apply (f_equal filepath.Base) in Heq.
  rewrite tempPath_of_Base in Heq.
  destruct (String.eqb (filepath.Base filePath) "/") eqn:Hroot.
  - apply String.eqb_eq in Hroot. congruence.
  - apply (f_equal String.length) in Heq.
    rewrite append_length in Heq. simpl in Heq. lia.
Qed.

Example tempPath_of_examples :
  map (λ p, (tempPath_of p, filepath.Dir (tempPath_of p), filepath.Dir p))
    ["/tmp/conf/app.yaml"; "app.yaml"; "conf/app.yaml"]
  = [("/tmp/conf/app.yaml.tmp", "/tmp/conf", "/tmp/conf");
     ("app.yaml.tmp", ".", ".");
     ("conf/app.yaml.tmp", "conf", "conf")].
Proof. reflexivity. Qed.

(** ** The path validator *)

(** C1.  On the four paths and the two accepted ones that the specification
    lists, [validateAndCleanFilePath] rejects the traversal [../../../etc/passwd],
    the absolute [/etc/passwd] and the Windows-style traversal, and accepts
    [/tmp/foo.yaml] and [config/app.yaml]; but it accepts the relative
    [etc/passwd], and with it relative paths that start with [usr/], [bin/]
    and [sbin/], which the specification and the tests of the package
    ([TestPathTraversalSecurity]) want rejected. *)
Theorem validateAndCleanFilePath_relative_system_paths :
  (∃ e, validateAndCleanFilePath "../../../etc/passwd" = Err e) ∧
  (∃ e, validateAndCleanFilePath "/etc/passwd" = Err e) ∧
  (∃ e, validateAndCleanFilePath "..\..\windows\system32\config\sam" = Err e) ∧
  (∃ e, validateAndCleanFilePath "..\..\windows\system32\..." = Err e) ∧
  validateAndCleanFilePath "/tmp/foo.yaml" = Ok "/tmp/foo.yaml" ∧
  validateAndCleanFilePath "config/app.yaml" = Ok "config/app.yaml" ∧
  validateAndCleanFilePath "etc/passwd" = Ok "etc/passwd" ∧
  validateAndCleanFilePath "usr/local/bin/test" = Ok "usr/local/bin/test" ∧
  validateAndCleanFilePath "bin/sh" = Ok "bin/sh" ∧
  validateAndCleanFilePath "sbin/init" = Ok "sbin/init".
Proof. split_and!; try (eexists; reflexivity); reflexivity. Qed.

(** A relative path is accepted as soon as its cleaned form holds no [..]:
    there is no check of names on this branch. *)
Lemma validateAndCleanFilePath_relative (filePath : string) :
  filePath ≠ "" →
  strings.Contains (filepath.Clean filePath) ".." = false →
  filepath.IsAbs (filepath.Clean filePath) = false →
  validateAndCleanFilePath filePath = Ok (filepath.Clean filePath).
Proof.
  intros Hne Hdots Habs. unfold validateAndCleanFilePath.
  apply String.eqb_neq in Hne. rewrite Hne.
  unfold PathTraversalPattern. by rewrite Hdots, Habs.
Qed.

(** ** The tag update engine *)

Lemma Kind_eqb_eq (a b : Kind) : Kind_eqb a b = true ↔ a = b.
Proof. destruct a, b; simpl; split; congruence. Qed.

Lemma pair_ind (P : list Node → Prop) :
  P [] → (∀ k, P [k]) → (∀ k v rest, P rest → P (k :: v :: rest)) →
  ∀ content, P content.
Proof.
  intros Hnil Hone Hpair.
  assert (∀ content, P content ∧ ∀ k, P (k :: content)) as Hboth.
  { induction content as [|x content [IH1 IH2]]; split; auto. }
  intros content. apply Hboth.
Qed.

Lemma each_pair_fields {A} (body : nat → Node → Node → list A)
    (content : list Node) (i : nat) :
  each_pair body content i
  = flat_map (λ '(j, keyNode, valueNode), body j keyNode valueNode)
             (mapping_fields content i).
Proof.
  revert i. induction content as [| |k v rest IH] using pair_ind; intros i;
    [done | done |].
  simpl. by rewrite IH.
Qed.

(** C4, as the code has it.  A field is classified as tag-like exactly
    when its value is a scalar and either (a) the key, lower-cased, contains
    [tag], [version], [image] or [release], or (b) the value, lower-cased,
    contains [v], [.v] or [-] and also contains [tag] or [version] (or the
    key as written contains [image]): in (b) it is the value, not the key,
    that is searched for [tag] and [version].  The locations of a mapping
    node are, field by field in the order of the file and for the fields
    with a non-empty key, the location of the field when it is classified,
    followed by the locations found inside its value. *)
Theorem isTagField_classification :
  (∀ key valueNode,
     let value := strings.ToLower (Value valueNode) in
     isTagField key valueNode = true ↔
     Kind_of valueNode = ScalarNode ∧
     ((∃ pattern, pattern ∈ ["tag"; "version"; "image"; "release"]
                  ∧ occurs pattern (strings.ToLower key))
      ∨ ((occurs "v" value ∨ occurs ".v" value ∨ occurs "-" value)
         ∧ (occurs "tag" value ∨ occurs "version" value ∨ occurs "image" key))))
  ∧
  (∀ style tag value line column content path ref,
     findTagLocations (MkNode MappingNode style tag value line column content) path ref
     = flat_map
         (λ '(i, keyNode, valueNode),
            if String.eqb (Value keyNode) "" then []
            else
              (if isTagField (Value keyNode) valueNode then
                 [ {| Path := path ++ [Value keyNode];
                      Loc_Line := Line valueNode;
                      Loc_Column := Column valueNode;
                      Loc_Value := Value valueNode;
                      Loc_Node := Some (ref ++ [S i]) |} ]
               else [])
              ++ findTagLocations valueNode (path ++ [Value keyNode]) (ref ++ [S i]))
         (mapping_fields content 0)).
Proof.
  split.
  - intros key valueNode value. unfold isTagField. fold value.
    set (kw := existsb _ _).
    assert (kw = true ↔
            ∃ pattern, pattern ∈ ["tag"; "version"; "image"; "release"]
                       ∧ occurs pattern (strings.ToLower key)) as Hkw.
    { rewrite <- existsb_Contains. done. }
    clearbody kw. rewrite <- !Contains_occurs.
    destruct (Kind_eqb (Kind_of valueNode) ScalarNode) eqn:Hkind; simpl.
    + apply Kind_eqb_eq in Hkind.
      destruct kw.
      * by intuition.
      * assert (¬ ∃ pattern, pattern ∈ ["tag"; "version"; "image"; "release"]
                             ∧ occurs pattern (strings.ToLower key)) as Hno.
        { rewrite <- Hkw. done. }
        destruct (strings.Contains value "v" || strings.Contains value ".v"
                  || strings.Contains value "-") eqn:Hlooks.
        -- rewrite !orb_true_iff in *. by intuition.
        -- rewrite !orb_false_iff in Hlooks. destruct Hlooks as [[-> ->] ->].
           split; [done |]. intros [_ [?|[[?|[?|?]] _]]]; done.
    + split; [done |]. intros [Hk _]. apply Kind_eqb_eq in Hk. congruence.
  - intros. simpl. rewrite each_pair_fields. apply flat_map_ext.
    intros [[i keyNode] valueNode]. by destruct (String.eqb (Value keyNode) "").
Qed.

(** ** Detection of the tag path *)

Lemma named_test (name : string) (l : TagLocation) :
  (0 <? length (Path l))%nat
  && String.eqb (strings.ToLower (List.last (Path l) "")) name = true
  ↔ named name l.
Proof.
  unfold named. rewrite andb_true_iff, Nat.ltb_lt, String.eqb_eq.
  destruct (Path l); simpl; split; intros [? ?]; split; try done; lia.
Qed.

Lemma scan_preferred_None (name : string) (locations : list TagLocation) :
  scan_preferred name locations = None ↔ ∀ l, l ∈ locations → ¬ named name l.
Proof.
  induction locations as [|l0 locations IH]; simpl.
  - split; [intros _ l Hl; by apply elem_of_nil in Hl | done].
  - destruct (_ && _) eqn:Htest.
    + apply named_test in Htest. split; [done |].
      intros Hall. destruct (Hall l0); [left | done].
    + rewrite IH. split.
      * intros Hall l Hl. apply elem_of_cons in Hl as [->|Hl]; [|by apply Hall].
        rewrite <- named_test. by rewrite Htest.
      * intros Hall l Hl. apply Hall. by right.
Qed.

Lemma scan_preferred_first (name : string) (locations : list TagLocation)
    (l : TagLocation) :
  first_with (named name) locations l →
  scan_preferred name locations = Some (Path l).
Proof.
  unfold first_with. induction locations as [|l0 locations IH]; simpl.
  - intros (i & Hi & _). by rewrite lookup_nil in Hi.
  - intros (i & Hi & Hn & Hfirst). destruct i as [|i]; simpl in Hi.
    + inversion Hi; subst l0. apply named_test in Hn. by rewrite Hn.
    + destruct (_ && _) eqn:Htest.
      * apply named_test in Htest. destruct (Hfirst 0%nat l0); [lia | done | done].
      * apply IH. exists i. split_and!; [done | done |].
        intros j l' Hj Hl'. apply (Hfirst (S j)); [lia | done].
Qed.

Lemma autoDetectTagPath_spec (u : Updater) (pr : ParseResult) :
  let locations := TagLocations pr in
  let none name := ∀ l, l ∈ locations → ¬ named name l in
  (locations = [] → ∃ e, autoDetectTagPath u pr = Err e ∧ is_ValidationError e)
  ∧ (∀ l, first_with (named "tag") locations l →
          autoDetectTagPath u pr = Ok (Path l))
  ∧ (∀ l, none "tag" → first_with (named "version") locations l →
          autoDetectTagPath u pr = Ok (Path l))
  ∧ (∀ l, none "tag" → none "version" → first_with (named "image") locations l →
          autoDetectTagPath u pr = Ok (Path l))
  ∧ (∀ first rest, locations = first :: rest →
          none "tag" → none "version" → none "image" →
          autoDetectTagPath u pr = Ok (Path first)).
Proof.
  intros locations none. unfold autoDetectTagPath. fold locations.
  split_and!.
  - intros ->. eexists. split; [done | apply NewValidationError_kind].
  - intros l Hl. destruct locations as [|first rest] eqn:Hlocs.
    { destruct Hl as (i & Hi & _). by rewrite lookup_nil in Hi. }
    by rewrite (scan_preferred_first _ _ _ Hl).
  - intros l Htag Hl. destruct locations as [|first rest] eqn:Hlocs.
    { destruct Hl as (i & Hi & _). by rewrite lookup_nil in Hi. }
    apply scan_preferred_None in Htag. rewrite Htag.
    by rewrite (scan_preferred_first _ _ _ Hl).
  - intros l Htag Hversion Hl. destruct locations as [|first rest] eqn:Hlocs.
    { destruct Hl as (i & Hi & _). by rewrite lookup_nil in Hi. }
    apply scan_preferred_None in Htag, Hversion. rewrite Htag, Hversion.
    by rewrite (scan_preferred_first _ _ _ Hl).
  - intros first rest -> Htag Hversion Himage.
    apply scan_preferred_None in Htag, Hversion, Himage.
    by rewrite Htag, Hversion, Himage.
Qed.

Section ParserProperties.

Context `{Codec}.

(** C2, as the code has it.  [UpdateTag] fails with a validation error
    when the new value is empty or longer than [MaxTagValueLength] = 256
    bytes, whatever the parse result; and, for an accepted value and
    [CreateIfMissing] false, when no location has a path equal to
    [TagPath], it fails with a validation error too ("tag not found at
    path"), not with a not-found error. *)
Theorem UpdateTag_failures (p : Parser) (parseResult : option ParseResult)
    (options : UpdateOptions) :
  (NewValue options = ""
   ∨ (MaxTagValueLength < String.length (NewValue options))%nat →
   ∃ e, UpdateTag p parseResult (Some options) = Err e ∧ is_ValidationError e)
  ∧
  (∀ pr, parseResult = Some pr →
     NewValue options ≠ "" →
     (String.length (NewValue options) ≤ MaxTagValueLength)%nat →
     CreateIfMissing options = false →
     (∀ l, l ∈ TagLocations pr → Path l ≠ TagPath options) →
     UpdateTag p parseResult (Some options)
     = Err (ErrApp (errors.NewValidationError
              ("tag not found at path: " +:+ fmt.v_strings (TagPath options))))
     ∧ ∀ e, UpdateTag p parseResult (Some options) = Err e →
            is_ValidationError e ∧ ¬ is_FileNotFoundError e).
Proof.
  split.
  - intros Hbad. unfold UpdateTag.
    destruct parseResult as [pr|];
      [| eexists; split; [done | apply NewValidationError_kind]].
    destruct (String.eqb (NewValue options) "") eqn:Hempty;
      [eexists; split; [done | apply NewValidationError_kind] |].
    apply String.eqb_neq in Hempty. destruct Hbad as [?|Hlong]; [done |].
    apply Nat.ltb_lt in Hlong. rewrite Hlong.
    eexists; split; [done | apply NewValidationError_kind].
  - intros pr -> Hne Hlen Hcreate Hnone.
    assert (UpdateTag p (Some pr) (Some options)
            = Err (ErrApp (errors.NewValidationError
                     ("tag not found at path: " +:+ fmt.v_strings (TagPath options)))))
      as Heq.
    { unfold UpdateTag. apply String.eqb_neq in Hne. rewrite Hne.
      destruct (Nat.ltb_spec MaxTagValueLength (String.length (NewValue options)));
        [lia |].
      unfold findTagByPath.
      apply findTagByPath_in_None in Hnone. by rewrite Hnone, Hcreate. }
    split; [done |]. intros e. rewrite Heq. intros [= <-]. split.
    + apply NewValidationError_kind.
    + intros (a & Ha & Hcode & _). inversion Ha; subst a. done.
Qed.

(** C3.  After a successful parse, [UpdateTagSimple] probes the six
    conventional paths in their fixed order and is the call of
    [UpdateTag] on the first of them that is the path of a detected
    location; when none is, it fails with a validation error. *)
Theorem UpdateTagSimple_probes (p : Parser) (content newTag : string)
    (pr : ParseResult) :
  ParseContent p content = Ok pr →
  commonTagPaths
  = [ ["tag"]; ["image"; "tag"];
      ["spec"; "template"; "spec"; "containers"; "image"];
      ["spec"; "containers"; "image"];
      ["metadata"; "labels"; "version"]; ["version"] ]
  ∧ (∀ i tagPath,
       commonTagPaths !! i = Some tagPath →
       (∃ l, l ∈ TagLocations pr ∧ Path l = tagPath) →
       (∀ j earlier, (j < i)%nat → commonTagPaths !! j = Some earlier →
                     ∀ l, l ∈ TagLocations pr → Path l ≠ earlier) →
       UpdateTagSimple p content newTag
       = UpdateTag p (Some pr)
           (Some {| TagPath := tagPath; NewValue := newTag;
                    CreateIfMissing := false; BackupContent := false |}))
  ∧ ((∀ tagPath, tagPath ∈ commonTagPaths →
                 ∀ l, l ∈ TagLocations pr → Path l ≠ tagPath) →
     ∃ e, UpdateTagSimple p content newTag = Err e ∧ is_ValidationError e).
Proof.
  intros Hparse. split; [done |].
  unfold UpdateTagSimple. rewrite Hparse.
  generalize commonTagPaths as paths. split.
  - induction paths as [|q paths IH]; intros i tagPath Hi Hex Hfirst.
    + by rewrite lookup_nil in Hi.
    + destruct i as [|i]; simpl in Hi.
      * inversion Hi; subst q. unfold findTagByPath.
        destruct (findTagByPath_in (TagLocations pr) tagPath) eqn:Hfind; [done |].
        destruct Hex as (l & Hl & Hp).
        by eapply findTagByPath_in_None in Hfind.
      * unfold findTagByPath.
        assert (findTagByPath_in (TagLocations pr) q = None) as ->.
        { apply findTagByPath_in_None. apply (Hfirst 0%nat); [lia | done]. }
        apply (IH i); [done | done |].
        intros j earlier Hj Hearlier. apply (Hfirst (S j)); [lia | done].
  - induction paths as [|q paths IH]; intros Hnone.
    + eexists; split; [done | apply NewValidationError_kind].
    + unfold findTagByPath.
      assert (findTagByPath_in (TagLocations pr) q = None) as ->.
      { apply findTagByPath_in_None. apply Hnone. by left. }
      apply IH. intros tagPath Hin. apply Hnone. by right.
Qed.

End ParserProperties.

(** ** The traversal *)

#[local] Arguments Nat.mul : simpl never.

Lemma Node_ind' (P : Node → Prop) :
  (∀ kind style tag value line column content,
     Forall P content → P (MkNode kind style tag value line column content)) →
  ∀ node, P node.
Proof.
  intros Hnode. fix IH 1. intros [kind style tag value line column content].
  apply Hnode. induction content as [|child content IHcontent]; constructor.
  - apply IH.
  - apply IHcontent.
Qed.

Lemma each_child_elem {A} (body : nat → Node → list A) (content : list Node)
    (i0 : nat) (x : A) :
  x ∈ each_child body content i0 ↔
  ∃ j child, content !! j = Some child ∧ x ∈ body (i0 + j)%nat child.
Proof.
  revert i0. induction content as [|child content IH]; intros i0; simpl.
  - split; [by intros ?%elem_of_nil | by intros (j & c & ? & _)].
  - rewrite elem_of_app, IH. split.
    + intros [Hx|(j & c & Hj & Hx)].
      * exists 0%nat, child. by rewrite Nat.add_0_r.
      * exists (S j), c. by rewrite Nat.add_succ_r.
    + intros ([|j] & c & Hj & Hx); simpl in Hj.
      * inversion Hj; subst c. left. by rewrite Nat.add_0_r in Hx.
      * right. exists j, c. by rewrite Nat.add_succ_r in Hx.
Qed.

Lemma each_pair_elem {A} (body : nat → Node → Node → list A) (content : list Node)
    (i0 : nat) (x : A) :
  x ∈ each_pair body content i0 ↔
  ∃ j keyNode valueNode,
    content !! (2 * j)%nat = Some keyNode ∧ content !! S (2 * j) = Some valueNode
    ∧ x ∈ body (i0 + 2 * j)%nat keyNode valueNode.
Proof.
  revert i0. induction content as [| |k v rest IH] using pair_ind; intros i0.
  - split; [by intros ?%elem_of_nil | by intros (j & kN & vN & ? & _)].
  - split; [by intros ?%elem_of_nil |].
    intros (j & kN & vN & _ & Hv & _). by destruct j.
  - simpl. rewrite elem_of_app, IH. split.
    + intros [Hx|(j & kN & vN & Hk & Hv & Hx)].
      * exists 0%nat, k, v. by rewrite Nat.add_0_r.
      * exists (S j), kN, vN.
        replace (2 * S j)%nat with (S (S (2 * j))) by lia.
        split_and!; [done | done |].
        by replace (i0 + S (S (2 * j)))%nat with (S (S i0) + 2 * j)%nat by lia.
    + intros ([|j] & kN & vN & Hk & Hv & Hx).
      * simpl in Hk, Hv. inversion Hk; inversion Hv; subst.
        left. by rewrite Nat.add_0_r in Hx.
      * replace (2 * S j)%nat with (S (S (2 * j))) in * by lia.
        right. exists j, kN, vN. split_and!; [done | done |].
        by replace (S (S i0) + 2 * j)%nat with (i0 + S (S (2 * j)))%nat by lia.
Qed.

(** Two loops over lists of the same length are related when their bodies
    are, child by child. *)
Lemma each_child_rel {A B} (R : list A → list B → Prop)
    (body : nat → Node → list A) (body' : nat → Node → list B)
    (content content' : list Node) (i0 : nat) :
  R [] [] →
  (∀ x y x' y', R x y → R x' y' → R (x ++ x') (y ++ y')) →
  length content = length content' →
  (∀ j c c', content !! j = Some c → content' !! j = Some c' →
             R (body (i0 + j)%nat c) (body' (i0 + j)%nat c')) →
  R (each_child body content i0) (each_child body' content' i0).
Proof.
  intros Hnil Happ. revert content' i0.
  induction content as [|c content IH]; intros [|c' content'] i0 Hlen Hbody;
    simpl in *; try done.
  apply Happ.
  - specialize (Hbody 0%nat c c' eq_refl eq_refl). by rewrite Nat.add_0_r in Hbody.
  - apply IH; [lia |]. intros j d d' Hd Hd'.
    specialize (Hbody (S j) d d' Hd Hd'). by rewrite Nat.add_succ_r in Hbody.
Qed.

Lemma each_pair_rel {A B} (R : list A → list B → Prop)
    (body : nat → Node → Node → list A) (body' : nat → Node → Node → list B)
    (content content' : list Node) (i0 : nat) :
  R [] [] →
  (∀ x y x' y', R x y → R x' y' → R (x ++ x') (y ++ y')) →
  length content = length content' →
  (∀ j k v k' v',
     content !! (2 * j)%nat = Some k → content !! S (2 * j) = Some v →
     content' !! (2 * j)%nat = Some k' → content' !! S (2 * j) = Some v' →
     R (body (i0 + 2 * j)%nat k v) (body' (i0 + 2 * j)%nat k' v')) →
  R (each_pair body content i0) (each_pair body' content' i0).
Proof.
  intros Hnil Happ. revert content' i0.
  induction content as [| |k v rest IH] using pair_ind;
    intros content' i0 Hlen Hbody.
  - by destruct content'.
  - by destruct content' as [|? [|? ?]].
  - destruct content' as [|k' [|v' rest']]; simpl in Hlen; try done.
    simpl. apply Happ.
    + specialize (Hbody 0%nat k v k' v' eq_refl eq_refl eq_refl eq_refl).
      by rewrite Nat.add_0_r in Hbody.
    + apply IH; [lia |]. intros j kN vN kN' vN' Hk Hv Hk' Hv'.
      specialize (Hbody (S j) kN vN kN' vN').
      replace (2 * S j)%nat with (S (S (2 * j))) in Hbody by lia.
      replace (i0 + S (S (2 * j)))%nat with (S (S i0) + 2 * j)%nat in Hbody by lia.
      by apply Hbody.
Qed.

Lemma set_Value_cons (kind : Kind) (style : nat) (tag value : string)
    (line column : Z) (content : list Node) (i : nat) (ref : NodeRef) (v : string) :
  set_Value (MkNode kind style tag value line column content) (i :: ref) v
  = MkNode kind style tag value line column
      (alter (λ child, set_Value child ref v) i content).
Proof.
  simpl. f_equal. revert i.
  induction content as [|c content IH]; intros [|i]; simpl; try done.
  by rewrite IH.
Qed.

Lemma set_Value_nil (node : Node) (v : string) :
  Kind_of (set_Value node [] v) = Kind_of node
  ∧ Value (set_Value node [] v) = v
  ∧ Line (set_Value node [] v) = Line node
  ∧ Column (set_Value node [] v) = Column node
  ∧ Content (set_Value node [] v) = Content node.
Proof. by destruct node. Qed.

Lemma set_Value_Kind (node : Node) (ref : NodeRef) (v : string) :
  Kind_of (set_Value node ref v) = Kind_of node.
Proof. destruct node, ref; done. Qed.

Lemma findTagLocations_scalar (node : Node) (path : list string) (ref : NodeRef) :
  Kind_of node = ScalarNode → findTagLocations node path ref = [].
Proof. destruct node; simpl. by intros ->. Qed.

Lemma isTagField_scalar (key : string) (valueNode : Node) :
  isTagField key valueNode = true → Kind_of valueNode = ScalarNode.
Proof.
  unfold isTagField.
  destruct (Kind_eqb (Kind_of valueNode) ScalarNode) eqn:Hkind; [|done].
  intros _. by apply Kind_eqb_eq.
Qed.

Lemma isTagField_key_word (key : string) (valueNode : Node) :
  Kind_of valueNode = ScalarNode → key_has_tag_word key = true →
  isTagField key valueNode = true.
Proof.
  unfold isTagField, key_has_tag_word. intros -> Hkey. simpl in *.
  by rewrite Hkey.
Qed.

Lemma findTagLocations_unfold (node : Node) (path : list string) (ref : NodeRef) :
  findTagLocations node path ref
  = match Kind_of node with
    | DocumentNode =>
        each_child (λ i child, findTagLocations child path (ref ++ [i]))
                   (Content node) 0%nat
    | MappingNode => each_pair (field_locations path ref) (Content node) 0%nat
    | SequenceNode =>
        each_child
          (λ i child,
             findTagLocations child (path ++ ["[" +:+ fmt.d i +:+ "]"]) (ref ++ [i]))
          (Content node) 0%nat
    | _ => []
    end.
Proof. by destruct node as [[] ? ? ? ? ? ?]. Qed.

Lemma field_locations_elem (path : list string) (ref : NodeRef) (i : nat)
    (keyNode valueNode : Node) (l : TagLocation) :
  l ∈ field_locations path ref i keyNode valueNode ↔
  Value keyNode ≠ ""
  ∧ ((isTagField (Value keyNode) valueNode = true
      ∧ l = field_location path ref i keyNode valueNode)
     ∨ l ∈ findTagLocations valueNode (path ++ [Value keyNode]) (ref ++ [S i])).
Proof.
  unfold field_locations.
  destruct (String.eqb (Value keyNode) "") eqn:Hkey; simpl.
  - apply String.eqb_eq in Hkey. split; [by intros ?%elem_of_nil | by intros [? _]].
  - apply String.eqb_neq in Hkey. rewrite elem_of_app.
    destruct (isTagField (Value keyNode) valueNode).
    + rewrite list_elem_of_singleton. by intuition.
    + split.
      * intros [?%elem_of_nil|?]; [done | by auto].
      * intros [_ [[? _]|?]]; [done | by auto].
Qed.

Lemma node_at_cons (node : Node) (i : nat) (ref : NodeRef) (child : Node) :
  Content node !! i = Some child → node_at node (i :: ref) = node_at child ref.
Proof. simpl. by intros ->. Qed.

(** The node of a location is a node of the tree, below the node that was
    searched, and holds the value of the location. *)
Lemma location_sound (node : Node) (path : list string) (pre : NodeRef)
    (l : TagLocation) :
  l ∈ findTagLocations node path pre →
  ∃ ref n, ref ≠ [] ∧ Loc_Node l = Some (pre ++ ref)
           ∧ node_at node ref = Some n ∧ Loc_Value l = Value n.
Proof.
  revert path pre.
  induction node as [kind style tag value line column content IH] using Node_ind'.
  intros path pre. rewrite findTagLocations_unfold. simpl.
  rewrite Forall_lookup in IH.
  destruct kind; try by intros ?%elem_of_nil.
  - intros (j & child & Hj & Hl)%each_child_elem.
    destruct (IH j child Hj _ _ Hl) as (ref & n & _ & Hnode & Hat & Hvalue).
    exists (j :: ref), n. split_and!; [done | | | done].
    + by rewrite Hnode, <- app_assoc.
    + by rewrite (node_at_cons _ _ _ child).
  - intros (j & child & Hj & Hl)%each_child_elem.
    destruct (IH j child Hj _ _ Hl) as (ref & n & _ & Hnode & Hat & Hvalue).
    exists (j :: ref), n. split_and!; [done | | | done].
    + by rewrite Hnode, <- app_assoc.
    + by rewrite (node_at_cons _ _ _ child).
  - intros (j & keyNode & valueNode & Hk & Hv & Hl)%each_pair_elem.
    apply field_locations_elem in Hl as [_ [[_ ->]|Hl]].
    + exists [S (2 * j)], valueNode. split_and!; [done | done | | done].
      by rewrite (node_at_cons _ _ _ valueNode).
    + destruct (IH _ valueNode Hv _ _ Hl) as (ref & n & _ & Hnode & Hat & Hvalue).
      exists (S (2 * j) :: ref), n. split_and!; [done | | | done].
      * by rewrite Hnode, <- app_assoc.
      * by rewrite (node_at_cons _ _ _ valueNode).
Qed.

Lemma locations_not_scalar (node : Node) (path : list string) (pre : NodeRef)
    (l : TagLocation) :
  l ∈ findTagLocations node path pre → Kind_of node ≠ ScalarNode.
Proof.
  intros Hl Hkind. rewrite findTagLocations_scalar in Hl by done.
  by apply elem_of_nil in Hl.
Qed.

Lemma retarget_other (ref : NodeRef) (v : string) (locations : list TagLocation) :
  (∀ l, l ∈ locations → Loc_Node l ≠ Some ref) →
  map (retarget ref v) locations = locations.
Proof.
  intros Hother. induction locations as [|l locations IH]; [done |].
  simpl. rewrite IH by (intros l' Hl'; apply Hother; by right).
  unfold retarget. destruct (decide _) as [Heq|]; [|done].
  destruct (Hother l); [by left | done].
Qed.

(** The locations below another child are not the one of the updated
    node. *)
Lemma locations_below_other (node : Node) (path : list string) (pre : NodeRef)
    (i k : nat) (ref : NodeRef) (l : TagLocation) :
  i ≠ k → l ∈ findTagLocations node path (pre ++ [i]) →
  Loc_Node l ≠ Some (pre ++ k :: ref).
Proof.
  intros Hne Hl Heq.
  destruct (location_sound _ _ _ _ Hl) as (ref' & _ & _ & Hnode & _).
  rewrite Hnode, <- app_assoc in Heq. simpl in Heq.
  inversion Heq as [Happ]. apply app_inv_head in Happ. congruence.
Qed.

Lemma path_last (path : list string) (key : string) :
  List.last (path ++ [key]) "" = key.
Proof. apply last_last. Qed.

(** What writing a value to the node of a location does to the
    locations.  [updates ref] is the statement for the references [ref]. *)
Definition updates (ref : NodeRef) : Prop :=
  ∀ node path pre v l,
    l ∈ findTagLocations node path pre →
    Loc_Node l = Some (pre ++ ref) →
    key_has_tag_word (List.last (Path l) "") = true →
    findTagLocations (set_Value node ref v) path pre
    = map (retarget (pre ++ ref) v) (findTagLocations node path pre).

Lemma updates_children (pathf : nat → list string) (content : list Node)
    (k : nat) (ref : NodeRef) (v : string) (pre : NodeRef) (l : TagLocation) :
  let body := λ i child, findTagLocations child (pathf i) (pre ++ [i]) in
  updates ref →
  l ∈ each_child body content 0 →
  Loc_Node l = Some (pre ++ k :: ref) →
  key_has_tag_word (List.last (Path l) "") = true →
  each_child body (alter (λ child, set_Value child ref v) k content) 0
  = map (retarget (pre ++ k :: ref) v) (each_child body content 0).
Proof.
  intros body IH (j0 & c0 & Hj0 & Hl)%each_child_elem Hnode Hkey.
  simpl in Hl. unfold body in Hl.
  assert (j0 = k) as ->.
  { destruct (location_sound _ _ _ _ Hl) as (r & _ & _ & Hr & _).
    rewrite Hnode, <- app_assoc in Hr. inversion Hr as [Happ].
    apply app_inv_head in Happ. by inversion Happ. }
  apply (each_child_rel (λ x y, y = map (retarget (pre ++ k :: ref) v) x)).
  - done.
  - intros x y x' y' -> ->. by rewrite map_app.
  - by rewrite length_alter.
  - intros j c c' Hc Hc'. simpl. unfold body.
    destruct (decide (j = k)) as [->|Hjk].
    + rewrite list_lookup_alter_eq, Hc in Hc'. simpl in Hc'. inversion Hc'; subst c'.
      assert (c = c0) as -> by congruence.
      rewrite (IH c0 (pathf k) (pre ++ [k]) v l); [| done | | done].
      * by rewrite <- app_assoc.
      * by rewrite Hnode, <- app_assoc.
    + rewrite list_lookup_alter_ne in Hc' by done.
      assert (c' = c) as -> by congruence.
      rewrite retarget_other; [done |].
      intros l' Hl'. by eapply locations_below_other.
Qed.

Lemma updates_all (ref : NodeRef) : updates ref.
Proof.
  induction ref as [|k ref IH]; intros node path pre v l Hl Hnode Hkey.
  { destruct (location_sound _ _ _ _ Hl) as (r & _ & Hr & Hn & _).
    rewrite Hnode in Hn. inversion Hn as [Happ].
    apply app_inv_head in Happ. congruence. }
  destruct node as [kind style tag value line column content].
  rewrite set_Value_cons, !findTagLocations_unfold. simpl Kind_of. simpl Content.
  rewrite findTagLocations_unfold in Hl. simpl in Hl.
  destruct kind; try by apply elem_of_nil in Hl.
  - by apply (updates_children (λ _, path)) with (l := l).
  - by apply (updates_children (λ i, path ++ ["[" +:+ fmt.d i +:+ "]"])) with (l := l).
  - apply each_pair_elem in Hl as (j0 & k0 & v0 & Hk0 & Hv0 & Hl). simpl in Hl.
    apply field_locations_elem in Hl as [Hk0ne [[Htag ->]|Hl]].
    + (* the updated node is the value of this field *)
      simpl in Hnode, Hkey. inversion Hnode as [Happ].
      apply app_inv_head in Happ. inversion Happ; subst k ref.
      rewrite path_last in Hkey.
      pose proof (isTagField_scalar _ _ Htag) as Hscalar.
      apply (each_pair_rel
               (λ x y, y = map (retarget (pre ++ [S (2 * j0)]) v) x)).
      * done.
      * intros x y x' y' -> ->. by rewrite map_app.
      * by rewrite length_alter.
      * intros j kN vN kN' vN' HkN HvN HkN' HvN'. simpl.
        rewrite list_lookup_alter_ne in HkN' by lia.
        assert (kN' = kN) as -> by congruence.
        destruct (decide (j = j0)) as [->|Hj].
        -- rewrite list_lookup_alter_eq, HvN in HvN'. simpl in HvN'.
           inversion HvN'; subst vN'.
           assert (kN = k0) as -> by congruence.
           assert (vN = v0) as -> by congruence.
           destruct (set_Value_nil v0 v) as (Hkind & Hvalue & Hline & Hcolumn & _).
           unfold field_locations. apply String.eqb_neq in Hk0ne.
           rewrite Hk0ne, Htag. simpl.
           rewrite isTagField_key_word by (by rewrite ?Hkind).
           rewrite !findTagLocations_scalar by (by rewrite ?Hkind).
           simpl. unfold retarget, field_location. simpl.
           rewrite decide_True by done. by rewrite Hvalue, Hline, Hcolumn.
        -- rewrite list_lookup_alter_ne in HvN' by lia.
           assert (vN' = vN) as -> by congruence.
           rewrite retarget_other; [done |].
           intros l' [_ [[_ ->]|Hl']]%field_locations_elem.
           ++ simpl. intros [= Happ']. apply app_inv_head in Happ'.
              inversion Happ'. lia.
           ++ eapply locations_below_other; [|done]. lia.
    + (* the updated node is below the value of this field *)
      assert (k = S (2 * j0)) as ->.
      { destruct (location_sound _ _ _ _ Hl) as (r & _ & _ & Hr & _).
        rewrite Hnode, <- app_assoc in Hr. inversion Hr as [Happ].
        apply app_inv_head in Happ. by inversion Happ. }
      apply (each_pair_rel
               (λ x y, y = map (retarget (pre ++ S (2 * j0) :: ref) v) x)).
      * done.
      * intros x y x' y' -> ->. by rewrite map_app.
      * by rewrite length_alter.
      * intros j kN vN kN' vN' HkN HvN HkN' HvN'. simpl.
        rewrite list_lookup_alter_ne in HkN' by lia.
        assert (kN' = kN) as -> by congruence.
        destruct (decide (j = j0)) as [->|Hj].
        -- rewrite list_lookup_alter_eq, HvN in HvN'. simpl in HvN'.
           inversion HvN'; subst vN'.
           assert (kN = k0) as -> by congruence.
           assert (vN = v0) as -> by congruence.
           pose proof (locations_not_scalar _ _ _ _ Hl) as Hkind.
           unfold field_locations. apply String.eqb_neq in Hk0ne. rewrite Hk0ne.
           simpl.
           assert (∀ n, Kind_of n = Kind_of v0 → isTagField (Value k0) n = false)
             as Hnot.
           { intros n Hn. destruct (isTagField (Value k0) n) eqn:Hf; [|done].
             apply isTagField_scalar in Hf. congruence. }
           rewrite !Hnot by (by rewrite ?set_Value_Kind). simpl.
           rewrite (IH v0 _ (pre ++ [S (2 * j0)]) v l); [| done | | done].
           ++ by rewrite <- app_assoc.
           ++ by rewrite Hnode, <- app_assoc.
        -- rewrite list_lookup_alter_ne in HvN' by lia.
           assert (vN' = vN) as -> by congruence.
           rewrite retarget_other; [done |].
           intros l' [_ [[_ ->]|Hl']]%field_locations_elem.
           ++ simpl. intros [= Happ']. apply app_inv_head in Happ'.
              inversion Happ'. lia.
           ++ eapply locations_below_other; [|done]. lia.
Qed.

(** Trees of the same shape have the same locations, up to lines and
    columns. *)
Lemma same_shape_inv (a b : Node) :
  same_shape a b = true →
  Kind_of a = Kind_of b ∧ Value a = Value b
  ∧ Forall2 (λ x y, same_shape x y = true) (Content a) (Content b).
Proof.
  destruct a as [ka sa ta va la ca contenta], b as [kb sb tb vb lb cb contentb].
  simpl. rewrite !andb_true_iff. intros [[Hkind Hvalue] Hall].
  apply Kind_eqb_eq in Hkind. apply String.eqb_eq in Hvalue.
  split_and!; [done | done |].
  revert contentb Hall.
  induction contenta as [|x contenta IH]; intros [|y contentb] Hall; try done.
  apply andb_true_iff in Hall as [Hxy Hall]. constructor; [done | by apply IH].
Qed.

Lemma isTagField_shape (key : string) (n n' : Node) :
  Kind_of n = Kind_of n' → Value n = Value n' →
  isTagField key n = isTagField key n'.
Proof. unfold isTagField. by intros -> ->. Qed.

Lemma same_shape_locations (a b : Node) (path : list string) (pre : NodeRef) :
  same_shape a b = true →
  map loc_key (findTagLocations a path pre)
  = map loc_key (findTagLocations b path pre).
Proof.
  revert b path pre.
  induction a as [kind style tag value line column content IH] using Node_ind'.
  intros b path pre (Hkind & _ & Hcontent)%same_shape_inv.
  rewrite !findTagLocations_unfold, <- Hkind. simpl in *.
  rewrite Forall_lookup in IH.
  pose proof (Forall2_length _ _ _ Hcontent) as Hlen.
  destruct kind; try done.
  - apply (each_child_rel (λ x y, map loc_key x = map loc_key y));
      [done | intros x y x' y' Hx Hy; by rewrite !map_app, Hx, Hy | done |].
    intros j c c' Hc Hc'. apply (IH j c Hc).
    by apply (Forall2_lookup_lr _ _ _ _ _ _ Hcontent Hc Hc').
  - apply (each_child_rel (λ x y, map loc_key x = map loc_key y));
      [done | intros x y x' y' Hx Hy; by rewrite !map_app, Hx, Hy | done |].
    intros j c c' Hc Hc'. apply (IH j c Hc).
    by apply (Forall2_lookup_lr _ _ _ _ _ _ Hcontent Hc Hc').
  - apply (each_pair_rel (λ x y, map loc_key x = map loc_key y));
      [done | intros x y x' y' Hx Hy; by rewrite !map_app, Hx, Hy | done |].
    intros j kN vN kN' vN' HkN HvN HkN' HvN'.
    pose proof (Forall2_lookup_lr _ _ _ _ _ _ Hcontent HkN HkN') as Hkey.
    pose proof (Forall2_lookup_lr _ _ _ _ _ _ Hcontent HvN HvN') as Hval.
    apply same_shape_inv in Hkey as (_ & Hkey & _).
    pose proof (IH _ vN HvN vN' (path ++ [Value kN]) (pre ++ [S (0 + 2 * j)]) Hval)
      as Hinside.
    apply same_shape_inv in Hval as (Hvkind & Hvvalue & _).
    unfold field_locations. rewrite <- Hkey.
    rewrite (isTagField_shape _ vN vN' Hvkind Hvvalue).
    destruct (negb _); [|done]. rewrite !map_app, Hinside. f_equal.
    destruct (isTagField _ _); [|done].
    unfold field_location, loc_key. simpl. by rewrite Hkey, Hvvalue.
Qed.

Lemma findTagByPath_in_elem (locations : list TagLocation) (path : list string)
    (l : TagLocation) :
  findTagByPath_in locations path = Some l → l ∈ locations ∧ Path l = path.
Proof.
  intros (i & Hi & Hpath & _)%findTagByPath_in_Some. split; [|done].
  by eapply list_elem_of_lookup_2.
Qed.

Lemma findTagByPath_in_retarget (ref : NodeRef) (v : string)
    (locations : list TagLocation) (path : list string) :
  findTagByPath_in (map (retarget ref v) locations) path
  = retarget ref v <$> findTagByPath_in locations path.
Proof.
  induction locations as [|l locations IH]; [done |]. simpl.
  assert (Path (retarget ref v l) = Path l) as ->.
  { unfold retarget. by destruct (decide _). }
  by destruct (pathsEqual (Path l) path).
Qed.

Lemma findTagByPath_in_key (locations locations' : list TagLocation)
    (path : list string) :
  map loc_key locations = map loc_key locations' →
  loc_key <$> findTagByPath_in locations path
  = loc_key <$> findTagByPath_in locations' path.
Proof.
  revert locations'.
  induction locations as [|l locations IH]; intros [|l' locations'] Hkeys;
    try done.
  simpl in *. inversion Hkeys as [[Hpath Hvalue Hnode Hrest]].
  rewrite Hpath. destruct (pathsEqual (Path l') path).
  - simpl. unfold loc_key. by rewrite Hpath, Hvalue, Hnode.
  - by apply IH.
Qed.

(** The words at the end of the conventional paths are words of the
    heuristic. *)
Lemma commonTagPaths_words (tagPath : list string) :
  tagPath ∈ commonTagPaths → key_has_tag_word (List.last tagPath "") = true.
Proof.
  unfold commonTagPaths. rewrite !elem_of_cons, elem_of_nil.
  intros [->|[->|[->|[->|[->|[->|[]]]]]]]; by vm_compute.
Qed.

Lemma set_Value_same (ref : NodeRef) (node n : Node) (v : string) :
  node_at node ref = Some n → Value n = v → set_Value node ref v = node.
Proof.
  revert node. induction ref as [|i ref IH]; intros node.
  - intros [= <-] <-. by destruct node.
  - destruct node as [kind style tag value line column content].
    rewrite set_Value_cons. simpl.
    destruct (content !! i) as [child|] eqn:Hchild; [|done].
    intros Hat Hv. f_equal. apply list_eq. intros j.
    destruct (decide (i = j)) as [<-|Hne].
    + rewrite list_lookup_alter_eq, Hchild. simpl. by rewrite (IH child).
    + by rewrite list_lookup_alter_ne.
Qed.

Lemma scan_preferred_paths (name : string) (locations locations' : list TagLocation) :
  map Path locations = map Path locations' →
  scan_preferred name locations = scan_preferred name locations'.
Proof.
  revert locations'.
  induction locations as [|l locations IH]; intros [|l' locations'] Hpaths;
    try done.
  simpl in *. inversion Hpaths as [[Hpath Hrest]]. rewrite Hpath.
  destruct (_ && _); [done | by apply IH].
Qed.

Lemma autoDetectTagPath_paths (u : Updater) (pr pr' : ParseResult) :
  map Path (TagLocations pr) = map Path (TagLocations pr') →
  autoDetectTagPath u pr = autoDetectTagPath u pr'.
Proof.
  intros Hpaths. unfold autoDetectTagPath.
  destruct (TagLocations pr) as [|first rest] eqn:Hlocs,
           (TagLocations pr') as [|first' rest'] eqn:Hlocs'; try done.
  rewrite !(scan_preferred_paths _ _ _ Hpaths).
  simpl in Hpaths. inversion Hpaths as [[Hfirst Hrest]]. by rewrite Hfirst.
Qed.

(** ** Files *)

Lemma reads_only_refl (w : os.World) : reads_only w w.
Proof. split_and!; [done | done |]. exists []. by rewrite app_nil_r. Qed.

Lemma reads_only_trans (w1 w2 w3 : os.World) :
  reads_only w1 w2 → reads_only w2 w3 → reads_only w1 w3.
Proof.
  intros (Hf1 & Ho1 & calls1 & Ht1 & Hr1) (Hf2 & Ho2 & calls2 & Ht2 & Hr2).
  split_and!; [congruence | congruence |].
  exists (calls1 ++ calls2). rewrite Ht2, Ht1, app_assoc. split; [done |].
  by apply Forall_app.
Qed.

Lemma called_read (c : os.Call) (w : os.World) :
  is_read c → reads_only w (os.called c w (os.files w)).
Proof.
  intros Hc. split_and!; [done | done |]. exists [c]. split; [done |].
  by constructor.
Qed.

Lemma fileExists_reads (u : Updater) (filePath : string) (w w' : os.World)
    (found : bool) :
  fileExists u filePath w = (found, w') → reads_only w w'.
Proof.
  unfold fileExists, os.Stat.
  destruct (validateAndCleanFilePath filePath) as [clean|e]; simpl.
  - intros [= _ <-]. by apply called_read.
  - intros [= _ <-]. apply reads_only_refl.
Qed.

Lemma fileExists_missing (u : Updater) (filePath : string) (w : os.World) :
  (∀ c, validateAndCleanFilePath filePath = Ok c → os.files w !! c = None) →
  (fileExists u filePath w).1 = false.
Proof.
  intros Hmissing. unfold fileExists, os.Stat.
  destruct (validateAndCleanFilePath filePath) as [clean|e]; [|done].
  simpl. rewrite (Hmissing clean eq_refl). by destruct (os.fault w _ _).
Qed.

(** What [readFile] returns is the content of the file at the cleaned
    path, and it only reads. *)
Lemma readFile_inv (u : Updater) (filePath : string) (w w' : os.World)
    (r : Result string) :
  readFile u filePath w = (r, w') →
  reads_only w w' ∧
  ∀ content, r = Ok content →
    ∃ clean, validateAndCleanFilePath filePath = Ok clean
             ∧ os.files w !! clean = Some content.
Proof.
  unfold readFile, bind, lift.
  destruct (validateAndCleanFilePath filePath) as [clean|e]; simpl.
  - destruct (fileExists u clean w) as [found w1] eqn:Hexists.
    pose proof (fileExists_reads _ _ _ _ _ Hexists) as Hr1.
    destruct found; simpl.
    + unfold os.ReadFile.
      assert (reads_only w (os.called (os.CallReadFile clean) w1 (os.files w1)))
        as Hr2 by (eapply reads_only_trans; [done |]; by apply called_read).
      destruct Hr1 as (Hfiles & _ & _).
      destruct (os.fault w1 _ _); [intros [= <- <-]; by split |].
      destruct (os.files w1 !! clean) as [data|] eqn:Hdata;
        intros [= <- <-]; (split; [done |]); [|done].
      intros content [= <-]. exists clean. by rewrite <- Hfiles.
    + intros [= <- <-]. split; [done | done].
  - intros [= <- <-]. split; [apply reads_only_refl | done].
Qed.

(** The world after [writeFileAtomic] when the temporary file is written:
    the three cases of the rename and of the removal. *)
Lemma writeFileAtomic_written (u : Updater) (filePath content : string)
    (w : os.World) :
  let tempPath := tempPath_of filePath in
  let write := os.CallWriteFile tempPath content in
  let rename := os.CallRename tempPath filePath in
  let remove := os.CallRemove tempPath in
  os.fault w (os.trace w) write = None →
  writeFileAtomic u filePath content w =
    match os.fault w (os.trace w ++ [write]) rename with
    | None =>
        (Ok (),
         {| os.files := <[filePath := content]>
                          (delete tempPath (<[tempPath := content]> (os.files w)));
            os.trace := (os.trace w ++ [write]) ++ [rename];
            os.fault := os.fault w |})
    | Some err =>
        (Err (ErrApp (errors.NewFileSystemError
                ("failed to rename temporary file: " +:+ err))),
         {| os.files :=
              match os.fault w ((os.trace w ++ [write]) ++ [rename]) remove with
              | None => delete tempPath (<[tempPath := content]> (os.files w))
              | Some _ => <[tempPath := content]> (os.files w)
              end;
            os.trace := ((os.trace w ++ [write]) ++ [rename]) ++ [remove];
            os.fault := os.fault w |})
    end.
Proof.
  intros tempPath write rename remove Hwrite.
  unfold writeFileAtomic. fold (tempPath_of filePath). fold tempPath.
  unfold os.WriteFile. fold write. rewrite Hwrite.
  unfold os.Rename, os.called; simpl. fold rename.
  destruct (os.fault w (os.trace w ++ [write]) rename) as [err|] eqn:Hrename.
  - unfold os.Remove, os.called; simpl. fold remove.
    destruct (os.fault w _ remove) as [err'|]; simpl; [done |].
    by rewrite lookup_insert_eq.
  - by rewrite lookup_insert_eq.
Qed.

Lemma NewFileSystemError_kind (message : string) :
  is_FileSystemError (ErrApp (errors.NewFileSystemError message)).
Proof. by eexists. Qed.

(** C7, as the code has it.  [writeFileAtomic] writes the content to the
    temporary file [Join(Dir(path), Base(path) + ".tmp")] and renames it to
    the path: two calls, after which the content is at the path and the
    temporary file is gone.  When the rename is refused it tries to remove
    the temporary file, ignoring the outcome, and returns a file system
    error: these are its three calls, the file at the path is as before,
    and the temporary file is gone when the removal was not refused; when
    it was, the temporary file stays, with the new content. *)
Theorem writeFileAtomic_rename_refused (u : Updater) (filePath content : string)
    (w : os.World) :
  let tempPath := tempPath_of filePath in
  let write := os.CallWriteFile tempPath content in
  let rename := os.CallRename tempPath filePath in
  let remove := os.CallRemove tempPath in
  os.fault w (os.trace w) write = None →
  (os.fault w (os.trace w ++ [write]) rename = None →
   ∃ w', writeFileAtomic u filePath content w = (Ok (), w')
         ∧ os.trace w' = os.trace w ++ [write; rename]
         ∧ os.files w' !! filePath = Some content
         ∧ os.files w' !! tempPath = None)
  ∧
  (∀ err, os.fault w (os.trace w ++ [write]) rename = Some err →
   ∃ e w', writeFileAtomic u filePath content w = (Err e, w')
           ∧ is_FileSystemError e
           ∧ os.trace w' = os.trace w ++ [write; rename; remove]
           ∧ os.files w' !! filePath = os.files w !! filePath
           ∧ (os.fault w (os.trace w ++ [write; rename]) remove = None →
              os.files w' !! tempPath = None)
           ∧ (os.fault w (os.trace w ++ [write; rename]) remove ≠ None →
              os.files w' !! tempPath = Some content)).
Proof.
  intros tempPath write rename remove Hwrite.
  pose proof (tempPath_of_ne filePath) as Hne. fold tempPath in Hne.
  rewrite (writeFileAtomic_written u filePath content w Hwrite).
  fold tempPath write rename remove. split.
  - intros ->. eexists. split; [reflexivity |]. simpl.
    rewrite <- !app_assoc. simpl. split_and!; [done | |].
    + apply lookup_insert_eq.
    + rewrite lookup_insert_ne by done. apply lookup_delete_eq.
  - intros err ->. eexists _, _. split; [reflexivity |]. simpl.
    rewrite <- !app_assoc. simpl.
    split_and!; [apply NewFileSystemError_kind | done | | |].
    + destruct (os.fault w _ remove).
      * by rewrite lookup_insert_ne.
      * by rewrite lookup_delete_ne, lookup_insert_ne.
    + intros ->. apply lookup_delete_eq.
    + destruct (os.fault w _ remove); [|done]. intros _. apply lookup_insert_eq.
Qed.

(** What [writeFile] does to the files: nothing when the path is rejected;
    otherwise it leaves every file but the one at the cleaned path and its
    temporary file as it is, and on success the content is at the cleaned
    path. *)
Lemma writeFile_inv (u : Updater) (filePath content : string) (w w' : os.World)
    (r : Result ()) :
  writeFile u filePath content w = (r, w') →
  match validateAndCleanFilePath filePath with
  | Err e => r = Err e ∧ w' = w
  | Ok clean =>
      (∀ q, q ≠ clean → q ≠ tempPath_of clean →
            os.files w' !! q = os.files w !! q)
      ∧ (r = Ok () → os.files w' !! clean = Some content)
  end.
Proof.
  unfold writeFile, bind, lift.
  destruct (validateAndCleanFilePath filePath) as [clean|e]; simpl;
    [| by intros [= <- <-]].
  destruct (atomicWrite u).
  - destruct (os.fault w (os.trace w)
                (os.CallWriteFile (tempPath_of clean) content)) as [err|] eqn:Hwrite.
    + unfold writeFileAtomic. fold (tempPath_of clean).
      unfold os.WriteFile. rewrite Hwrite. by intros [= <- <-].
    + rewrite (writeFileAtomic_written u clean content w Hwrite).
      destruct (os.fault w _ (os.CallRename _ _)).
      * intros [= <- <-]; simpl. split; [|done]. intros q Hq Htemp.
        destruct (os.fault w _ (os.CallRemove _)); simpl.
        -- by rewrite lookup_insert_ne.
        -- by rewrite lookup_delete_ne, lookup_insert_ne.
      * intros [= <- <-]; simpl. split.
        -- intros q Hq Htemp.
           by rewrite lookup_insert_ne, lookup_delete_ne, lookup_insert_ne.
        -- intros _. by rewrite lookup_insert_eq.
  - unfold os.WriteFile, os.called.
    destruct (os.fault w _ _); intros [= <- <-]; simpl; split; try done.
    + intros q Hq _. by rewrite lookup_insert_ne.
    + intros _. by rewrite lookup_insert_eq.
Qed.

(** C9, as the code has it.  [createBackup] does not look whether a backup
    exists.  When it returns, the backup path is the one made of the file
    name and the time to the second, the content is at that path, cleaned,
    whatever was there before, and every file but this one and its
    temporary file is as before: an earlier backup is untouched when its
    path is another one. *)
Theorem createBackup_overwrites (u : Updater) (timestamp filePath content : string)
    (w w' : os.World) (backupPath : string) :
  createBackup u timestamp filePath content w = (Ok backupPath, w') →
  backupPath
  = (if String.eqb (backupDir u) "" then
       filePath +:+ "." +:+ timestamp +:+ ".backup"
     else
       filepath.Join
         [backupDir u; filepath.Base filePath +:+ "." +:+ timestamp +:+ ".backup"])
  ∧ ∃ clean, validateAndCleanFilePath backupPath = Ok clean
             ∧ os.files w' !! clean = Some content
             ∧ ∀ q, q ≠ clean → q ≠ tempPath_of clean →
                    os.files w' !! q = os.files w !! q.
Proof.
  unfold createBackup, bind, wrapping, ret.
  destruct (String.eqb (backupDir u) "") eqn:Hdir; simpl.
  - destruct (writeFile u _ content w) as [r w1] eqn:Hwrite.
    destruct r as [[]|e]; intros [= <- <-]. split; [done |].
    apply writeFile_inv in Hwrite.
    destruct (validateAndCleanFilePath _) as [clean|e];
      [| by destruct Hwrite].
    destruct Hwrite as [Hframe Hfile]. exists clean. by auto.
  - unfold os.MkdirAll.
    destruct (os.fault w (os.trace w) _); [by intros [= ] |].
    destruct (writeFile u _ content _) as [r w1] eqn:Hwrite.
    destruct r as [[]|e]; intros [= <- <-]. split; [done |].
    apply writeFile_inv in Hwrite.
    destruct (validateAndCleanFilePath _) as [clean|e];
      [| by destruct Hwrite].
    destruct Hwrite as [Hframe Hfile]. exists clean. by auto.
Qed.

(** Against C9 as the specification states it: two backups of one file taken
    in the same second have the same path, and the second replaces the
    content of the first. *)
Lemma createBackup_twice_in_a_second :
  let w0 := world_with [("app.yaml", "tag: v1")] in
  let backup := "app.yaml.20240101_120000.backup" in
  ∃ w1 w2,
    createBackup NewUpdater "20240101_120000" "app.yaml" "tag: v1" w0 = (Ok backup, w1)
    ∧ os.files w1 !! backup = Some "tag: v1"
    ∧ createBackup NewUpdater "20240101_120000" "app.yaml" "tag: v2" w1 = (Ok backup, w2)
    ∧ os.files w2 !! backup = Some "tag: v2".
Proof.
  eexists _, _. split_and!; [vm_compute; reflexivity | by vm_compute
                            | vm_compute; reflexivity | by vm_compute].
Qed.

Lemma createBackup_overwrites_witness :
  ∃ w1, createBackup NewUpdater "20240101_120001" "app.yaml" "tag: v2"
          (world_with [("app.yaml", "tag: v2");
                       ("app.yaml.20240101_120000.backup", "tag: v1")])
        = (Ok "app.yaml.20240101_120001.backup", w1)
        ∧ os.files w1 !! "app.yaml.20240101_120000.backup" = Some "tag: v1"
        ∧ os.files w1 !! "app.yaml.20240101_120001.backup" = Some "tag: v2".
Proof.
  eexists. split; [vm_compute; reflexivity |].
  match goal with
  | |- os.files ?w1 !! _ = _ ∧ _ =>
      destruct (createBackup_overwrites NewUpdater "20240101_120001" "app.yaml"
                  "tag: v2"
                  (world_with [("app.yaml", "tag: v2");
                               ("app.yaml.20240101_120000.backup", "tag: v1")])
                  w1 "app.yaml.20240101_120001.backup")
        as (_ & clean & Hclean & Hfile & Hframe)
  end.
  - vm_compute. reflexivity.
  - vm_compute in Hclean. inversion Hclean; subst clean. split; [|done].
    rewrite Hframe; [by vm_compute | done | by vm_compute].
Defined.

(** Against C7 as the specification states it: in a directory that refuses both
    the rename and the removal, the call fails and the temporary file is
    still there. *)
Lemma writeFileAtomic_temporary_file_remains :
  let w := read_only_directory true
             [("app.yaml", "tag: v1"); ("app.yaml.tmp", "stale")] in
  ∃ e w', writeFileAtomic NewUpdater "app.yaml" "tag: v2" w = (Err e, w')
          ∧ is_FileSystemError e
          ∧ os.files w' !! "app.yaml" = Some "tag: v1"
          ∧ os.files w' !! "app.yaml.tmp" = Some "tag: v2".
Proof.
  eexists _, _. split; [vm_compute; reflexivity |].
  split; [by eexists |]. split; by vm_compute.
Qed.

Lemma writeFileAtomic_rename_refused_witness :
  (∃ w', writeFileAtomic NewUpdater "app.yaml" "tag: v2"
           (world_with [("app.yaml", "tag: v1")]) = (Ok (), w')
         ∧ os.files w' !! "app.yaml" = Some "tag: v2"
         ∧ os.files w' !! "app.yaml.tmp" = None)
  ∧ (∃ e w', writeFileAtomic NewUpdater "app.yaml" "tag: v2"
               (read_only_directory false [("app.yaml", "tag: v1")]) = (Err e, w')
             ∧ is_FileSystemError e
             ∧ os.files w' !! "app.yaml" = Some "tag: v1"
             ∧ os.files w' !! "app.yaml.tmp" = None).
Proof.
  split.
  - destruct (proj1 (writeFileAtomic_rename_refused NewUpdater "app.yaml" "tag: v2"
                       (world_with [("app.yaml", "tag: v1")]) eq_refl) eq_refl)
      as (w' & Hrun & _ & Hfile & Hgone).
    by exists w'.
  - destruct (proj2 (writeFileAtomic_rename_refused NewUpdater "app.yaml" "tag: v2"
                       (read_only_directory false [("app.yaml", "tag: v1")]) eq_refl)
                    "rename: permission denied" eq_refl)
      as (e & w' & Hrun & Hkind & Htrace & Hfile & Hgone & Hstays).
    exists e, w'. split_and!; [done | done | |].
    + rewrite Hfile. by vm_compute.
    + apply Hgone. reflexivity.
Defined.

Section UpdaterProperties.

Context `{Codec}.

#[local] Arguments UpdateTag : simpl never.
#[local] Arguments autoDetectTagPath : simpl never.

(** C8.  For non-empty paths, [RollbackFromBackup] fails with a
    file-not-found error when no file is at the backup path; and when the
    content of the backup does not pass [ValidateYAML] it fails after calls
    that only read: no file, and so not the live file, has changed. *)
Theorem RollbackFromBackup_failures (u : Updater) (filePath backupPath : string)
    (w : os.World) :
  filePath ≠ "" → backupPath ≠ "" →
  ((∀ c, validateAndCleanFilePath backupPath = Ok c → os.files w !! c = None) →
   ∃ e w', RollbackFromBackup u filePath backupPath w = (Err e, w')
           ∧ is_FileNotFoundError e ∧ reads_only w w')
  ∧
  (∀ c content verr,
     validateAndCleanFilePath backupPath = Ok c →
     os.files w !! c = Some content →
     ValidateYAML (parser u) content = Some verr →
     ∃ e w', RollbackFromBackup u filePath backupPath w = (Err e, w')
             ∧ reads_only w w'
             ∧ os.files w' !! filePath = os.files w !! filePath).
Proof.
  intros Hfile Hbackup. apply String.eqb_neq in Hfile, Hbackup.
  unfold RollbackFromBackup. rewrite Hfile, Hbackup. split.
  - intros Hmissing.
    pose proof (fileExists_missing u backupPath w Hmissing) as Hnot.
    destruct (fileExists u backupPath w) as [found w1] eqn:Hexists.
    simpl in Hnot. subst found. simpl.
    eexists _, _. split; [done |]. split; [by eexists |].
    by eapply fileExists_reads.
  - intros c content verr Hclean Hcontent Hinvalid.
    destruct (fileExists u backupPath w) as [found w1] eqn:Hexists.
    pose proof (fileExists_reads _ _ _ _ _ Hexists) as Hr1.
    destruct found; simpl.
    + unfold bind, wrapping.
      destruct (readFile u backupPath w1) as [r w2] eqn:Hread.
      apply readFile_inv in Hread as [Hr2 Hok].
      assert (reads_only w w2) as Hr by (by eapply reads_only_trans).
      destruct r as [backupContent|e].
      * destruct (Hok backupContent eq_refl) as (c' & Hc' & Hlookup).
        assert (backupContent = content) as ->.
        { destruct Hr1 as (Hfiles & _). rewrite Hfiles in Hlookup. congruence. }
        rewrite Hinvalid. unfold fail.
        eexists _, _. split; [done |]. split; [done |].
        destruct Hr as (-> & _). done.
      * eexists _, _. split; [done |]. split; [done |].
        destruct Hr as (-> & _). done.
    + eexists _, _. split; [done |]. split; [done |].
      destruct Hr1 as (-> & _). done.
Qed.

(** The steps of a call of [UpdateTagInFile] that returns a result. *)
Lemma UpdateTagInFile_Ok_inv (u : Updater) (timestamp : string)
    (request : UpdateRequest) (w w' : os.World) (result : UpdateResult) :
  UpdateTagInFile u timestamp (Some request) w = (Ok result, w') →
  ∃ content w1 pr tagPath,
    readFile u (FilePath request) w = (Ok content, w1)
    ∧ ParseContent (parser u) content = Ok pr
    ∧ (if (length (Req_TagPath request) =? 0)%nat then autoDetectTagPath u pr
       else Ok (Req_TagPath request)) = Ok tagPath
    ∧ UpdateTag (parser u) (Some pr)
        (Some {| TagPath := tagPath; NewValue := NewTagValue request;
                 CreateIfMissing := false; BackupContent := false |})
      = Ok (UpdatedContent result)
    ∧ Res_OriginalContent result = content
    ∧ ChangesDetected result = negb (String.eqb content (UpdatedContent result))
    ∧ (DryRun request = false →
       ∃ w2, writeFile u (FilePath request) (UpdatedContent result) w2 = (Ok (), w')).
Proof.
  unfold UpdateTagInFile.
  destruct (String.eqb (FilePath request) ""); [by intros [= ] |].
  destruct (String.eqb (NewTagValue request) ""); [by intros [= ] |].
  unfold bind at 1. unfold wrapping at 1.
  destruct (readFile u (FilePath request) w) as [[content|e] w1] eqn:Hread;
    [| by intros [= ]].
  unfold bind at 1. unfold wrapping at 1. unfold lift at 1.
  destruct (ParseContent (parser u) content) as [pr|e] eqn:Hparse;
    [| by intros [= ]].
  unfold bind at 1.
  intros Hrun. exists content, w1, pr.
  destruct (length (Req_TagPath request) =? 0)%nat.
  - unfold wrapping at 1, lift at 1 in Hrun.
    destruct (autoDetectTagPath u pr) as [tagPath|e]; [| by inversion Hrun].
    exists tagPath. revert Hrun.
    unfold bind at 1. unfold wrapping at 1. unfold lift at 1.
    destruct (UpdateTag _ _ _) as [updatedContent|e]; [| by intros [= ]].
    destruct (DryRun request).
    + intros [= <- <-]. by split_and!.
    + unfold bind at 1.
      set (backup := if CreateBackup request && keepBackups u then _ else _).
      destruct (backup w1) as [[backupPath|e] w2]; [| by intros [= ]].
      unfold bind at 1.
      destruct (wrapping _ (writeFile u _ _) w2) as [[[]|e] w3] eqn:Hwrite;
        [| by intros [= ]].
      intros [= <- <-]. split_and!; try done. intros _. exists w2.
      unfold wrapping in Hwrite.
      destruct (writeFile u _ _ w2) as [[[]|e] w4]; by inversion Hwrite.
  - unfold ret at 1 in Hrun.
    exists (Req_TagPath request). revert Hrun.
    unfold bind at 1. unfold wrapping at 1. unfold lift at 1.
    destruct (UpdateTag _ _ _) as [updatedContent|e]; [| by intros [= ]].
    destruct (DryRun request).
    + intros [= <- <-]. by split_and!.
    + unfold bind at 1.
      set (backup := if CreateBackup request && keepBackups u then _ else _).
      destruct (backup w1) as [[backupPath|e] w2]; [| by intros [= ]].
      unfold bind at 1.
      destruct (wrapping _ (writeFile u _ _) w2) as [[[]|e] w3] eqn:Hwrite;
        [| by intros [= ]].
      intros [= <- <-]. split_and!; try done. intros _. exists w2.
      unfold wrapping in Hwrite.
      destruct (writeFile u _ _ w2) as [[[]|e] w4]; by inversion Hwrite.
Qed.

(** C10.  The path that [autoDetectTagPath] returns is the path of the
    first detected location whose last segment, lower-cased, is [tag]; when
    there is none, of the first whose last segment is [version]; then
    [image]; then of the first location; and without locations the call
    fails with a validation error.  With an empty [TagPath],
    [UpdateTagInFile] reads and parses the file and then fails with that
    error, or updates at that path: its updated content is the one of
    [UpdateTag] at the detected path. *)
Theorem UpdateTagInFile_auto_detects (u : Updater) (timestamp : string)
    (request : UpdateRequest) (w w1 : os.World) (content : string)
    (pr : ParseResult) :
  FilePath request ≠ "" → NewTagValue request ≠ "" → Req_TagPath request = [] →
  readFile u (FilePath request) w = (Ok content, w1) →
  ParseContent (parser u) content = Ok pr →
  let locations := TagLocations pr in
  let none name := ∀ l, l ∈ locations → ¬ named name l in
  let update path :=
    UpdateTag (parser u) (Some pr)
      (Some {| TagPath := path; NewValue := NewTagValue request;
               CreateIfMissing := false; BackupContent := false |}) in
  ((locations = [] → ∃ e, autoDetectTagPath u pr = Err e ∧ is_ValidationError e)
   ∧ (∀ l, first_with (named "tag") locations l →
           autoDetectTagPath u pr = Ok (Path l))
   ∧ (∀ l, none "tag" → first_with (named "version") locations l →
           autoDetectTagPath u pr = Ok (Path l))
   ∧ (∀ l, none "tag" → none "version" → first_with (named "image") locations l →
           autoDetectTagPath u pr = Ok (Path l))
   ∧ (∀ first rest, locations = first :: rest →
           none "tag" → none "version" → none "image" →
           autoDetectTagPath u pr = Ok (Path first)))
  ∧ (locations = [] →
     ∃ e, UpdateTagInFile u timestamp (Some request) w = (Err e, w1)
          ∧ is_ValidationError e)
  ∧ (∀ path, autoDetectTagPath u pr = Ok path →
       (∀ e, update path = Err e →
             UpdateTagInFile u timestamp (Some request) w
             = (Err (ErrWrap "failed to update tag: " e), w1))
       ∧ (∀ result w2,
             UpdateTagInFile u timestamp (Some request) w = (Ok result, w2) →
             update path = Ok (UpdatedContent result))).
Proof.
  intros Hfile Hvalue Hpath Hread Hparse locations none update.
  split; [apply autoDetectTagPath_spec |].
  split.
  - intros Hnone. unfold UpdateTagInFile.
    apply String.eqb_neq in Hfile, Hvalue. rewrite Hfile, Hvalue.
    unfold bind at 1. unfold wrapping at 1. rewrite Hread.
    unfold bind at 1. unfold wrapping at 1. unfold lift at 1. rewrite Hparse.
    rewrite Hpath. simpl.
    unfold bind at 1. unfold wrapping at 1. unfold lift at 1.
    unfold autoDetectTagPath. fold locations. rewrite Hnone.
    eexists. split; [done |]. by eexists.
  - intros path Hdetect. split.
    + intros e Hupdate. unfold UpdateTagInFile.
      apply String.eqb_neq in Hfile, Hvalue. rewrite Hfile, Hvalue.
      unfold bind at 1. unfold wrapping at 1. rewrite Hread.
      unfold bind at 1. unfold wrapping at 1. unfold lift at 1. rewrite Hparse.
      rewrite Hpath. simpl.
      unfold bind at 1. unfold wrapping at 1. unfold lift at 1. rewrite Hdetect.
      unfold bind at 1. unfold wrapping at 1. unfold lift at 1.
      unfold update in Hupdate. by rewrite Hupdate.
    + intros result w2 Hrun.
      apply UpdateTagInFile_Ok_inv in Hrun
        as (content' & w1' & pr' & tagPath & Hread' & Hparse' & Htag & Hupd & _).
      rewrite Hread in Hread'. inversion Hread'; subst content' w1'.
      rewrite Hparse in Hparse'. inversion Hparse'; subst pr'.
      rewrite Hpath in Htag. simpl in Htag. rewrite Hdetect in Htag.
      inversion Htag; subst tagPath. done.
Qed.

End UpdaterProperties.

Lemma RollbackFromBackup_failures_witness :
  (∃ e w', RollbackFromBackup NewUpdater "app.yaml" "app.yaml.20240101_120000.backup"
             (world_with [("app.yaml", plain_text)]) = (Err e, w')
           ∧ is_FileNotFoundError e)
  ∧ (∃ e w', RollbackFromBackup NewUpdater "app.yaml" "app.yaml.20240101_120000.backup"
               (world_with [("app.yaml", plain_text);
                            ("app.yaml.20240101_120000.backup", broken_text)])
             = (Err e, w')
             ∧ os.files w' !! "app.yaml" = Some plain_text).
Proof.
  split.
  - destruct (proj1 (RollbackFromBackup_failures NewUpdater "app.yaml"
                       "app.yaml.20240101_120000.backup"
                       (world_with [("app.yaml", plain_text)])
                       ltac:(discriminate) ltac:(discriminate)))
      as (e & w' & Hrun & Hkind & _).
    + intros c Hc. vm_compute in Hc. inversion Hc; subst c. by vm_compute.
    + by exists e, w'.
  - destruct (proj2 (RollbackFromBackup_failures NewUpdater "app.yaml"
                       "app.yaml.20240101_120000.backup"
                       (world_with [("app.yaml", plain_text);
                                    ("app.yaml.20240101_120000.backup", broken_text)])
                       ltac:(discriminate) ltac:(discriminate))
                    "app.yaml.20240101_120000.backup" broken_text
                    (ErrApp (errors.NewInvalidYAMLError
                       ("invalid YAML syntax: "
                        +:+ "yaml: line 1: did not find expected node content"))))
      as (e & w' & Hrun & _ & Hlive).
    + by vm_compute.
    + by vm_compute.
    + by vm_compute.
    + exists e, w'. split; [done |]. rewrite Hlive. by vm_compute.
Defined.

Lemma UpdateTagInFile_auto_detects_witness :
  let w := world_with [("values.yaml", chart_text)] in
  ∃ result w2,
    UpdateTagInFile NewUpdater "20240101_120000"
      (Some (request "values.yaml" "v2.0.0" [] false)) w = (Ok result, w2)
    ∧ UpdateTag NewParser (Some (parsed chart_text))
        (Some (new_options ["image"; "tag"] "v2.0.0"))
      = Ok (UpdatedContent result).
Proof.
  intros w. eexists _, _. split; [vm_compute; reflexivity |].
  eapply (UpdateTagInFile_auto_detects NewUpdater "20240101_120000"
            (request "values.yaml" "v2.0.0" [] false) w _ chart_text
            (parsed chart_text)).
  - discriminate.
  - discriminate.
  - reflexivity.
  - vm_compute. reflexivity.
  - vm_compute. reflexivity.
  - vm_compute. reflexivity.
  - vm_compute. reflexivity.
Defined.

(** Against C2 as the specification states it: on the chart, whose only
    location is [image.tag], an update at the path [tag] fails, but with a
    validation error and not with a not-found error. *)
Lemma UpdateTag_not_found_is_validation :
  ∃ e, UpdateTag NewParser (Some (parsed chart_text))
         (Some (new_options ["tag"] "v2.0.0")) = Err e
       ∧ is_ValidationError e ∧ ¬ is_FileNotFoundError e.
Proof.
  eexists. split; [reflexivity |]. split.
  - apply NewValidationError_kind.
  - intros (a & Ha & Hcode & _). inversion Ha; subst a. done.
Qed.

Lemma UpdateTag_failures_witness :
  (∃ e, UpdateTag NewParser (Some (parsed chart_text))
          (Some (new_options ["image"; "tag"] long_value)) = Err e
        ∧ is_ValidationError e)
  ∧ UpdateTag NewParser (Some (parsed chart_text))
      (Some (new_options ["tag"] "v2.0.0"))
    = Err (ErrApp (errors.NewValidationError "tag not found at path: [tag]")).
Proof.
  split.
  - apply (proj1 (UpdateTag_failures NewParser (Some (parsed chart_text))
                    (new_options ["image"; "tag"] long_value))).
    right. apply Nat.ltb_lt. vm_compute. reflexivity.
  - apply (proj2 (UpdateTag_failures NewParser (Some (parsed chart_text))
                    (new_options ["tag"] "v2.0.0")) (parsed chart_text)).
    + reflexivity.
    + discriminate.
    + apply Nat.leb_le. vm_compute. reflexivity.
    + reflexivity.
    + intros l Hl. vm_compute in Hl.
      apply list_elem_of_singleton in Hl. subst l. discriminate.
Defined.

Lemma UpdateTagSimple_probes_witness :
  UpdateTagSimple NewParser chart_text "v2.0.0"
  = UpdateTag NewParser (Some (parsed chart_text))
      (Some (new_options ["image"; "tag"] "v2.0.0"))
  ∧ ∃ e, UpdateTagSimple NewParser plain_text "v2.0.0" = Err e
         ∧ is_ValidationError e.
Proof.
  split.
  - assert (ParseContent NewParser chart_text = Ok (parsed chart_text)) as Hparse
      by (vm_compute; reflexivity).
    apply (proj1 (proj2 (UpdateTagSimple_probes NewParser chart_text "v2.0.0"
                           (parsed chart_text) Hparse)) 1%nat).
    + reflexivity.
    + exists {| Path := ["image"; "tag"]; Loc_Line := 2; Loc_Column := 10;
                Loc_Value := "v1.0.0"; Loc_Node := Some [0; 1; 1]%nat |}.
      split; [vm_compute; left | reflexivity].
    + intros j earlier Hj Hearlier l Hl. vm_compute in Hl.
      apply list_elem_of_singleton in Hl. subst l.
      destruct j as [|j]; [|lia]. inversion Hearlier. discriminate.
  - assert (ParseContent NewParser plain_text = Ok (parsed plain_text)) as Hparse
      by (vm_compute; reflexivity).
    apply (proj2 (proj2 (UpdateTagSimple_probes NewParser plain_text "v2.0.0"
                           (parsed plain_text) Hparse))).
    intros tagPath _ l Hl. vm_compute in Hl. by apply elem_of_nil in Hl.
Defined.

(** Against C4 as the specification states it: the field [name: old-tag] is
    classified, by its value, although its key contains none of the words;
    and the field [image:] with a mapping for value is not classified,
    although its key contains [image]. *)
Lemma isTagField_not_as_specified :
  isTagField "name" (scalar "old-tag" 1 7) = true
  ∧ specified_tag_like "name" (scalar "old-tag" 1 7) = false
  ∧ isTagField "image" (mapping 2 5 [scalar "tag" 2 5; scalar "v1.0.0" 2 10]) = false
  ∧ specified_tag_like "image"
      (mapping 2 5 [scalar "tag" 2 5; scalar "v1.0.0" 2 10]) = true
  ∧ map Path (TagLocations (parsed (labels_text "old-tag" "my-tag")))
    = [["name"]; ["label"]].
Proof. by vm_compute. Qed.

(** ** Updating, then reading back *)

Section RoundTrip.

Context `{Codec}.

Lemma ParseContent_Ok_inv (p : Parser) (content : string) (pr : ParseResult) :
  ParseContent p content = Ok pr →
  Unmarshal_Node content = inl (PR_Content pr)
  ∧ TagLocations pr = findTagLocations (PR_Content pr) [] [].
Proof.
  unfold ParseContent.
  destruct (String.eqb content ""); [done |].
  destruct (_ <? _)%nat; [done |].
  destruct (Unmarshal_Node content) as [root|err]; [|done].
  by intros [= <-].
Qed.

Lemma UpdateTag_Ok (p : Parser) (pr : ParseResult) (options : UpdateOptions)
    (text : string) :
  UpdateTag p (Some pr) (Some options) = Ok text ↔
  NewValue options ≠ ""
  ∧ (String.length (NewValue options) ≤ MaxTagValueLength)%nat
  ∧ ∃ l, findTagByPath pr (TagPath options) = Some l
         ∧ Encode (indentation p) (updated_tree pr l (NewValue options)) = EncOk text.
Proof.
  unfold UpdateTag.
  destruct (String.eqb (NewValue options) "") eqn:Hempty.
  { apply String.eqb_eq in Hempty. split; [done | by intros [? _]]. }
  apply String.eqb_neq in Hempty.
  destruct (Nat.ltb_spec MaxTagValueLength (String.length (NewValue options)))
    as [Hlong|Hlen].
  { split; [done | intros (_ & ? & _); lia]. }
  destruct (findTagByPath pr (TagPath options)) as [l|].
  - destruct (Encode _ _) as [text'| |] eqn:Hencode.
    + split.
      * intros [= <-]. split_and!; [done | done |]. by exists l.
      * intros (_ & _ & l' & [= <-] & Henc). congruence.
    + split; [done |]. intros (_ & _ & l' & [= <-] & Henc). congruence.
    + split; [done |]. intros (_ & _ & l' & [= <-] & Henc). congruence.
  - split; [| by intros (_ & _ & l' & ? & _)].
    unfold createAndUpdateTag. by destruct (CreateIfMissing options).
Qed.

Lemma UpdateTagSimple_Ok_inv (p : Parser) (content newTag text : string)
    (pr : ParseResult) :
  ParseContent p content = Ok pr →
  UpdateTagSimple p content newTag = Ok text →
  ∃ tagPath, tagPath ∈ commonTagPaths
             ∧ UpdateTag p (Some pr) (Some (new_options tagPath newTag)) = Ok text.
Proof.
  intros Hparse. unfold UpdateTagSimple. rewrite Hparse.
  generalize commonTagPaths as paths.
  induction paths as [|q paths IH]; [done |].
  destruct (findTagByPath pr q).
  - intros Hupdate. exists q. split; [by left | done].
  - intros (tagPath & Hin & Hupdate)%IH. exists tagPath. split; [by right | done].
Qed.

Lemma UpdateTagSimple_simple_path (p : Parser) (content newTag : string)
    (pr : ParseResult) (tagPath : list string) :
  ParseContent p content = Ok pr →
  simple_path pr = Some tagPath →
  tagPath ∈ commonTagPaths
  ∧ UpdateTagSimple p content newTag
    = UpdateTag p (Some pr) (Some (new_options tagPath newTag)).
Proof.
  intros Hparse. unfold UpdateTagSimple, simple_path, new_options.
  rewrite Hparse.
  remember (UpdateTag p (Some pr)) as update eqn:Hupdate.
  generalize commonTagPaths as paths.
  induction paths as [|q paths IH]; [done |].
  simpl. destruct (findTagByPath pr q) as [l|] eqn:Hq.
  - rewrite bool_decide_eq_true_2 by (by exists l).
    intros [= <-]. split; [by left | done].
  - rewrite bool_decide_eq_false_2 by (by intros [l Hl]).
    intros [Hin Hsame]%IH. split; [by right | done].
Qed.

(** The heart of the round trip.  A document is updated at a field whose
    key holds one of the words, and the text is parsed again into a tree of
    the shape of the tree that was encoded.  Then the second parse detects
    locations at the same paths, in the same order, and the first location
    at the path of the update points to a node with the new value. *)
Lemma update_then_parse (pr pr' : ParseResult) (tagPath : list string)
    (newValue : string) (tree : Node) :
  TagLocations pr = findTagLocations (PR_Content pr) [] [] →
  TagLocations pr' = findTagLocations (PR_Content pr') [] [] →
  key_has_tag_word (List.last tagPath "") = true →
  encoded_tree pr tagPath newValue = Some tree →
  same_shape tree (PR_Content pr') = true →
  map Path (TagLocations pr') = map Path (TagLocations pr)
  ∧ ∃ l' ref n,
      findTagByPath pr' tagPath = Some l'
      ∧ Loc_Node l' = Some ref
      ∧ node_at (PR_Content pr') ref = Some n
      ∧ Value n = newValue.
Proof.
  intros Hlocs Hlocs' Hword Htree Hshape.
  unfold encoded_tree in Htree.
  destruct (findTagByPath pr tagPath) as [l|] eqn:Hfind; [|done].
  inversion Htree; subst tree. clear Htree.
  unfold findTagByPath in *. rewrite Hlocs in Hfind.
  destruct (findTagByPath_in_elem _ _ _ Hfind) as [Hl Hpath].
  destruct (location_sound _ _ _ _ Hl) as (ref & n0 & _ & Hnode & _).
  simpl in Hnode.
  unfold updated_tree in Hshape. rewrite Hnode in Hshape.
  apply (same_shape_locations _ _ [] []) in Hshape.
  rewrite (updates_all ref (PR_Content pr) [] [] newValue l) in Hshape;
    [| done | done | by rewrite Hpath].
  simpl in Hshape. rewrite <- Hlocs' in Hshape.
  split.
  - assert (∀ L, map Path L = map fst (map fst (map loc_key L))) as Hfst.
    { intros L. rewrite !map_map. done. }
    rewrite Hlocs, !Hfst, <- Hshape. rewrite <- !Hfst.
    rewrite map_map. apply map_ext. intros l0. unfold retarget.
    by destruct (decide _).
  - pose proof (findTagByPath_in_key _ _ tagPath Hshape) as Hsame.
    rewrite findTagByPath_in_retarget, Hfind in Hsame. simpl in Hsame.
    destruct (findTagByPath_in (TagLocations pr') tagPath) as [l'|] eqn:Hfind';
      [|done].
    simpl in Hsame. inversion Hsame as [[Hp Hv Hn]].
    unfold retarget in Hp, Hv, Hn. rewrite decide_True in Hp, Hv, Hn by done.
    simpl in Hv, Hn.
    destruct (findTagByPath_in_elem _ _ _ Hfind') as [Hl' _].
    rewrite Hlocs' in Hl'.
    destruct (location_sound _ _ _ _ Hl') as (ref' & n & _ & Hnode' & Hat & Hval).
    simpl in Hnode'. exists l', ref', n. split_and!; [done | done | done |].
    congruence.
Qed.

(** C5, as the code has it.  [UpdateTagSimple] returns a text for a
    document and a new value, and [ParseContent] accepts the text.
    [tagPath] is the path that was updated, the first conventional path
    with a location, and [tree] the tree that was handed to the encoder,
    the tree of the document with the new value at that path.  When the
    tree parsed from the text has the kinds and values of [tree], node by
    node, then [GetTagValue] on the second parse, at [tagPath], returns the
    new value.  The theorem also says that [tree] is the tree whose
    encoding is the text: the condition on the codec is on this one tree. *)
Theorem UpdateTagSimple_round_trip (p : Parser) (content newTag text : string)
    (pr pr' : ParseResult) (tagPath : list string) (tree : Node) :
  ParseContent p content = Ok pr →
  UpdateTagSimple p content newTag = Ok text →
  ParseContent p text = Ok pr' →
  simple_path pr = Some tagPath →
  encoded_tree pr tagPath newTag = Some tree →
  same_shape tree (PR_Content pr') = true →
  tagPath ∈ commonTagPaths
  ∧ UpdateTag p (Some pr) (Some (new_options tagPath newTag)) = Ok text
  ∧ Encode (indentation p) tree = EncOk text
  ∧ GetTagValue p pr' tagPath = Ok newTag.
Proof.
  intros Hparse Hupdate Hparse' Hpath Htree Hshape.
  destruct (UpdateTagSimple_simple_path p content newTag pr tagPath Hparse Hpath)
    as [Hin Hsimple].
  rewrite Hsimple in Hupdate.
  pose proof Hupdate as (Hne & _ & l & Hfind & Hencode)%UpdateTag_Ok.
  simpl in Hne, Hfind, Hencode.
  split_and!; [done | done | |].
  - unfold encoded_tree in Htree. rewrite Hfind in Htree. congruence.
  - apply ParseContent_Ok_inv in Hparse as [_ Hlocs].
    apply ParseContent_Ok_inv in Hparse' as [_ Hlocs'].
    destruct (update_then_parse pr pr' tagPath newTag tree Hlocs Hlocs'
                (commonTagPaths_words _ Hin) Htree Hshape)
      as (_ & l' & ref & n & Hfind' & Hnode & Hat & Hvalue).
    unfold GetTagValue. rewrite Hfind', Hnode. simpl. rewrite Hat, Hvalue.
    apply String.eqb_neq in Hne. by rewrite Hne.
Qed.

(** C6, as the code has it.  An update is applied to a file, not as a dry
    run, at a field whose key holds one of the words [tag], [version],
    [image], [release]; the same update is applied again and returns a
    result.  [tree] is the tree that the first application handed to the
    encoder, and [root] the tree that the decoder reads from the first
    output.  When the codec is stable on the first output ([root] has the
    kinds and values of [tree], node by node, and [root] is written as the
    same text), the second output is the first one, byte for byte, and the
    second application reports no change.  The condition on the codec is
    on these two trees and on no other. *)
Theorem UpdateTagInFile_twice (u : Updater) (timestamp1 timestamp2 : string)
    (request : UpdateRequest) (w w0 w1 w2 : os.World) (r1 r2 : UpdateResult)
    (content : string) (pr : ParseResult) (tagPath : list string)
    (tree root : Node) :
  DryRun request = false →
  readFile u (FilePath request) w = (Ok content, w0) →
  ParseContent (parser u) content = Ok pr →
  (if (length (Req_TagPath request) =? 0)%nat then autoDetectTagPath u pr
   else Ok (Req_TagPath request)) = Ok tagPath →
  key_has_tag_word (List.last tagPath "") = true →
  UpdateTagInFile u timestamp1 (Some request) w = (Ok r1, w1) →
  UpdateTagInFile u timestamp2 (Some request) w1 = (Ok r2, w2) →
  encoded_tree pr tagPath (NewTagValue request) = Some tree →
  Unmarshal_Node (UpdatedContent r1) = inl root →
  same_shape tree root = true →
  Encode (indentation (parser u)) root = EncOk (UpdatedContent r1) →
  UpdatedContent r2 = UpdatedContent r1 ∧ ChangesDetected r2 = false.
Proof.
  intros Hdry Hread Hparse Htarget Hword Hrun1 Hrun2 Htree Hdecoded Hshape Hstable.
  apply UpdateTagInFile_Ok_inv in Hrun1
    as (content1 & w0' & pr1 & tagPath1 & Hread1 & Hparse1 & Htarget1 & Hupdate1
        & _ & _ & Hwrite1).
  rewrite Hread in Hread1. inversion Hread1; subst content1 w0'.
  rewrite Hparse in Hparse1. inversion Hparse1; subst pr1.
  rewrite Htarget in Htarget1. inversion Htarget1; subst tagPath1.
  destruct (Hwrite1 Hdry) as (w' & Hwrite). clear Hwrite1.
  apply writeFile_inv in Hwrite.
  destruct (validateAndCleanFilePath (FilePath request)) as [clean|e] eqn:Hclean;
    [| by destruct Hwrite].
  destruct Hwrite as [_ Hfile]. specialize (Hfile eq_refl).
  set (text := UpdatedContent r1) in *.
  apply UpdateTagInFile_Ok_inv in Hrun2
    as (content2 & w1' & pr2 & tagPath2 & Hread2 & Hparse2 & Htarget2 & Hupdate2
        & _ & Hchanges & _).
  apply readFile_inv in Hread2 as [_ Hcontent2].
  destruct (Hcontent2 content2 eq_refl) as (clean' & Hclean' & Hfile').
  assert (content2 = text) as -> by congruence.
  destruct (ParseContent_Ok_inv _ _ _ Hparse) as [_ Hlocs].
  destruct (ParseContent_Ok_inv _ _ _ Hparse2) as [Hroot Hlocs2].
  assert (root = PR_Content pr2) as -> by congruence.
  pose proof Hupdate1 as (Hvalue & Hlen & _)%UpdateTag_Ok.
  simpl in Hvalue, Hlen.
  destruct (update_then_parse pr pr2 tagPath (NewTagValue request) tree
              Hlocs Hlocs2 Hword Htree Hshape)
    as (Hpaths & l2 & ref & n & Hfind2 & Hnode2 & Hat2 & Hvalue2).
  assert (tagPath2 = tagPath) as ->.
  { destruct (length (Req_TagPath request) =? 0)%nat; [|congruence].
    rewrite (autoDetectTagPath_paths u pr2 pr Hpaths) in Htarget2. congruence. }
  assert (UpdateTag (parser u) (Some pr2)
            (Some {| TagPath := tagPath; NewValue := NewTagValue request;
                     CreateIfMissing := false; BackupContent := false |})
          = Ok text) as Hsecond.
  { apply UpdateTag_Ok. split_and!; [done | done |]. exists l2.
    split; [done |]. simpl. unfold updated_tree. rewrite Hnode2.
    by rewrite (set_Value_same _ _ n). }
  rewrite Hsecond in Hupdate2. inversion Hupdate2 as [Htext].
  split; [done |]. rewrite Hchanges, <- Htext.
  by rewrite String.eqb_refl.
Qed.

End RoundTrip.

(** *** The sample codec *)

Lemma Node_eqb_eq (a b : Node) : Node_eqb a b = true → a = b.
Proof.
  revert b.
  induction a as [ka sa ta va la ca contenta IH] using Node_ind'.
  intros [kb sb tb vb lb cb contentb]. simpl.
  rewrite !andb_true_iff.
  intros [[[[[[Hk Hs] Ht] Hv] Hl] Hc] Hcontent].
  apply Kind_eqb_eq in Hk. apply Nat.eqb_eq in Hs.
  apply String.eqb_eq in Ht, Hv. apply Z.eqb_eq in Hl, Hc. subst.
  f_equal. revert contentb Hcontent.
  induction IH as [|x contenta Hx _ IHcontent]; intros [|y contentb] Hall;
    try done.
  apply andb_true_iff in Hall as [Hxy Hall].
  f_equal; [by apply Hx | by apply IHcontent].
Qed.

Lemma sample_Encode_inv (indent : Z) (node : Node) (text : string) :
  sample_Encode indent node = EncOk text → (node, text) ∈ encode_table.
Proof.
  unfold sample_Encode. destruct (negb _); [done |].
  destruct (List.find _ _) as [[node' text']|] eqn:Hfind; [|done].
  apply find_some in Hfind as [Hin Heq]. simpl in Heq.
  apply Node_eqb_eq in Heq as ->. intros [= <-]. by apply list_elem_of_In.
Qed.

(** The sample codec writes several trees as one text: the mapping of the
    chart on its own is written as the document that holds it. *)
Example sample_Encode_not_injective :
  sample_Encode 2 (chart_mapping "v2.0.0") = sample_Encode 2 (chart "v2.0.0" 3)
  ∧ same_shape (chart_mapping "v2.0.0") (chart "v2.0.0" 3) = false.
Proof. by vm_compute. Qed.

Lemma UpdateTagSimple_round_trip_witness :
  ["image"; "tag"] ∈ commonTagPaths
  ∧ UpdateTag NewParser (Some (parsed chart_text))
      (Some (new_options ["image"; "tag"] "v2.0.0")) = Ok (chart_encoded "v2.0.0")
  ∧ Encode 2 (chart "v2.0.0" 5) = EncOk (chart_encoded "v2.0.0")
  ∧ GetTagValue NewParser (parsed (chart_encoded "v2.0.0")) ["image"; "tag"]
    = Ok "v2.0.0".
Proof.
  apply (UpdateTagSimple_round_trip NewParser chart_text "v2.0.0"
           (chart_encoded "v2.0.0") (parsed chart_text)
           (parsed (chart_encoded "v2.0.0")) ["image"; "tag"] (chart "v2.0.0" 5)).
  - vm_compute. reflexivity.
  - vm_compute. reflexivity.
  - vm_compute. reflexivity.
  - vm_compute. reflexivity.
  - vm_compute. reflexivity.
  - vm_compute. reflexivity.
Defined.

(** Against C5 as the specification states it: the chart is a valid
    document, and the value checks accept the tag that is one line break,
    a string of length 1.  [UpdateTagSimple] returns a text, in which the
    value is a literal block scalar without a line; [ParseContent] accepts
    the text and reads the empty string at [image.tag], and [GetTagValue]
    at the path that was updated returns the empty string, not the line
    break.  The tree read back has not the values of the tree that was
    encoded. *)
Lemma UpdateTagSimple_round_trip_loses_line_break :
  ParseContent NewParser chart_text = Ok (parsed chart_text)
  ∧ line_break ≠ ""
  ∧ (String.length line_break ≤ MaxTagValueLength)%nat
  ∧ simple_path (parsed chart_text) = Some ["image"; "tag"]
  ∧ encoded_tree (parsed chart_text) ["image"; "tag"] line_break
    = Some (chart line_break 5)
  ∧ UpdateTagSimple NewParser chart_text line_break = Ok chart_block_text
  ∧ ParseContent NewParser chart_block_text = Ok (parsed chart_block_text)
  ∧ GetTagValue NewParser (parsed chart_block_text) ["image"; "tag"] = Ok ""
  ∧ GetTagValue NewParser (parsed chart_block_text) ["image"; "tag"]
    ≠ Ok line_break
  ∧ same_shape (chart line_break 5) (PR_Content (parsed chart_block_text))
    = false.
Proof.
  split_and!; try (vm_compute; reflexivity); try (vm_compute; lia);
    vm_compute; discriminate.
Qed.

(** Against C6 as the specification states it: the field [name: old-tag] is a
    location by its value only.  The first application, with no path
    given, updates it, and so removes it from the locations; the second
    application then updates the field [label], returns another text and
    reports a change. *)
Lemma UpdateTagInFile_twice_differs :
  ∃ r1 w1 r2 w2,
    UpdateTagInFile NewUpdater "20240101_120000"
      (Some (request "labels.yaml" "new" [] false))
      (world_with [("labels.yaml", labels_text "old-tag" "my-tag")]) = (Ok r1, w1)
    ∧ UpdateTagInFile NewUpdater "20240101_120000"
        (Some (request "labels.yaml" "new" [] false)) w1 = (Ok r2, w2)
    ∧ UpdatedContent r1 = labels_text "new" "my-tag"
    ∧ UpdatedContent r2 = labels_text "new" "new"
    ∧ UpdatedContent r2 ≠ UpdatedContent r1
    ∧ ChangesDetected r2 = true.
Proof.
  eexists _, _, _, _.
  split; [vm_compute; reflexivity |].
  split; [vm_compute; reflexivity |].
  split_and!; [by vm_compute | by vm_compute | by vm_compute | by vm_compute].
Qed.

Lemma UpdateTagInFile_twice_witness :
  ∃ r1 r2,
    fst chart_first_run = Ok r1
    ∧ fst chart_second_run = Ok r2
    ∧ UpdatedContent r2 = UpdatedContent r1
    ∧ ChangesDetected r1 = true
    ∧ ChangesDetected r2 = false.
Proof.
  eexists _, _.
  split; [vm_compute; reflexivity |].
  split; [vm_compute; reflexivity |].
  match goal with
  | |- UpdatedContent ?r2 = UpdatedContent ?r1 ∧ _ ∧ _ =>
      destruct (UpdateTagInFile_twice NewUpdater "20240101_120000" "20240101_120500"
                  chart_request chart_world
                  (snd (readFile NewUpdater "values.yaml" chart_world))
                  (snd chart_first_run) (snd chart_second_run)
                  r1 r2 chart_text (parsed chart_text) ["image"; "tag"]
                  (chart "v2.0.0" 5) (chart "v2.0.0" 3))
        as [Hsame Hchanges]
  end.
  - reflexivity.
  - vm_compute. reflexivity.
  - vm_compute. reflexivity.
  - vm_compute. reflexivity.
  - vm_compute. reflexivity.
  - vm_compute. reflexivity.
  - vm_compute. reflexivity.
  - vm_compute. reflexivity.
  - vm_compute. reflexivity.
  - vm_compute. reflexivity.
  - vm_compute. reflexivity.
  - split_and!; [done | by vm_compute | done].
Defined.

(** The scenario of the specification: the chart with the tag [v1.0.0],
    updated to [v2.0.0], holds [tag: v2.0.0] and no longer [v1.0.0]. *)
Example UpdateTagSimple_chart :
  ∃ text, UpdateTagSimple NewParser (chart_encoded "v1.0.0") "v2.0.0" = Ok text
          ∧ strings.Contains text "tag: v2.0.0" = true
          ∧ strings.Contains text "v1.0.0" = false.
Proof. eexists. split; [vm_compute; reflexivity | by vm_compute]. Qed.

(** *** Backups taken at different seconds *)

Lemma append_cancel_r (a b c : string) : a +:+ c = b +:+ c → a = b.
Proof.
  intros Heq. apply (f_equal String.list_ascii_of_string) in Heq.
  rewrite !list_ascii_app in Heq. apply app_inv_tail in Heq.
  rewrite <- (String.string_of_list_ascii_of_string a),
          <- (String.string_of_list_ascii_of_string b).
  by rewrite Heq.
Qed.

(** Next to the file (no backup directory), backups of one file taken at
    different times, written to the second, have different cleaned paths:
    the later backup does not replace the earlier one. *)
Lemma backup_paths_differ (filePath timestamp1 timestamp2 : string) :
  no_separator timestamp1 = true → no_separator timestamp2 = true →
  timestamp1 ≠ timestamp2 →
  filepath.Clean (filePath +:+ "." +:+ timestamp1 +:+ ".backup")
  ≠ filepath.Clean (filePath +:+ "." +:+ timestamp2 +:+ ".backup").
Proof.
  intros H1 H2 Hne Heq. apply (f_equal filepath.Base) in Heq. revert Heq.
  set (last_elem := List.last (strings.Split filePath filepath.Separator) "").
  assert (∀ ts, no_separator ts = true →
                no_separator ("." +:+ ts +:+ ".backup") = true
                ∧ real_element (last_elem +:+ "." +:+ ts +:+ ".backup")) as Hreal.
  { intros ts Hts.
    assert (no_separator ("." +:+ ts +:+ ".backup") = true) as Hs.
    { by rewrite !no_separator_app, Hts. }
    split; [done |].
    assert (no_separator last_elem = true) as Hlast.
    { apply (Split_elements filePath). unfold last_elem.
      pose proof (Split_nonempty filePath filepath.Separator) as Hsplit.
      destruct (exists_last Hsplit) as (l & a & ->).
      rewrite last_last. apply elem_of_app. right. by left. }
    split_and!.
    - by rewrite no_separator_app, Hlast, Hs.
    - intros He. apply append_empty_inv in He as [_ He]. discriminate.
    - intros He. apply (f_equal String.length) in He.
      rewrite !append_length in He. simpl in He. lia.
    - intros He. apply (f_equal String.length) in He.
      rewrite !append_length in He. simpl in He. lia. }
  destruct (Hreal _ H1) as [Hs1 He1]. destruct (Hreal _ H2) as [Hs2 He2].
  destruct (Clean_last_element filePath _ Hs1 He1) as (x1 & -> & Hx1).
  destruct (Clean_last_element filePath _ Hs2 He2) as (x2 & -> & Hx2).
  fold last_elem.
  rewrite !Base_last_element;
    [| by destruct He2 | by destruct He2 as (_ & ? & _) | done
     | by destruct He1 | by destruct He1 as (_ & ? & _) | done].
  intros Heq. apply (inj (String.append last_elem)) in Heq.
  rewrite !append_cons in Heq. inversion Heq as [Hts].
  change (timestamp1 +:+ ".backup" = timestamp2 +:+ ".backup") in Hts.
  by apply append_cancel_r in Hts.
Qed.

(** * Further properties of the code *)

(** ** Accepted paths *)

Lemma prefix_cons (c c' : ascii) (s s' : string) :
  String.prefix (String c s) (String c' s')
  = if Ascii.ascii_dec c c' then String.prefix s s' else false.
Proof. reflexivity. Qed.

Lemma prefix_dots_ReplaceAll (s : string) :
  String.prefix ".." (strings.ReplaceAll s WindowsPathSeparator UnixPathSeparator)
  = String.prefix ".." s.
Proof.
  assert (∀ c, "."%char = (if Ascii.eqb c WindowsPathSeparator then UnixPathSeparator else c)
               ↔ "."%char = c) as Hc.
  { intros c. destruct (Ascii.eqb_spec c WindowsPathSeparator) as [->|_]; done. }
  destruct s as [|c [|c2 s]]; [done | |].
  - change (strings.ReplaceAll (String c "") WindowsPathSeparator UnixPathSeparator)
      with (String (if Ascii.eqb c WindowsPathSeparator then UnixPathSeparator else c) "").
    rewrite !prefix_cons. by repeat destruct (Ascii.ascii_dec _ _).
  - change (strings.ReplaceAll (String c (String c2 s)) WindowsPathSeparator UnixPathSeparator)
      with (String (if Ascii.eqb c WindowsPathSeparator then UnixPathSeparator else c)
              (String (if Ascii.eqb c2 WindowsPathSeparator then UnixPathSeparator else c2)
                 (strings.ReplaceAll s WindowsPathSeparator UnixPathSeparator))).
    rewrite !prefix_cons.
    pose proof (Hc c) as H1. pose proof (Hc c2) as H2.
    repeat destruct (Ascii.ascii_dec _ _); try tauto; by destruct s.
Qed.

Lemma Contains_dots_ReplaceAll (s : string) :
  strings.Contains (strings.ReplaceAll s WindowsPathSeparator UnixPathSeparator) ".."
  = strings.Contains s "..".
Proof.
  induction s as [|c s IH]; [done |].
  rewrite Contains_cons, <- IH, <- prefix_dots_ReplaceAll. done.
Qed.

Lemma HasPrefix_slash (s : string) :
  strings.HasPrefix s "/" = true → ∃ rest, s = String "/" rest.
Proof.
  unfold strings.HasPrefix. intros [b ->]%prefix_occurs. by exists b.
Qed.

Lemma ToLower_slash (rest : string) :
  strings.ToLower (String "/" rest) = String "/" (strings.ToLower rest).
Proof. reflexivity. Qed.

Lemma ReplaceAll_nonempty (s : string) (old new : ascii) :
  s ≠ "" → strings.ReplaceAll s old new ≠ "".
Proof. by destruct s. Qed.

(** X1.  An accepted path is not empty and holds no [..]; a rejected one is
    rejected with a validation error. *)
Theorem validateAndCleanFilePath_result (filePath : string) :
  match validateAndCleanFilePath filePath with
  | Ok cleanPath =>
      filePath ≠ "" ∧ cleanPath ≠ "" ∧ strings.Contains cleanPath ".." = false
  | Err e => is_ValidationError e
  end.
Proof.
  unfold validateAndCleanFilePath.
  destruct (String.eqb filePath "") eqn:Hempty; [apply NewValidationError_kind |].
  apply String.eqb_neq in Hempty.
  pose proof (Clean_nonempty filePath) as Hclean.
  unfold PathTraversalPattern.
  destruct (strings.Contains (filepath.Clean filePath) "..") eqn:Hdots;
    [apply NewValidationError_kind |].
  destruct (filepath.IsAbs _); [|done].
  destruct (strings.Contains _ WindowsDriveLetterSeparator).
  - set (allowed := existsb _ _). destruct allowed; simpl;
      [| apply NewValidationError_kind].
    split_and!; [done | by apply ReplaceAll_nonempty |].
    by rewrite Contains_dots_ReplaceAll.
  - set (allowed := existsb _ _). destruct allowed; simpl;
      [done | apply NewValidationError_kind].
Qed.

(** X2.  An accepted absolute path lies under [/tmp/] or [/var/tmp/], whatever
    the case of its letters. *)
Theorem validateAndCleanFilePath_absolute (filePath cleanPath : string) :
  validateAndCleanFilePath filePath = Ok cleanPath →
  filepath.IsAbs cleanPath = true →
  strings.HasPrefix (strings.ToLower cleanPath) "/tmp/" = true
  ∨ strings.HasPrefix (strings.ToLower cleanPath) "/var/tmp/" = true.
Proof.
  unfold validateAndCleanFilePath.
  destruct (String.eqb filePath ""); [done |].
  destruct (strings.Contains (filepath.Clean filePath) _); [done |].
  destruct (filepath.IsAbs (filepath.Clean filePath)) eqn:Habs;
    [| intros [= <-]; congruence].
  apply HasPrefix_slash in Habs as [rest Hrest]. rewrite Hrest.
  destruct (strings.Contains _ WindowsDriveLetterSeparator).
  - set (c := strings.ReplaceAll _ _ _).
    destruct (existsb _ _) eqn:Hallowed; simpl; [|done].
    intros [= <-] _. apply existsb_exists in Hallowed as (prefix & Hin & Hp).
    simpl in Hin. destruct Hin as [<-|[<-|[<-|[<-|[<-|[<-|[]]]]]]];
      try (by left); try (by right); exfalso; revert Hp; unfold c;
      change (strings.ReplaceAll (String "/" rest) WindowsPathSeparator UnixPathSeparator)
        with (String "/" (strings.ReplaceAll rest WindowsPathSeparator UnixPathSeparator));
      rewrite ToLower_slash; by vm_compute.
  - destruct (existsb _ _) eqn:Hallowed; simpl; [|done].
    intros [= <-] _. apply existsb_exists in Hallowed as (prefix & Hin & Hp).
    simpl in Hin. destruct Hin as [<-|[<-|[]]]; [by left | by right].
Qed.

Lemma validateAndCleanFilePath_absolute_witness :
  validateAndCleanFilePath "/TMP//cache/../App.yaml" = Ok "/TMP/App.yaml"
  ∧ (strings.HasPrefix (strings.ToLower "/TMP/App.yaml") "/tmp/" = true
     ∨ strings.HasPrefix (strings.ToLower "/TMP/App.yaml") "/var/tmp/" = true).
Proof.
  split; [reflexivity |].
  apply (validateAndCleanFilePath_absolute "/TMP//cache/../App.yaml"); reflexivity.
Defined.

(** ** Cleaned paths *)

Lemma kept_step (rooted : bool) (out : list string) (e : string) :
  no_separator e = true → kept rooted out →
  kept rooted (filepath.clean_step rooted out e).
Proof.
  intros He (reals & k & -> & Hreals & Hk). unfold filepath.clean_step.
  destruct (String.eqb_spec e ""); [by exists reals, k |].
  destruct (String.eqb_spec e "."); [by exists reals, k |].
  destruct (String.eqb_spec e "..") as [->|].
  - destruct reals as [|top reals]; simpl.
    + destruct k as [|k]; simpl.
      * destruct rooted; [by exists [], 0%nat | by exists [], 1%nat].
      * destruct rooted; [by specialize (Hk eq_refl) |].
        by exists [], (S (S k)).
    + inversion Hreals as [|? ? Htop Hrest]; subst.
      destruct (String.eqb_spec top "..") as [->|_].
      { by destruct Htop as (_ & _ & _ & ?). }
      by exists reals, k.
  - exists (e :: reals), k. split_and!; [done | | done].
    constructor; [by split_and! | done].
Qed.

Lemma kept_fold (rooted : bool) (elems out : list string) :
  Forall (λ e, no_separator e = true) elems → kept rooted out →
  kept rooted (foldl (filepath.clean_step rooted) out elems).
Proof.
  revert out. induction elems as [|e elems IH]; intros out Helems Hout; [done |].
  inversion Helems; subst. simpl. apply IH; [done |]. by apply kept_step.
Qed.

Lemma kept_Split (rooted : bool) (p : string) :
  kept rooted (foldl (filepath.clean_step rooted) []
                 (strings.Split p filepath.Separator)).
Proof.
  apply kept_fold; [| by exists [], 0%nat].
  apply Forall_forall. intros e He. by apply (Split_elements p).
Qed.

Lemma Split_cons_element (e s : string) :
  no_separator e = true →
  strings.Split (e +:+ String "/" s) filepath.Separator
  = e :: strings.Split s filepath.Separator.
Proof.
  induction e as [|c e IH]; [done |].
  simpl. intros [Hc He]%andb_true_iff. apply negb_true_iff in Hc.
  by rewrite Hc, IH.
Qed.

Lemma Split_Join (elems : list string) :
  elems ≠ [] → Forall (λ e, no_separator e = true) elems →
  strings.Split (strings.Join elems "/") filepath.Separator = elems.
Proof.
  induction elems as [|e elems IH]; [done |]. intros _ Helems.
  inversion Helems as [|? ? He Hrest]; subst.
  destruct elems as [|e' elems]; [by apply Split_element |].
  change (strings.Join (e :: e' :: elems) "/")
    with (e +:+ String "/" (strings.Join (e' :: elems) "/")).
  rewrite Split_cons_element by done. by rewrite IH.
Qed.

Lemma fold_reals (rooted : bool) (elems out : list string) :
  Forall real_element elems →
  foldl (filepath.clean_step rooted) out elems = rev elems ++ out.
Proof.
  revert out. induction elems as [|e elems IH]; intros out Helems; [done |].
  inversion Helems; subst. simpl.
  rewrite clean_step_real, IH by done. by rewrite <- app_assoc.
Qed.

Lemma fold_ups (k : nat) :
  foldl (filepath.clean_step false) [] (repeat ".." k) = repeat ".." k.
Proof.
  assert (∀ j, foldl (filepath.clean_step false) (repeat ".." j) (repeat ".." k)
               = repeat ".." (k + j)) as Hgen.
  { induction k as [|k IH]; intros j; [done |]. simpl.
    replace (filepath.clean_step false (repeat ".." j) "..")
      with (repeat ".." (S j)) by (by destruct j).
    rewrite IH. by replace (k + S j)%nat with (S (k + j)) by lia. }
  specialize (Hgen 0%nat). simpl in Hgen. rewrite Hgen. f_equal. lia.
Qed.

Lemma rev_repeat {A} (x : A) (k : nat) : rev (repeat x k) = repeat x k.
Proof.
  induction k as [|k IH]; [done |]. simpl. rewrite IH.
  clear IH. induction k as [|k IH]; [done |]. simpl. by rewrite IH.
Qed.

Lemma kept_elements (rooted : bool) (out : list string) :
  kept rooted out →
  Forall (λ e, no_separator e = true) out ∧ Forall (λ e, e ≠ "") out.
Proof.
  intros (reals & k & -> & Hreals & _). rewrite !Forall_app. split_and!.
  - eapply Forall_impl; [done |]. by intros e (? & _).
  - apply Forall_forall. intros e He. apply list_elem_of_In in He.
    by apply repeat_spec in He as ->.
  - eapply Forall_impl; [done |]. by intros e (_ & ? & _).
  - apply Forall_forall. intros e He. apply list_elem_of_In in He.
    by apply repeat_spec in He as ->.
Qed.

Lemma Join_not_rooted (elems : list string) :
  Forall (λ e, no_separator e = true) elems → Forall (λ e, e ≠ "") elems →
  strings.HasPrefix (strings.Join elems "/") "/" = false.
Proof.
  destruct elems as [|e elems]; [done |]. intros Hsep Hne.
  inversion Hsep as [|? ? He _]; inversion Hne as [|? ? Hnee _]; subst.
  destruct e as [|c e]; [done |]. simpl in He.
  apply andb_true_iff in He as [Hc _]. apply negb_true_iff in Hc.
  unfold strings.HasPrefix.
  assert (∃ rest, strings.Join (String c e :: elems) "/" = String c rest) as [rest ->].
  { destruct elems as [|e' elems]; [by exists e |].
    by exists (e +:+ "/" +:+ strings.Join (e' :: elems) "/"). }
  rewrite prefix_cons. destruct (Ascii.ascii_dec "/" c) as [<-|]; [|done].
  by rewrite Ascii.eqb_refl in Hc.
Qed.

Lemma Clean_render (p : string) :
  p ≠ "" →
  filepath.Clean p
  = render (strings.HasPrefix p "/")
      (foldl (filepath.clean_step (strings.HasPrefix p "/")) []
         (strings.Split p filepath.Separator)).
Proof. intros Hp%String.eqb_neq. unfold filepath.Clean. by rewrite Hp. Qed.

Lemma HasPrefix_rooted (s : string) : strings.HasPrefix ("/" +:+ s) "/" = true.
Proof. by destruct s. Qed.

Lemma Clean_kept (rooted : bool) (out : list string) :
  kept rooted out → filepath.Clean (render rooted out) = render rooted out.
Proof.
  intros Hkept.
  pose proof (kept_elements _ _ Hkept) as [Hsep Hne].
  apply Forall_rev in Hsep, Hne.
  destruct Hkept as (reals & k & Hout & Hreals & Hk).
  unfold render. destruct rooted.
  - rewrite (Hk eq_refl) in Hout. simpl in Hout. rewrite app_nil_r in Hout.
    rewrite Clean_render by done.
    rewrite HasPrefix_rooted.
    change (strings.Split ("/" +:+ strings.Join (rev out) "/") filepath.Separator)
      with ("" :: strings.Split (strings.Join (rev out) "/") filepath.Separator).
    destruct (decide (rev out = [])) as [Hnil|Hnil]; [by rewrite Hnil |].
    rewrite Split_Join by done.
    change (foldl (filepath.clean_step true) [] ("" :: rev out))
      with (foldl (filepath.clean_step true) [] (rev out)).
    rewrite fold_reals by (rewrite Hout; by apply Forall_rev).
    unfold render. by rewrite app_nil_r, rev_involutive.
  - destruct (String.eqb (strings.Join (rev out) "/") "") eqn:Hbody; [done |].
    apply String.eqb_neq in Hbody.
    assert (rev out ≠ []) as Hnil by (by intros Heq; rewrite Heq in Hbody).
    rewrite Clean_render by done.
    rewrite Join_not_rooted by done. rewrite Split_Join by done.
    rewrite Hout, rev_app_distr, rev_repeat, foldl_app, fold_ups.
    rewrite fold_reals by (by apply Forall_rev).
    rewrite rev_involutive. unfold render.
    rewrite Hout, rev_app_distr, rev_repeat in Hbody.
    rewrite rev_app_distr, rev_repeat.
    apply String.eqb_neq in Hbody. by rewrite Hbody.
Qed.

(** [Clean] returns its result for a path that it has returned. *)
Lemma Clean_idempotent (p : string) :
  filepath.Clean (filepath.Clean p) = filepath.Clean p.
Proof.
  destruct (String.eqb_spec p "") as [->|Hp]; [reflexivity |].
  rewrite (Clean_render p) by done. apply Clean_kept, kept_Split.
Qed.

Lemma prefix_empty (s : string) : String.prefix "" s = true.
Proof. by destruct s. Qed.

Lemma Contains_colon_ReplaceAll (s : string) :
  strings.Contains (strings.ReplaceAll s WindowsPathSeparator UnixPathSeparator) ":"
  = strings.Contains s ":".
Proof.
  induction s as [|c s IH]; [done |].
  change (strings.ReplaceAll (String c s) WindowsPathSeparator UnixPathSeparator)
    with (String (if Ascii.eqb c WindowsPathSeparator then UnixPathSeparator else c)
            (strings.ReplaceAll s WindowsPathSeparator UnixPathSeparator)).
  rewrite !Contains_cons, IH, !prefix_cons, !prefix_empty. f_equal.
  destruct (Ascii.eqb_spec c WindowsPathSeparator) as [->|_]; [|done].
  by repeat destruct (Ascii.ascii_dec _ _).
Qed.

Lemma validateAndCleanFilePath_again (filePath cleanPath : string) :
  validateAndCleanFilePath filePath = Ok cleanPath →
  filepath.IsAbs cleanPath && strings.Contains cleanPath ":" = false →
  validateAndCleanFilePath cleanPath = Ok cleanPath.
Proof.
  unfold validateAndCleanFilePath at 1.
  destruct (String.eqb filePath ""); [done |].
  pose proof (Clean_nonempty filePath) as Hne%String.eqb_neq.
  pose proof (Clean_idempotent filePath) as Hidem.
  unfold PathTraversalPattern, WindowsDriveLetterSeparator.
  destruct (strings.Contains (filepath.Clean filePath) "..") eqn:Hdots; [done |].
  destruct (filepath.IsAbs (filepath.Clean filePath)) eqn:Habs.
  - destruct (strings.Contains (filepath.Clean filePath) ":") eqn:Hcolon.
    + destruct (negb _); [done |]. intros [= <-].
      rewrite Contains_colon_ReplaceAll, Hcolon, andb_true_r.
      apply HasPrefix_slash in Habs as [rest ->].
      change (strings.ReplaceAll (String "/" rest) WindowsPathSeparator UnixPathSeparator)
        with ("/" +:+ strings.ReplaceAll rest WindowsPathSeparator UnixPathSeparator).
      unfold filepath.IsAbs. by rewrite HasPrefix_rooted.
    + destruct (negb _) eqn:Hallowed; [done |]. intros [= <-] _.
      unfold validateAndCleanFilePath.
      unfold PathTraversalPattern, WindowsDriveLetterSeparator.
      by rewrite Hne, Hidem, Hdots, Habs, Hcolon, Hallowed.
  - intros [= <-] _. unfold validateAndCleanFilePath.
    unfold PathTraversalPattern. by rewrite Hne, Hidem, Hdots, Habs.
Qed.

(** X3.  A path that the validator has returned is accepted as it is, unless
    it is an absolute path with a drive-letter separator, in which the
    validator has changed the separators. *)
Theorem validateAndCleanFilePath_idempotent (filePath cleanPath : string) :
  validateAndCleanFilePath filePath = Ok cleanPath →
  filepath.IsAbs cleanPath && strings.Contains cleanPath ":" = false →
  validateAndCleanFilePath cleanPath = Ok cleanPath.
Proof. apply validateAndCleanFilePath_again. Qed.

Lemma validateAndCleanFilePath_idempotent_witness :
  validateAndCleanFilePath "./conf//app.yaml" = Ok "conf/app.yaml"
  ∧ validateAndCleanFilePath "conf/app.yaml" = Ok "conf/app.yaml".
Proof.
  split; [reflexivity |].
  apply (validateAndCleanFilePath_idempotent "./conf//app.yaml"); reflexivity.
Defined.

(** ** The length of cleaned paths *)

Lemma render_cons_length (rooted : bool) (out : list string) (e : string) :
  e ≠ "" →
  String.length (render rooted (e :: out)) = (plen rooted out + String.length e)%nat.
Proof.
  intros He. unfold render, plen. simpl rev. rewrite Join_snoc.
  destruct out as [|top rest].
  - simpl rev. cbv iota. apply String.eqb_neq in He.
    destruct rooted; [by rewrite append_length | rewrite He; simpl; lia].
  - destruct (rev (top :: rest)) as [|a l] eqn:Hrev.
    { apply (f_equal length) in Hrev. rewrite length_rev in Hrev. done. }
    set (body := strings.Join (a :: l) "/").
    destruct rooted.
    + rewrite !append_length. simpl. lia.
    + destruct (String.eqb (body +:+ "/" +:+ e) "") eqn:Hempty.
      { apply String.eqb_eq, append_empty_inv in Hempty as [_ Hempty].
        by apply append_empty_inv in Hempty as [? _]. }
      rewrite !append_length. simpl. lia.
Qed.

Lemma render_length (rooted : bool) (out : list string) :
  (String.length (render rooted out) ≤ plen rooted out + 1)%nat.
Proof.
  unfold render, plen. destruct out as [|top rest].
  - destruct rooted; vm_compute; lia.
  - set (body := strings.Join _ _). destruct rooted.
    + rewrite append_length. simpl. lia.
    + destruct (String.eqb body ""); simpl; lia.
Qed.

Lemma plen_tail (rooted : bool) (top : string) (rest : list string) :
  (plen rooted rest ≤ plen rooted (top :: rest))%nat.
Proof.
  unfold plen. simpl rev. rewrite Join_snoc.
  destruct rest as [|top' rest]; [simpl; lia |].
  destruct (rev (top' :: rest)) as [|a l] eqn:Hrev.
  { apply (f_equal length) in Hrev. rewrite length_rev in Hrev. done. }
  rewrite !append_length. lia.
Qed.

Lemma HasPrefix_app (p s : string) :
  p ≠ "" → strings.HasPrefix (p +:+ s) "/" = strings.HasPrefix p "/".
Proof.
  destruct p as [|c p]; [done |]. intros _. unfold strings.HasPrefix.
  rewrite append_cons, !prefix_cons, !prefix_empty. done.
Qed.

(** A path with a suffix of three bytes or more, without separator, is
    longer, once cleaned, than the cleaned path. *)
Lemma Clean_append_longer (p s : string) :
  no_separator s = true → (3 ≤ String.length s)%nat →
  (String.length (filepath.Clean p) < String.length (filepath.Clean (p +:+ s)))%nat.
Proof.
  intros Hs Hlen.
  set (la := List.last (strings.Split p filepath.Separator) "").
  assert (no_separator la = true) as Hla.
  { apply (Split_elements p). unfold la.
    pose proof (Split_nonempty p filepath.Separator) as Hsplit.
    destruct (exists_last Hsplit) as (l & a & ->).
    rewrite last_last. apply elem_of_app. right. by left. }
  assert (real_element (la +:+ s)) as Hreal.
  { split_and!.
    - by rewrite no_separator_app, Hla, Hs.
    - intros He. apply (f_equal String.length) in He.
      rewrite append_length in He. simpl in He. lia.
    - intros He. apply (f_equal String.length) in He.
      rewrite append_length in He. simpl in He. lia.
    - intros He. apply (f_equal String.length) in He.
      rewrite append_length in He. simpl in He. lia. }
  destruct (String.eqb_spec p "") as [->|Hp].
  { destruct (Clean_last_element "" s Hs Hreal) as (x & -> & _).
    rewrite !append_length. change (String.length (filepath.Clean "")) with 1%nat.
    lia. }
  assert (p +:+ s ≠ "") as Hps.
  { intros [? _]%append_empty_inv. done. }
  rewrite (Clean_render p), (Clean_render (p +:+ s)) by done.
  rewrite HasPrefix_app by done. set (rooted := strings.HasPrefix p "/").
  rewrite (Split_app p s Hs). fold la.
  rewrite (app_removelast_last "" (Split_nonempty p filepath.Separator)) at 1.
  fold la. rewrite !foldl_app.
  set (out0 := foldl _ [] (removelast _)). simpl foldl.
  rewrite (clean_step_real _ _ _ Hreal).
  rewrite render_cons_length by (by destruct Hreal as (_ & ? & _)).
  rewrite append_length.
  pose proof (render_length rooted out0) as Hrender.
  unfold filepath.clean_step.
  destruct (String.eqb_spec la "") as [_|Hne]; [lia |].
  destruct (String.eqb_spec la ".") as [_|_]; [lia |].
  destruct (String.eqb_spec la "..") as [->|Hup].
  - destruct out0 as [|top rest].
    + destruct rooted; [lia |]. rewrite render_cons_length by done. simpl. lia.
    + destruct (String.eqb top "..").
      * destruct rooted; [lia |]. rewrite render_cons_length by done. simpl. lia.
      * pose proof (render_length rooted rest).
        pose proof (plen_tail rooted top rest). lia.
  - rewrite render_cons_length by done. lia.
Qed.

Lemma ReplaceAll_app (a b : string) (old new : ascii) :
  strings.ReplaceAll (a +:+ b) old new
  = strings.ReplaceAll a old new +:+ strings.ReplaceAll b old new.
Proof. induction a as [|c a IH]; [done |]. rewrite append_cons. simpl. by rewrite IH. Qed.

Lemma ReplaceAll_length (s : string) (old new : ascii) :
  String.length (strings.ReplaceAll s old new) = String.length s.
Proof. induction s as [|c s IH]; [done |]. simpl. by rewrite IH. Qed.

(** What the validator returns is the cleaned path, or the cleaned path
    with its backslashes turned into slashes. *)
Lemma validateAndCleanFilePath_Ok (filePath cleanPath : string) :
  validateAndCleanFilePath filePath = Ok cleanPath →
  cleanPath = filepath.Clean filePath
  ∨ cleanPath = strings.ReplaceAll (filepath.Clean filePath)
                  WindowsPathSeparator UnixPathSeparator.
Proof.
  unfold validateAndCleanFilePath.
  destruct (String.eqb filePath ""); [done |].
  destruct (strings.Contains _ PathTraversalPattern); [done |].
  destruct (filepath.IsAbs _); [| intros [= <-]; by left].
  destruct (strings.Contains _ WindowsDriveLetterSeparator);
    destruct (negb _); try done; intros [= <-]; [by right | by left].
Qed.

Lemma suffixes_differ (a b : string) : a +:+ ".backup" ≠ b +:+ ".tmp".
Proof.
  intros Heq. apply (f_equal String.list_ascii_of_string) in Heq.
  rewrite !list_ascii_app in Heq. apply (f_equal (@rev ascii)) in Heq.
  rewrite !rev_app_distr in Heq. simpl in Heq. discriminate.
Qed.

(** The name of the temporary file ends with [.tmp]. *)
Lemma tempPath_of_suffix (filePath : string) :
  ∃ x, tempPath_of filePath = x +:+ ".tmp".
Proof.
  unfold tempPath_of, filepath.Join.
  assert (filepath.Dir filePath ≠ "") as Hd.
  { unfold filepath.Dir. destruct (rev _) as [|? [|? ?]]; apply Clean_nonempty. }
  apply String.eqb_neq in Hd. rewrite Hd. clear Hd.
  change (strings.Join [filepath.Dir filePath; filepath.Base filePath +:+ TempFileSuffix] "/")
    with (filepath.Dir filePath +:+ "/" +:+ filepath.Base filePath +:+ TempFileSuffix).
  set (d := filepath.Dir filePath). set (b := filepath.Base filePath).
  destruct (Base_element filePath) as [Hroot|Hb]; fold b in Hroot || fold b in Hb.
  - rewrite Hroot.
    replace (d +:+ "/" +:+ "/" +:+ TempFileSuffix) with (((d +:+ "/") +:+ "/") +:+ ".tmp")
      by (by rewrite !append_assoc).
    destruct (Clean_last_element ((d +:+ "/") +:+ "/") ".tmp") as (x & -> & _).
    + done.
    + rewrite Split_last_sep. by split_and!.
    + rewrite Split_last_sep. by exists x.
  - replace (d +:+ "/" +:+ b +:+ TempFileSuffix)
      with ((d +:+ "/") +:+ b +:+ ".tmp") by (by rewrite !append_assoc).
    assert (real_element (b +:+ ".tmp")) as Hreal.
    { split_and!.
      - by rewrite no_separator_app, Hb.
      - intros Hs. by apply append_empty_inv in Hs as [_ ?].
      - intros Hs. apply (f_equal String.length) in Hs.
        rewrite append_length in Hs. simpl in Hs. lia.
      - intros Hs. apply (f_equal String.length) in Hs.
        rewrite append_length in Hs. simpl in Hs. lia. }
    destruct (Clean_last_element (d +:+ "/") (b +:+ ".tmp")) as (x & -> & _).
    + by rewrite no_separator_app, Hb.
    + by rewrite Split_last_sep.
    + rewrite Split_last_sep. exists (x +:+ b).
      change ("" +:+ b +:+ ".tmp") with (b +:+ ".tmp"). by rewrite append_assoc.
Qed.

(** Next to the file, the cleaned path of a backup is neither the cleaned
    path of the file nor the name of its temporary file. *)
Lemma backup_path_apart (filePath timestamp clean backup : string) :
  no_separator timestamp = true →
  validateAndCleanFilePath filePath = Ok clean →
  validateAndCleanFilePath (filePath +:+ "." +:+ timestamp +:+ ".backup") = Ok backup →
  backup ≠ clean ∧ backup ≠ tempPath_of clean.
Proof.
  intros Hts Hclean Hbackup.
  assert (no_separator ("." +:+ timestamp +:+ ".backup") = true) as Hs.
  { by rewrite !no_separator_app, Hts. }
  split.
  - intros Heq. apply (f_equal String.length) in Heq. revert Heq.
    assert (3 ≤ String.length ("." +:+ timestamp +:+ ".backup"))%nat as Hlen.
    { rewrite !append_length. simpl. lia. }
    pose proof (Clean_append_longer filePath _ Hs Hlen) as Hlonger.
    apply validateAndCleanFilePath_Ok in Hclean as [->| ->];
      apply validateAndCleanFilePath_Ok in Hbackup as [->| ->];
      rewrite ?ReplaceAll_length; lia.
  - destruct (tempPath_of_suffix clean) as [x ->].
    set (la := List.last (strings.Split filePath filepath.Separator) "").
    assert (no_separator la = true) as Hla.
    { apply (Split_elements filePath). unfold la.
      pose proof (Split_nonempty filePath filepath.Separator) as Hsplit.
      destruct (exists_last Hsplit) as (l & a & ->).
      rewrite last_last. apply elem_of_app. right. by left. }
    destruct (Clean_last_element filePath ("." +:+ timestamp +:+ ".backup") Hs)
      as (y & Hy & _).
    { fold la. split_and!.
      - by rewrite no_separator_app, Hla, Hs.
      - intros He. apply append_empty_inv in He as [_ He]. discriminate.
      - intros He. apply (f_equal String.length) in He.
        rewrite !append_length in He. simpl in He. lia.
      - intros He. apply (f_equal String.length) in He.
        rewrite !append_length in He. simpl in He. lia. }
    fold la in Hy.
    replace (y +:+ la +:+ "." +:+ timestamp +:+ ".backup")
      with ((y +:+ la +:+ "." +:+ timestamp) +:+ ".backup") in Hy
      by (by rewrite !append_assoc).
    apply validateAndCleanFilePath_Ok in Hbackup as [->| ->]; rewrite Hy.
    + apply suffixes_differ.
    + rewrite ReplaceAll_app.
      change (strings.ReplaceAll ".backup" WindowsPathSeparator UnixPathSeparator)
        with ".backup".
      apply suffixes_differ.
Qed.

(** ** Errors *)

Lemma substring_prefix (n : nat) (s : string) :
  (n ≤ String.length s)%nat →
  String.length (String.substring 0 n s) = n
  ∧ String.prefix (String.substring 0 n s) s = true.
Proof.
  revert s. induction n as [|n IH]; intros s Hn.
  - destruct s; done.
  - destruct s as [|c s]; simpl in *; [lia |].
    destruct (IH s) as [Hlen Hpre]; [lia |].
    rewrite Hlen. split; [done |]. by destruct (Ascii.ascii_dec c c).
Qed.

(** X4.  [truncateString] keeps a string that fits and cuts a longer one to
    [maxLen] bytes: its first [maxLen - 3] bytes and three dots, or its
    first [maxLen] bytes when there is no room for the dots. *)
Theorem truncateString_bounded (s : string) (maxLen : nat) :
  String.length (errors.truncateString s maxLen) = Nat.min (String.length s) maxLen
  ∧ ((String.length s ≤ maxLen)%nat → errors.truncateString s maxLen = s)
  ∧ ((maxLen < String.length s)%nat →
     ∃ head, String.prefix head s = true
             ∧ ((3 < maxLen)%nat →
                errors.truncateString s maxLen = head +:+ "..."
                ∧ String.length head = (maxLen - 3)%nat)
             ∧ ((maxLen ≤ 3)%nat →
                errors.truncateString s maxLen = head
                ∧ String.length head = maxLen)).
Proof.
  unfold errors.truncateString.
  destruct (Nat.leb_spec (String.length s) maxLen) as [Hfits|Hlong].
  { split_and!; [lia | done | lia]. }
  change (String.length "...") with 3%nat.
  destruct (Nat.leb_spec maxLen 3) as [Hsmall|Hroom].
  - destruct (substring_prefix maxLen s) as [Hlen Hpre]; [lia |].
    split_and!; [lia | lia |]. intros _.
    exists (String.substring 0 maxLen s). split_and!; [done | lia | done].
  - destruct (substring_prefix (maxLen - 3) s) as [Hlen Hpre]; [lia |].
    split_and!; [rewrite append_length; simpl; lia | lia |]. intros _.
    exists (String.substring 0 (maxLen - 3) s). split_and!; [done | done | lia].
Qed.

Section ErrorProperties.

Context `{Codec}.

#[local] Arguments UpdateTag : simpl never.
#[local] Arguments autoDetectTagPath : simpl never.
#[local] Arguments ParseContent : simpl never.
#[local] Arguments readFile : simpl never.
#[local] Arguments writeFile : simpl never.
#[local] Arguments createBackup : simpl never.
#[local] Arguments ValidateYAML : simpl never.

Lemma wrapping_Err {A} (prefix : string) (m : IO A) (w w' : os.World) (e : error) :
  wrapping prefix m w = (Err e, w') →
  ∃ cause, e = ErrWrap prefix cause ∧ m w = (Err cause, w').
Proof.
  unfold wrapping. destruct (m w) as [[a|cause] w1]; [done |].
  intros [= <- <-]. by exists cause.
Qed.

(** X5.  The error helpers of [pkg/errors] on the errors of [UpdateTagInFile]:
    the three argument checks return an [AppError] with the validation
    code; every later failure is wrapped, so that the helpers report no
    [AppError], the code 0 and the category [unknown]. *)
Theorem UpdateTagInFile_error_codes (u : Updater) (timestamp : string)
    (request : option UpdateRequest) (w w' : os.World) (e : error) :
  UpdateTagInFile u timestamp request w = (Err e, w') →
  match request with
  | Some request =>
      if String.eqb (FilePath request) "" || String.eqb (NewTagValue request) ""
      then IsAppError (Some e) = true
           ∧ GetErrorCode (Some e) = errors.ErrCodeValidation
           ∧ GetErrorCategory (Some e) = errors.CategoryValidation
           ∧ w' = w
      else IsAppError (Some e) = false
           ∧ GetErrorCode (Some e) = 0
           ∧ GetErrorCategory (Some e) = "unknown"
  | None =>
      IsAppError (Some e) = true
      ∧ GetErrorCode (Some e) = errors.ErrCodeValidation
      ∧ GetErrorCategory (Some e) = errors.CategoryValidation
      ∧ w' = w
  end.
Proof.
  unfold UpdateTagInFile. destruct request as [request|];
    [| by intros [= <- <-]].
  destruct (String.eqb (FilePath request) ""); [by intros [= <- <-] |].
  destruct (String.eqb (NewTagValue request) ""); [by intros [= <- <-] |].
  simpl.
  unfold bind at 1.
  destruct (wrapping _ (readFile _ _) w) as [[content|e1] w1] eqn:Hread.
  2: { intros [= <- <-]. apply wrapping_Err in Hread as (cause & -> & _). done. }
  unfold bind at 1.
  destruct (wrapping _ (lift (ParseContent _ _)) w1) as [[pr|e2] w2] eqn:Hparse.
  2: { intros [= <- <-]. apply wrapping_Err in Hparse as (cause & -> & _). done. }
  unfold bind at 1.
  set (detect := if (length _ =? 0)%nat then _ else _).
  destruct (detect w2) as [[tagPath|e3] w3] eqn:Hdetect.
  2: { intros [= <- <-]. unfold detect in Hdetect.
       destruct (length _ =? 0)%nat; [|done].
       apply wrapping_Err in Hdetect as (cause & -> & _). done. }
  unfold bind at 1.
  destruct (wrapping _ (lift (UpdateTag _ _ _)) w3) as [[updated|e4] w4] eqn:Hupdate.
  2: { intros [= <- <-]. apply wrapping_Err in Hupdate as (cause & -> & _). done. }
  destruct (DryRun request); [done |].
  unfold bind at 1.
  set (backup := if _ && _ then _ else _).
  destruct (backup w4) as [[backupPath|e5] w5] eqn:Hbackup.
  2: { intros [= <- <-]. unfold backup in Hbackup.
       destruct (_ && _); [|done].
       apply wrapping_Err in Hbackup as (cause & -> & _). done. }
  unfold bind at 1.
  destruct (wrapping _ (writeFile _ _ _) w5) as [[[]|e6] w6] eqn:Hwrite; [done |].
  intros [= <- <-]. apply wrapping_Err in Hwrite as (cause & -> & _). done.
Qed.

End ErrorProperties.

(** ** Locations and updates *)

(** The node of a location is a scalar node of the tree: the value of a
    field whose key is the last segment of the path, and which the
    heuristic classifies; the location holds its value, line and column. *)
Lemma location_field (node : Node) (path : list string) (pre : NodeRef)
    (l : TagLocation) :
  l ∈ findTagLocations node path pre →
  ∃ ref n mid key,
    Loc_Node l = Some (pre ++ ref) ∧ node_at node ref = Some n
    ∧ Kind_of n = ScalarNode
    ∧ Loc_Value l = Value n ∧ Loc_Line l = Line n ∧ Loc_Column l = Column n
    ∧ Path l = path ++ mid ++ [key] ∧ key ≠ "" ∧ isTagField key n = true.
Proof.
  revert path pre.
  induction node as [kind style tag value line column content IH] using Node_ind'.
  intros path pre. rewrite findTagLocations_unfold. simpl.
  rewrite Forall_lookup in IH.
  destruct kind; try by intros ?%elem_of_nil.
  - intros (j & child & Hj & Hl)%each_child_elem.
    destruct (IH j child Hj _ _ Hl)
      as (ref & n & mid & key & Hnode & Hat & Hrest).
    exists (j :: ref), n, mid, key. refine (conj _ (conj _ Hrest)).
    + by rewrite Hnode, <- app_assoc.
    + by rewrite (node_at_cons _ _ _ child).
  - intros (j & child & Hj & Hl)%each_child_elem.
    destruct (IH j child Hj _ _ Hl)
      as (ref & n & mid & key & Hnode & Hat & Hk & Hv & Hli & Hc & Hp & Hrest).
    exists (j :: ref), n, (("[" +:+ fmt.d (0 + j) +:+ "]") :: mid), key.
    split_and!; [| | done | done | done | done | | apply Hrest | apply Hrest].
    + by rewrite Hnode, <- app_assoc.
    + by rewrite (node_at_cons _ _ _ child).
    + by rewrite Hp, <- !app_assoc.
  - intros (j & keyNode & valueNode & Hk & Hv & Hl)%each_pair_elem.
    apply field_locations_elem in Hl as [Hkey [[Hfield ->]|Hl]].
    + exists [S (2 * j)], valueNode, [], (Value keyNode).
      split_and!; try done.
      * by rewrite (node_at_cons _ _ _ valueNode).
      * by apply isTagField_scalar in Hfield.
    + destruct (IH _ valueNode Hv _ _ Hl)
        as (ref & n & mid & key & Hnode & Hat & Hk' & Hv' & Hli & Hc & Hp & Hrest).
      exists (S (2 * j) :: ref), n, (Value keyNode :: mid), key.
      split_and!; [| | done | done | done | done | | apply Hrest | apply Hrest].
      * by rewrite Hnode, <- app_assoc.
      * by rewrite (node_at_cons _ _ _ valueNode).
      * by rewrite Hp, <- !app_assoc.
Qed.

(** What the assignment through a reference changes: the value of the
    node at the reference, and nothing else of any node. *)
Lemma set_Value_node_at (root : Node) (ref : NodeRef) (v : string)
    (ref' : NodeRef) (n' : Node) :
  node_at root ref' = Some n' →
  ∃ n'', node_at (set_Value root ref v) ref' = Some n''
         ∧ Kind_of n'' = Kind_of n' ∧ Style n'' = Style n' ∧ Tag n'' = Tag n'
         ∧ Line n'' = Line n' ∧ Column n'' = Column n'
         ∧ length (Content n'') = length (Content n')
         ∧ Value n'' = (if decide (ref' = ref) then v else Value n').
Proof.
  revert root ref. induction ref' as [|i ref' IH]; intros root ref.
  - intros [= <-]. eexists. split; [done |].
    destruct root as [kind style tag value line column content].
    destruct ref as [|k ref].
    + by rewrite decide_True.
    + rewrite set_Value_cons, decide_False by done. simpl.
      by rewrite length_alter.
  - intros Hat. destruct root as [kind style tag value line column content].
    simpl in Hat. destruct (content !! i) as [child|] eqn:Hchild; [|done].
    destruct ref as [|k ref].
    + exists n'. rewrite decide_False by done. split; [|done].
      simpl. by rewrite Hchild.
    + rewrite set_Value_cons. destruct (decide (i = k)) as [->|Hne].
      * rewrite (node_at_cons _ _ _ (set_Value child ref v))
          by (simpl; by rewrite list_lookup_alter_eq, Hchild).
        destruct (IH child ref Hat) as (n'' & Hat' & Hk & Hs & Ht & Hl & Hc & Hlen & Hv).
        exists n''. split_and!; try done. rewrite Hv.
        repeat case_decide; congruence.
      * rewrite (node_at_cons _ _ _ child)
          by (simpl; by rewrite list_lookup_alter_ne, Hchild).
        exists n'. rewrite decide_False by congruence. done.
Qed.

Lemma scan_preferred_elem (name : string) (locations : list TagLocation)
    (path : list string) :
  scan_preferred name locations = Some path →
  ∃ l, l ∈ locations ∧ Path l = path.
Proof.
  induction locations as [|l locations IH]; simpl; [done |].
  destruct (_ && _).
  - intros [= <-]. exists l. split; [by left | done].
  - intros (l' & Hl' & Hp)%IH. exists l'. split; [by right | done].
Qed.

Lemma autoDetectTagPath_elem (u : Updater) (pr : ParseResult) (path : list string) :
  autoDetectTagPath u pr = Ok path → ∃ l, l ∈ TagLocations pr ∧ Path l = path.
Proof.
  unfold autoDetectTagPath.
  destruct (TagLocations pr) as [|first rest] eqn:Hlocs; [done |].
  destruct (scan_preferred "tag" _) as [q|] eqn:H1.
  { intros [= <-]. by apply scan_preferred_elem in H1. }
  destruct (scan_preferred "version" _) as [q|] eqn:H2.
  { intros [= <-]. by apply scan_preferred_elem in H2. }
  destruct (scan_preferred "image" _) as [q|] eqn:H3.
  { intros [= <-]. by apply scan_preferred_elem in H3. }
  intros [= <-]. exists first. split; [by left | done].
Qed.

Lemma NewInvalidYAMLError_kind (message : string) :
  is_InvalidYAMLError (ErrApp (errors.NewInvalidYAMLError message)).
Proof. by eexists. Qed.

Section LocationProperties.

Context `{Codec}.

(** X6.  Every location of a parse result names a scalar node of the parsed
    tree, with the value, line and column of that node; its path is not
    empty and ends with a non-empty key that, with the node, passes
    [isTagField]. *)
Theorem ParseContent_locations (p : Parser) (content : string) (pr : ParseResult)
    (l : TagLocation) :
  ParseContent p content = Ok pr → l ∈ TagLocations pr →
  ∃ ref n,
    Loc_Node l = Some ref ∧ node_at (PR_Content pr) ref = Some n
    ∧ Kind_of n = ScalarNode
    ∧ Value n = Loc_Value l ∧ Line n = Loc_Line l ∧ Column n = Loc_Column l
    ∧ Path l ≠ [] ∧ List.last (Path l) "" ≠ ""
    ∧ isTagField (List.last (Path l) "") n = true.
Proof.
  intros [_ Hlocs]%ParseContent_Ok_inv Hl. rewrite Hlocs in Hl.
  destruct (location_field _ _ _ _ Hl)
    as (ref & n & mid & key & Hnode & Hat & Hk & Hv & Hli & Hc & Hp & Hkey & Hfield).
  exists ref, n. simpl in Hp. rewrite Hp, last_last.
  split_and!; try done. by destruct mid.
Qed.

(** X7.  On a parse result of [ParseContent], [GetTagValue] returns the value
    of the first location with the path, which is the value of its node;
    without such a location it fails with a validation error. *)
Theorem GetTagValue_first_location (p : Parser) (content : string)
    (pr : ParseResult) (tagPath : list string) :
  ParseContent p content = Ok pr →
  (∀ l, first_with (λ l', Path l' = tagPath) (TagLocations pr) l →
        GetTagValue p pr tagPath = Ok (Loc_Value l)
        ∧ ∃ ref n, Loc_Node l = Some ref
                   ∧ node_at (PR_Content pr) ref = Some n
                   ∧ Value n = Loc_Value l)
  ∧ ((∀ l, l ∈ TagLocations pr → Path l ≠ tagPath) →
     ∃ e, GetTagValue p pr tagPath = Err e ∧ is_ValidationError e).
Proof.
  intros [_ Hlocs]%ParseContent_Ok_inv. unfold GetTagValue, findTagByPath. split.
  - intros l Hfirst.
    pose proof Hfirst as (i & Hi & _). apply list_elem_of_lookup_2 in Hi.
    apply findTagByPath_in_Some in Hfirst. rewrite Hfirst.
    rewrite Hlocs in Hi.
    destruct (location_sound _ _ _ _ Hi) as (ref & n & _ & Hnode & Hat & Hvalue).
    simpl in Hnode. rewrite Hnode. simpl. rewrite Hat. split.
    + rewrite Hvalue. by destruct (negb _).
    + by exists ref, n.
  - intros Hnone. apply findTagByPath_in_None in Hnone. rewrite Hnone.
    eexists. split; [done | apply NewValidationError_kind].
Qed.

(** X8.  [UpdateTag] with the value that the tag has returns the text that
    [FormatYAML] returns for the document. *)
Theorem UpdateTag_same_value_formats (p : Parser) (content : string)
    (pr : ParseResult) (tagPath : list string) (l : TagLocation) (text : string) :
  ParseContent p content = Ok pr →
  findTagByPath pr tagPath = Some l →
  Loc_Value l ≠ "" → (String.length (Loc_Value l) ≤ MaxTagValueLength)%nat →
  UpdateTag p (Some pr)
    (Some {| TagPath := tagPath; NewValue := Loc_Value l;
             CreateIfMissing := false; BackupContent := false |}) = Ok text
  ↔ FormatYAML p content = Ok text.
Proof.
  intros Hparse Hfind Hne Hlen.
  rewrite UpdateTag_Ok. simpl. unfold FormatYAML. rewrite Hparse, Hfind.
  apply ParseContent_Ok_inv in Hparse as [_ Hlocs].
  destruct (findTagByPath_in_elem _ _ _ Hfind) as [Hl _]. rewrite Hlocs in Hl.
  destruct (location_sound _ _ _ _ Hl) as (ref & n & _ & Hnode & Hat & Hvalue).
  simpl in Hnode.
  assert (updated_tree pr l (Loc_Value l) = PR_Content pr) as Hsame.
  { unfold updated_tree. rewrite Hnode. by apply (set_Value_same ref _ n). }
  split.
  - intros (_ & _ & l' & [= <-] & Henc). rewrite Hsame in Henc. by rewrite Henc.
  - intros Hfmt. split_and!; [done | done |]. exists l. split; [done |].
    rewrite Hsame. destruct (Encode _ _); congruence.
Qed.

(** X9.  [UpdateTag] creates no tag: without a location at the path it fails
    with a validation error, whether [CreateIfMissing] is set or not. *)
Theorem UpdateTag_never_creates (p : Parser) (pr : ParseResult)
    (options : UpdateOptions) :
  (∀ l, l ∈ TagLocations pr → Path l ≠ TagPath options) →
  ∃ e, UpdateTag p (Some pr) (Some options) = Err e ∧ is_ValidationError e.
Proof.
  intros Hnone%findTagByPath_in_None. unfold UpdateTag, findTagByPath.
  rewrite Hnone. unfold createAndUpdateTag.
  destruct (String.eqb _ ""); [eexists; split; [done | apply NewValidationError_kind] |].
  destruct (_ <? _)%nat; [eexists; split; [done | apply NewValidationError_kind] |].
  destruct (CreateIfMissing options);
    eexists; (split; [done | apply NewValidationError_kind]).
Qed.

(** X10.  The text that [UpdateTag] returns is the encoding of the parsed tree
    in which one value has changed: the one of the node of the first
    location with the path.  Every node keeps its kind, style, tag, line,
    column and number of children, and every other node its value. *)
Theorem UpdateTag_writes_one_node (p : Parser) (content : string)
    (pr : ParseResult) (options : UpdateOptions) (text : string) :
  ParseContent p content = Ok pr →
  UpdateTag p (Some pr) (Some options) = Ok text →
  ∃ l ref tree,
    first_with (λ l', Path l' = TagPath options) (TagLocations pr) l
    ∧ Loc_Node l = Some ref
    ∧ Encode (indentation p) tree = EncOk text
    ∧ ∀ ref' n', node_at (PR_Content pr) ref' = Some n' →
        ∃ n'', node_at tree ref' = Some n''
               ∧ Kind_of n'' = Kind_of n' ∧ Style n'' = Style n' ∧ Tag n'' = Tag n'
               ∧ Line n'' = Line n' ∧ Column n'' = Column n'
               ∧ length (Content n'') = length (Content n')
               ∧ Value n'' = (if decide (ref' = ref) then NewValue options
                              else Value n').
Proof.
  intros [_ Hlocs]%ParseContent_Ok_inv (_ & _ & l & Hfind & Henc)%UpdateTag_Ok.
  destruct (findTagByPath_in_elem _ _ _ Hfind) as [Hl _]. rewrite Hlocs in Hl.
  destruct (location_sound _ _ _ _ Hl) as (ref & n & _ & Hnode & Hat & Hvalue).
  simpl in Hnode. unfold updated_tree in Henc. rewrite Hnode in Henc.
  exists l, ref, (set_Value (PR_Content pr) ref (NewValue options)).
  split_and!; [by apply findTagByPath_in_Some | done | done |].
  intros ref' n'. apply set_Value_node_at.
Qed.

(** X11.  The path that [autoDetectTagPath] returns is the path of a location:
    [UpdateTag] at this path, with an accepted value, finds its tag and
    can only fail in the encoder. *)
Theorem autoDetectTagPath_found (u : Updater) (p : Parser) (pr : ParseResult)
    (path : list string) (newValue : string) :
  autoDetectTagPath u pr = Ok path →
  newValue ≠ "" → (String.length newValue ≤ MaxTagValueLength)%nat →
  (∃ l, findTagByPath pr path = Some l)
  ∧ ∀ e, UpdateTag p (Some pr)
           (Some {| TagPath := path; NewValue := newValue;
                    CreateIfMissing := false; BackupContent := false |}) = Err e →
         is_InvalidYAMLError e.
Proof.
  intros (l0 & Hl0 & Hp)%autoDetectTagPath_elem Hne Hlen.
  unfold UpdateTag, findTagByPath. simpl.
  destruct (findTagByPath_in (TagLocations pr) path) as [l|] eqn:Hfind.
  2: { rewrite findTagByPath_in_None in Hfind. by destruct (Hfind l0 Hl0). }
  split; [by exists l |].
  apply String.eqb_neq in Hne. rewrite Hne.
  destruct (Nat.ltb_spec MaxTagValueLength (String.length newValue)); [lia |].
  destruct (Encode _ _); intros e [= <-]; apply NewInvalidYAMLError_kind.
Qed.

End LocationProperties.

Lemma ParseContent_locations_witness :
  let l := {| Path := ["image"; "tag"]; Loc_Line := 2; Loc_Column := 10;
              Loc_Value := "v1.0.0"; Loc_Node := Some [0; 1; 1]%nat |} in
  ParseContent NewParser chart_text = Ok (parsed chart_text)
  ∧ ∃ ref n,
      Loc_Node l = Some ref ∧ node_at (PR_Content (parsed chart_text)) ref = Some n
      ∧ Kind_of n = ScalarNode
      ∧ Value n = Loc_Value l ∧ Line n = Loc_Line l ∧ Column n = Loc_Column l
      ∧ Path l ≠ [] ∧ List.last (Path l) "" ≠ ""
      ∧ isTagField (List.last (Path l) "") n = true.
Proof.
  intros l. split; [by vm_compute |].
  apply (ParseContent_locations NewParser chart_text (parsed chart_text) l).
  - by vm_compute.
  - vm_compute. left.
Defined.

(** ** Reading and writing *)

Lemma NewFileNotFoundError_kind (filePath : string) :
  is_FileNotFoundError (ErrApp (errors.NewFileNotFoundError filePath)).
Proof. by eexists. Qed.

Lemma validateAndCleanFilePath_Err (filePath : string) (e : error) :
  validateAndCleanFilePath filePath = Err e → is_ValidationError e.
Proof.
  unfold validateAndCleanFilePath.
  repeat case_match; intros [= <-]; apply NewValidationError_kind.
Qed.

(** X12.  [readFile] only reads.  What it returns is the content of the file at
    the cleaned path; it fails with a validation error for a rejected
    path, with a file-not-found error, or with a file system error for a
    refused read. *)
Theorem readFile_outcomes (u : Updater) (filePath : string) (w w' : os.World)
    (r : Result string) :
  readFile u filePath w = (r, w') →
  reads_only w w'
  ∧ match r with
    | Ok content =>
        ∃ clean, validateAndCleanFilePath filePath = Ok clean
                 ∧ os.files w !! clean = Some content
    | Err e =>
        match validateAndCleanFilePath filePath with
        | Err e' => e = e' ∧ is_ValidationError e ∧ w' = w
        | Ok clean => is_FileNotFoundError e ∨ is_FileSystemError e
        end
    end.
Proof.
  intros Hread. pose proof (readFile_inv _ _ _ _ _ Hread) as [Hreads Hok].
  split; [done |]. destruct r as [content|e]; [by apply Hok |].
  revert Hread. unfold readFile, bind, lift.
  destruct (validateAndCleanFilePath filePath) as [clean|e'] eqn:Hclean; simpl.
  - destruct (fileExists u clean w) as [found w1]. destruct found; simpl.
    + unfold os.ReadFile.
      repeat case_match; try done; intros [= <- <-]; right;
        apply NewFileSystemError_kind.
    + intros [= <- <-]. left. apply NewFileNotFoundError_kind.
  - intros [= <- <-]. split_and!; [done | | done].
    by apply validateAndCleanFilePath_Err in Hclean.
Qed.

(** X13.  [readFile] returns the content of the file at the cleaned path when
    the system refuses neither of its two calls: [Stat] and [ReadFile] on
    the cleaned path. *)
Theorem readFile_reads_file (u : Updater) (filePath clean content : string)
    (w : os.World) :
  validateAndCleanFilePath filePath = Ok clean →
  filepath.IsAbs clean && strings.Contains clean ":" = false →
  os.files w !! clean = Some content →
  os.fault w (os.trace w) (os.CallStat clean) = None →
  os.fault w (os.trace w ++ [os.CallStat clean]) (os.CallReadFile clean) = None →
  readFile u filePath w
  = (Ok content,
     {| os.files := os.files w;
        os.trace := os.trace w ++ [os.CallStat clean; os.CallReadFile clean];
        os.fault := os.fault w |}).
Proof.
  intros Hclean Hplain Hfile Hstat Hread.
  pose proof (validateAndCleanFilePath_again _ _ Hclean Hplain) as Hagain.
  unfold readFile, bind, lift. rewrite Hclean.
  unfold fileExists. rewrite Hagain.
  unfold os.Stat. rewrite Hstat, Hfile. simpl.
  unfold os.ReadFile, os.called. simpl. rewrite Hread, Hfile.
  by rewrite <- app_assoc.
Qed.

Lemma readFile_reads_file_witness :
  ∃ w', readFile NewUpdater "./values.yaml" chart_world = (Ok chart_text, w')
        ∧ os.trace w' = [os.CallStat "values.yaml"; os.CallReadFile "values.yaml"].
Proof.
  eexists. split.
  - apply (readFile_reads_file NewUpdater "./values.yaml" "values.yaml");
      reflexivity.
  - reflexivity.
Defined.

(** What a write with [atomicWrite] set does to the files. *)
Lemma writeFile_atomic_inv (u : Updater) (filePath content : string)
    (w w' : os.World) (r : Result ()) :
  atomicWrite u = true →
  writeFile u filePath content w = (r, w') →
  match validateAndCleanFilePath filePath with
  | Err e => r = Err e ∧ is_ValidationError e ∧ w' = w
  | Ok clean =>
      (∀ q, q ≠ clean → q ≠ tempPath_of clean →
            os.files w' !! q = os.files w !! q)
      ∧ match r with
        | Ok _ => os.files w' !! clean = Some content
                  ∧ os.files w' !! tempPath_of clean = None
        | Err e => is_FileSystemError e
                   ∧ os.files w' !! clean = os.files w !! clean
        end
  end.
Proof.
  intros Hatomic Hwrite.
  pose proof (writeFile_inv _ _ _ _ _ _ Hwrite) as Hinv. revert Hwrite.
  unfold writeFile, bind, lift.
  destruct (validateAndCleanFilePath filePath) as [clean|e] eqn:Hclean; simpl;
    rewrite ?Hatomic.
  2: { intros _. destruct Hinv as [-> ->]. split_and!; [done | | done].
       by apply validateAndCleanFilePath_Err in Hclean. }
  intros Hrun. destruct Hinv as [Hframe Hok]. split; [done |].
  pose proof (tempPath_of_ne clean) as Hne.
  destruct (os.fault w (os.trace w)
              (os.CallWriteFile (tempPath_of clean) content)) as [err|] eqn:Hfault.
  - unfold writeFileAtomic in Hrun. fold (tempPath_of clean) in Hrun.
    unfold os.WriteFile in Hrun. rewrite Hfault in Hrun.
    injection Hrun as <- <-. split; [apply NewFileSystemError_kind | done].
  - rewrite (writeFileAtomic_written u clean content w Hfault) in Hrun.
    destruct (os.fault w _ (os.CallRename _ _)).
    + injection Hrun as <- <-. simpl. split; [apply NewFileSystemError_kind |].
      destruct (os.fault w _ (os.CallRemove _)); simpl.
      * by rewrite lookup_insert_ne.
      * by rewrite lookup_delete_ne, lookup_insert_ne.
    + injection Hrun as <- <-. simpl. split.
      * by rewrite lookup_insert_eq.
      * rewrite lookup_insert_ne by done. by rewrite lookup_delete_eq.
Qed.

(** X14.  A write with [atomicWrite] set is all or nothing for the file at the
    cleaned path: after a success it holds the content and the temporary
    file is gone; after a failure, a validation error or a file system
    error, it holds what it held.  No file but these two changes. *)
Theorem writeFile_all_or_nothing (u : Updater) (filePath content : string)
    (w w' : os.World) (r : Result ()) :
  atomicWrite u = true →
  writeFile u filePath content w = (r, w') →
  match validateAndCleanFilePath filePath with
  | Err e => r = Err e ∧ is_ValidationError e ∧ w' = w
  | Ok clean =>
      (∀ q, q ≠ clean → q ≠ tempPath_of clean →
            os.files w' !! q = os.files w !! q)
      ∧ match r with
        | Ok _ => os.files w' !! clean = Some content
                  ∧ os.files w' !! tempPath_of clean = None
        | Err e => is_FileSystemError e
                   ∧ os.files w' !! clean = os.files w !! clean
        end
  end.
Proof. apply writeFile_atomic_inv. Qed.

Lemma createBackup_inv (u : Updater) (timestamp filePath content : string)
    (w w' : os.World) (backupPath : string) :
  createBackup u timestamp filePath content w = (Ok backupPath, w') →
  ∃ w1, writeFile u backupPath content w1 = (Ok (), w')
        ∧ os.files w1 = os.files w
        ∧ backupPath
          = (if String.eqb (backupDir u) "" then
               filePath +:+ "." +:+ timestamp +:+ ".backup"
             else
               filepath.Join
                 [backupDir u;
                  filepath.Base filePath +:+ "." +:+ timestamp +:+ ".backup"]).
Proof.
  unfold createBackup, bind, wrapping, ret.
  destruct (String.eqb (backupDir u) "") eqn:Hdir; simpl.
  - destruct (writeFile u _ content w) as [r w1] eqn:Hwrite.
    destruct r as [[]|e]; intros [= <- <-]. by exists w.
  - unfold os.MkdirAll.
    destruct (os.fault w (os.trace w) _); [by intros [= ] |].
    destruct (writeFile u _ content _) as [r w1] eqn:Hwrite.
    destruct r as [[]|e]; intros [= <- <-]. by eexists.
Qed.

Section FileProperties.

Context `{Codec}.

#[local] Arguments UpdateTag : simpl never.
#[local] Arguments autoDetectTagPath : simpl never.
#[local] Arguments ParseContent : simpl never.
#[local] Arguments readFile : simpl never.
#[local] Arguments writeFile : simpl never.
#[local] Arguments createBackup : simpl never.
#[local] Arguments ValidateYAML : simpl never.

(** The steps of [UpdateTagInFile] after the checks of the request. *)
Lemma UpdateTagInFile_steps (u : Updater) (timestamp : string)
    (request : UpdateRequest) (w : os.World) :
  FilePath request ≠ "" → NewTagValue request ≠ "" →
  UpdateTagInFile u timestamp (Some request) w
  = match readFile u (FilePath request) w with
    | (Err e, w1) =>
        (Err (ErrWrap ("failed to read file " +:+ FilePath request +:+ ": ") e), w1)
    | (Ok content, w1) =>
    match ParseContent (parser u) content with
    | Err e =>
        (Err (ErrWrap ("failed to parse YAML file " +:+ FilePath request +:+ ": ") e),
         w1)
    | Ok pr =>
    match (if (length (Req_TagPath request) =? 0)%nat then autoDetectTagPath u pr
           else Ok (Req_TagPath request)) with
    | Err e => (Err (ErrWrap "failed to auto-detect tag path: " e), w1)
    | Ok tagPath =>
    match UpdateTag (parser u) (Some pr)
            (Some {| TagPath := tagPath; NewValue := NewTagValue request;
                     CreateIfMissing := false; BackupContent := false |}) with
    | Err e => (Err (ErrWrap "failed to update tag: " e), w1)
    | Ok updated =>
        if DryRun request then (Ok (result_of u request content updated ""), w1)
        else
          match (if CreateBackup request && keepBackups u
                 then createBackup u timestamp (FilePath request) content w1
                 else (Ok "", w1)) with
          | (Err e, w2) => (Err (ErrWrap "failed to create backup: " e), w2)
          | (Ok backupPath, w2) =>
              match writeFile u (FilePath request) updated w2 with
              | (Err e, w3) =>
                  (Err (ErrWrap "failed to write updated file: " e), w3)
              | (Ok _, w3) =>
                  (Ok (result_of u request content updated backupPath), w3)
              end
          end
    end end end end.
Proof.
  intros Hfile%String.eqb_neq Hvalue%String.eqb_neq.
  unfold UpdateTagInFile. rewrite Hfile, Hvalue.
  unfold bind at 1. unfold wrapping at 1.
  destruct (readFile u (FilePath request) w) as [[content|e] w1]; [|done].
  unfold bind at 1. unfold wrapping at 1. unfold lift at 1.
  destruct (ParseContent (parser u) content) as [pr|e]; [|done].
  unfold bind at 1.
  assert ((if (length (Req_TagPath request) =? 0)%nat
           then wrapping "failed to auto-detect tag path: "
                         (lift (autoDetectTagPath u pr))
           else ret (Req_TagPath request)) w1
          = match (if (length (Req_TagPath request) =? 0)%nat
                   then autoDetectTagPath u pr else Ok (Req_TagPath request)) with
            | Err e => (Err (ErrWrap "failed to auto-detect tag path: " e), w1)
            | Ok tagPath => (Ok tagPath, w1)
            end) as ->.
  { destruct (length _ =? 0)%nat; [|done].
    unfold wrapping, lift. by destruct (autoDetectTagPath u pr). }
  destruct (if (length _ =? 0)%nat then _ else _) as [tagPath|e]; [|done].
  unfold bind at 1. unfold wrapping at 1. unfold lift at 1.
  destruct (UpdateTag _ _ _) as [updated|e]; [|done].
  destruct (DryRun request); [done |].
  unfold bind at 1.
  assert ((if CreateBackup request && keepBackups u
           then wrapping "failed to create backup: "
                  (createBackup u timestamp (FilePath request) content)
           else ret "") w1
          = match (if CreateBackup request && keepBackups u
                   then createBackup u timestamp (FilePath request) content w1
                   else (Ok "", w1)) with
            | (Err e, w2) => (Err (ErrWrap "failed to create backup: " e), w2)
            | (Ok backupPath, w2) => (Ok backupPath, w2)
            end) as ->.
  { destruct (_ && _); [|done].
    unfold wrapping. by destruct (createBackup _ _ _ _ _) as [[?|?] ?]. }
  destruct (if _ && _ then _ else _) as [[backupPath|e] w2]; [|done].
  unfold bind at 1. unfold wrapping at 1.
  by destruct (writeFile _ _ _ _) as [[[]|?] ?].
Qed.

(** X15.  [PreviewUpdate] only reads, and it tells what the update would do:
    when it fails, [UpdateTagInFile] on the request fails with the same
    error; when it returns a result, a result of [UpdateTagInFile] on the
    request has the same contents, change flag and validation error. *)
Theorem PreviewUpdate_faithful (u : Updater) (timestamp : string)
    (request : UpdateRequest) (w w1 : os.World) (r : Result UpdateResult) :
  PreviewUpdate u timestamp request w = (r, w1) →
  reads_only w w1
  ∧ match r with
    | Err e => UpdateTagInFile u timestamp (Some request) w = (Err e, w1)
    | Ok preview =>
        Success preview = true ∧ BackupPath preview = ""
        ∧ ∀ result w2,
            UpdateTagInFile u timestamp (Some request) w = (Ok result, w2) →
            UpdatedContent result = UpdatedContent preview
            ∧ Res_OriginalContent result = Res_OriginalContent preview
            ∧ ChangesDetected result = ChangesDetected preview
            ∧ ValidationError result = ValidationError preview
    end.
Proof.
  unfold PreviewUpdate.
  destruct (String.eqb (FilePath request) "") eqn:Hfile.
  { unfold UpdateTagInFile. simpl. rewrite Hfile. intros [= <- <-].
    split; [apply reads_only_refl | done]. }
  destruct (String.eqb (NewTagValue request) "") eqn:Hvalue.
  { unfold UpdateTagInFile. simpl. rewrite Hfile, Hvalue. intros [= <- <-].
    split; [apply reads_only_refl | done]. }
  apply String.eqb_neq in Hfile, Hvalue.
  rewrite !UpdateTagInFile_steps by done. simpl.
  destruct (readFile u (FilePath request) w) as [[content|e] w'] eqn:Hread;
    apply readFile_inv in Hread as [Hreads _].
  2: { by intros [= <- <-]. }
  destruct (ParseContent (parser u) content) as [pr|e]; [| by intros [= <- <-]].
  destruct (if (length _ =? 0)%nat then _ else _) as [tagPath|e];
    [| by intros [= <- <-]].
  destruct (UpdateTag _ _ _) as [updated|e]; [| by intros [= <- <-]].
  intros [= <- <-]. split; [done |]. split_and!; [done | done |].
  intros result w2. destruct (DryRun request); [by intros [= <- <-] |].
  destruct (if _ && _ then _ else _) as [[backupPath|e] w3]; [|done].
  destruct (writeFile _ _ _ _) as [[[]|e] w4]; [|done].
  by intros [= <- <-].
Qed.

Lemma UpdateTagInFile_Ok_files (u : Updater) (timestamp : string)
    (request : UpdateRequest) (w w' : os.World) (result : UpdateResult) :
  UpdateTagInFile u timestamp (Some request) w = (Ok result, w') →
  Success result = true
  ∧ ValidationError result
    = (if ValidateAfter request
       then ValidateYAML (parser u) (UpdatedContent result) else None)
  ∧ ChangesDetected result
    = negb (String.eqb (Res_OriginalContent result) (UpdatedContent result))
  ∧ ∃ clean,
      validateAndCleanFilePath (FilePath request) = Ok clean
      ∧ os.files w !! clean = Some (Res_OriginalContent result)
      ∧ if DryRun request then BackupPath result = "" ∧ reads_only w w'
        else os.files w' !! clean = Some (UpdatedContent result).
Proof.
  destruct (String.eqb (FilePath request) "") eqn:Hfile.
  { unfold UpdateTagInFile. by rewrite Hfile. }
  destruct (String.eqb (NewTagValue request) "") eqn:Hvalue.
  { unfold UpdateTagInFile. by rewrite Hfile, Hvalue. }
  apply String.eqb_neq in Hfile, Hvalue.
  rewrite UpdateTagInFile_steps by done.
  destruct (readFile u (FilePath request) w) as [[content|e] w1] eqn:Hread;
    [|done].
  apply readFile_inv in Hread as [Hreads Hok].
  destruct (Hok content eq_refl) as (clean & Hclean & Hcontent).
  destruct (ParseContent (parser u) content) as [pr|e]; [|done].
  destruct (if (length _ =? 0)%nat then _ else _) as [tagPath|e]; [|done].
  destruct (UpdateTag _ _ _) as [updated|e]; [|done].
  destruct (DryRun request).
  { intros [= <- <-]. split_and!; try done. by exists clean. }
  destruct (if _ && _ then _ else _) as [[backupPath|e] w2]; [|done].
  destruct (writeFile _ _ _ _) as [[[]|e] w3] eqn:Hwrite; [|done].
  intros [= <- <-]. split_and!; try done. exists clean.
  split_and!; [done | done |].
  apply writeFile_inv in Hwrite. rewrite Hclean in Hwrite.
  by apply Hwrite.
Qed.

(** X16.  A result of [UpdateTagInFile] always has [Success] set.  The file held
    the original content at the cleaned path; the validation of the
    updated content is recorded in the result and stops nothing: unless
    the call is a dry run, which only reads, the file holds the updated
    content afterwards. *)
Theorem UpdateTagInFile_result (u : Updater) (timestamp : string)
    (request : UpdateRequest) (w w' : os.World) (result : UpdateResult) :
  UpdateTagInFile u timestamp (Some request) w = (Ok result, w') →
  Success result = true
  ∧ ValidationError result
    = (if ValidateAfter request
       then ValidateYAML (parser u) (UpdatedContent result) else None)
  ∧ ChangesDetected result
    = negb (String.eqb (Res_OriginalContent result) (UpdatedContent result))
  ∧ ∃ clean,
      validateAndCleanFilePath (FilePath request) = Ok clean
      ∧ os.files w !! clean = Some (Res_OriginalContent result)
      ∧ if DryRun request then BackupPath result = "" ∧ reads_only w w'
        else os.files w' !! clean = Some (UpdatedContent result).
Proof. apply UpdateTagInFile_Ok_files. Qed.

(** X17.  [UpdateTagSimpleInFile] does not probe the conventional paths of
    [UpdateTagSimple]: it updates at the path that [autoDetectTagPath]
    finds, validates the outcome, and writes it to the file. *)
Theorem UpdateTagSimpleInFile_result (u : Updater) (timestamp : string)
    (filePath newTagValue : string) (createBackup : bool) (w w' : os.World)
    (result : UpdateResult) :
  UpdateTagSimpleInFile u timestamp filePath newTagValue createBackup w
  = (Ok result, w') →
  ∃ clean pr tagPath,
    validateAndCleanFilePath filePath = Ok clean
    ∧ os.files w !! clean = Some (Res_OriginalContent result)
    ∧ ParseContent (parser u) (Res_OriginalContent result) = Ok pr
    ∧ autoDetectTagPath u pr = Ok tagPath
    ∧ UpdateTag (parser u) (Some pr)
        (Some {| TagPath := tagPath; NewValue := newTagValue;
                 CreateIfMissing := false; BackupContent := false |})
      = Ok (UpdatedContent result)
    ∧ ValidationError result = ValidateYAML (parser u) (UpdatedContent result)
    ∧ os.files w' !! clean = Some (UpdatedContent result).
Proof.
  unfold UpdateTagSimpleInFile. intros Hrun.
  pose proof (UpdateTagInFile_Ok_files _ _ _ _ _ _ Hrun)
    as (_ & Hvalid & _ & clean & Hclean & Hfile & Hwritten).
  apply UpdateTagInFile_Ok_inv in Hrun
    as (content & w1 & pr & tagPath & _ & Hparse & Hpath & Hupdate & Hcontent & _).
  simpl in *. subst content. by exists clean, pr, tagPath.
Qed.

(** X18.  With [atomicWrite] set and no backup to make, a failed
    [UpdateTagInFile] leaves every file as it was, but for the temporary
    file of the write: the file to update holds what it held. *)
Theorem UpdateTagInFile_failure_keeps_file (u : Updater) (timestamp : string)
    (request : UpdateRequest) (w w' : os.World) (e : error) :
  atomicWrite u = true →
  CreateBackup request && keepBackups u = false →
  UpdateTagInFile u timestamp (Some request) w = (Err e, w') →
  match validateAndCleanFilePath (FilePath request) with
  | Ok clean =>
      os.files w' !! clean = os.files w !! clean
      ∧ ∀ q, q ≠ tempPath_of clean → os.files w' !! q = os.files w !! q
  | Err _ => os.files w' = os.files w
  end.
Proof.
  intros Hatomic Hbackup.
  assert (∀ w0, os.files w0 = os.files w →
            match validateAndCleanFilePath (FilePath request) with
            | Ok clean =>
                os.files w0 !! clean = os.files w !! clean
                ∧ ∀ q, q ≠ tempPath_of clean → os.files w0 !! q = os.files w !! q
            | Err _ => os.files w0 = os.files w
            end) as Hsame.
  { intros w0 Hw0. rewrite Hw0. by destruct (validateAndCleanFilePath _). }
  destruct (String.eqb (FilePath request) "") eqn:Hfile.
  { unfold UpdateTagInFile. rewrite Hfile. intros [= <- <-]. by apply Hsame. }
  destruct (String.eqb (NewTagValue request) "") eqn:Hvalue.
  { unfold UpdateTagInFile. rewrite Hfile, Hvalue. intros [= <- <-].
    by apply Hsame. }
  apply String.eqb_neq in Hfile, Hvalue.
  rewrite UpdateTagInFile_steps by done. rewrite Hbackup.
  destruct (readFile u (FilePath request) w) as [[content|e1] w1] eqn:Hread;
    apply readFile_inv in Hread as [(Hfiles & _) _].
  2: { intros [= <- <-]. by apply Hsame. }
  destruct (ParseContent (parser u) content) as [pr|e2];
    [| intros [= <- <-]; by apply Hsame].
  destruct (if (length _ =? 0)%nat then _ else _) as [tagPath|e3];
    [| intros [= <- <-]; by apply Hsame].
  destruct (UpdateTag _ _ _) as [updated|e4];
    [| intros [= <- <-]; by apply Hsame].
  destruct (DryRun request); [done |].
  destruct (writeFile _ _ _ _) as [[[]|e5] w3] eqn:Hwrite; [done |].
  intros [= <- <-].
  apply writeFile_atomic_inv in Hwrite; [|done].
  destruct (validateAndCleanFilePath (FilePath request)) as [clean|e6].
  - destruct Hwrite as [Hframe [_ Hkept]]. rewrite <- Hfiles. split; [done |].
    intros q Hq. destruct (decide (q = clean)) as [->|Hne]; [done |].
    by apply Hframe.
  - destruct Hwrite as (_ & _ & ->). done.
Qed.

(** X19.  [ValidateFile] only reads; it returns no error exactly for a file
    that it can read and whose content passes [ValidateYAML]. *)
Theorem ValidateFile_outcomes (u : Updater) (filePath : string) (w w' : os.World)
    (r : Result ()) :
  ValidateFile u filePath w = (r, w') →
  reads_only w w'
  ∧ (r = Ok () ↔
     ∃ content, readFile u filePath w = (Ok content, w')
                ∧ ValidateYAML (parser u) content = None).
Proof.
  unfold ValidateFile, bind, wrapping.
  destruct (readFile u filePath w) as [[content|e] w1] eqn:Hread;
    pose proof (readFile_inv _ _ _ _ _ Hread) as [Hreads _].
  - destruct (ValidateYAML (parser u) content) as [err|] eqn:Hvalid;
      intros [= <- <-]; (split; [done |]).
    + split; [done |]. intros (content' & [= <-] & ?). congruence.
    + split; [|done]. intros _. by exists content.
  - intros [= <- <-]. split; [done |]. split; [done |]. by intros (? & ? & _).
Qed.

(** X20.  [GetFileTagLocations] only reads; the locations that it returns are
    those of [ParseContent] on the content of the file. *)
Theorem GetFileTagLocations_outcomes (u : Updater) (filePath : string)
    (w w' : os.World) (r : Result (list TagLocation)) :
  GetFileTagLocations u filePath w = (r, w') →
  reads_only w w'
  ∧ ∀ locations, r = Ok locations →
      ∃ clean content pr,
        validateAndCleanFilePath filePath = Ok clean
        ∧ os.files w !! clean = Some content
        ∧ ParseContent (parser u) content = Ok pr
        ∧ locations = TagLocations pr.
Proof.
  unfold GetFileTagLocations, bind, wrapping, lift, ret.
  destruct (readFile u filePath w) as [[content|e] w1] eqn:Hread;
    pose proof (readFile_inv _ _ _ _ _ Hread) as [Hreads Hok].
  - destruct (Hok content eq_refl) as (clean & Hclean & Hfile).
    destruct (ParseContent (parser u) content) as [pr|e] eqn:Hparse;
      intros [= <- <-]; (split; [done |]); [|done].
    intros locations [= <-]. by exists clean, content, pr.
  - intros [= <- <-]. by split.
Qed.

Lemma RollbackFromBackup_Ok_inv (u : Updater) (filePath backupPath : string)
    (w w' : os.World) :
  RollbackFromBackup u filePath backupPath w = (Ok (), w') →
  ∃ backup clean content,
    validateAndCleanFilePath backupPath = Ok backup
    ∧ os.files w !! backup = Some content
    ∧ ValidateYAML (parser u) content = None
    ∧ validateAndCleanFilePath filePath = Ok clean
    ∧ os.files w' !! clean = Some content
    ∧ ∀ q, q ≠ clean → q ≠ tempPath_of clean →
           os.files w' !! q = os.files w !! q.
Proof.
  unfold RollbackFromBackup.
  destruct (String.eqb filePath ""); [done |].
  destruct (String.eqb backupPath ""); [done |].
  destruct (fileExists u backupPath w) as [found w1] eqn:Hexists.
  apply fileExists_reads in Hexists as (Hfiles1 & _).
  destruct found; simpl; [|done].
  unfold bind, wrapping.
  destruct (readFile u backupPath w1) as [[content|e] w2] eqn:Hread; [|done].
  apply readFile_inv in Hread as [(Hfiles2 & _) Hok].
  destruct (Hok content eq_refl) as (backup & Hbackup & Hcontent).
  destruct (ValidateYAML (parser u) content) as [err|] eqn:Hvalid; [done |].
  unfold ret.
  destruct (writeFile u filePath content w2) as [[[]|e] w3] eqn:Hwrite; [|done].
  intros [= <-]. apply writeFile_inv in Hwrite.
  destruct (validateAndCleanFilePath filePath) as [clean|e]; [| by destruct Hwrite].
  destruct Hwrite as [Hframe Hfile].
  rewrite Hfiles2, Hfiles1 in Hframe. rewrite Hfiles1 in Hcontent.
  exists backup, clean, content. split_and!; try done. by apply Hfile.
Qed.

(** X21.  After a successful [RollbackFromBackup] the file holds the content
    that the backup held, which passes [ValidateYAML]; no file but this
    one and its temporary file has changed. *)
Theorem RollbackFromBackup_restores (u : Updater) (filePath backupPath : string)
    (w w' : os.World) :
  RollbackFromBackup u filePath backupPath w = (Ok (), w') →
  ∃ backup clean content,
    validateAndCleanFilePath backupPath = Ok backup
    ∧ os.files w !! backup = Some content
    ∧ ValidateYAML (parser u) content = None
    ∧ validateAndCleanFilePath filePath = Ok clean
    ∧ os.files w' !! clean = Some content
    ∧ ∀ q, q ≠ clean → q ≠ tempPath_of clean →
           os.files w' !! q = os.files w !! q.
Proof. apply RollbackFromBackup_Ok_inv. Qed.

(** X22.  A backup can be rolled back: when [createBackup] has returned a path
    and [RollbackFromBackup] from it succeeds, the file holds the content
    that was backed up. *)
Theorem createBackup_then_rollback (u : Updater) (timestamp : string)
    (filePath content backupPath : string) (w w1 w2 : os.World) :
  createBackup u timestamp filePath content w = (Ok backupPath, w1) →
  RollbackFromBackup u filePath backupPath w1 = (Ok (), w2) →
  ∃ clean, validateAndCleanFilePath filePath = Ok clean
           ∧ os.files w2 !! clean = Some content.
Proof.
  intros (w0 & Hwrite & _ & _)%createBackup_inv Hroll.
  apply writeFile_inv in Hwrite.
  destruct (RollbackFromBackup_Ok_inv _ _ _ _ _ Hroll)
    as (backup & clean & content' & Hbackup & Hheld & _ & Hclean & Hfile & _).
  rewrite Hbackup in Hwrite. destruct Hwrite as [_ Hwritten].
  rewrite Hwritten in Hheld by done. exists clean. split; [done |]. congruence.
Qed.

(** X23.  An update with a backup next to the file can be undone: after
    [UpdateTagInFile] has written the file, [RollbackFromBackup] from the
    backup path of the result, when it succeeds, leaves the file with the
    content that it had before the update. *)
Theorem UpdateTagInFile_rollback (u : Updater) (timestamp : string)
    (request : UpdateRequest) (w w1 w2 : os.World) (result : UpdateResult) :
  backupDir u = "" → keepBackups u = true →
  no_separator timestamp = true →
  CreateBackup request = true → DryRun request = false →
  UpdateTagInFile u timestamp (Some request) w = (Ok result, w1) →
  RollbackFromBackup u (FilePath request) (BackupPath result) w1 = (Ok (), w2) →
  BackupPath result = FilePath request +:+ "." +:+ timestamp +:+ ".backup"
  ∧ ∃ clean,
      validateAndCleanFilePath (FilePath request) = Ok clean
      ∧ os.files w !! clean = Some (Res_OriginalContent result)
      ∧ os.files w1 !! clean = Some (UpdatedContent result)
      ∧ os.files w2 !! clean = Some (Res_OriginalContent result).
Proof.
  intros Hdir Hkeep Hts Hbackup Hdry Hrun Hroll.
  destruct (String.eqb (FilePath request) "") eqn:Hfile.
  { unfold UpdateTagInFile in Hrun. by rewrite Hfile in Hrun. }
  destruct (String.eqb (NewTagValue request) "") eqn:Hvalue.
  { unfold UpdateTagInFile in Hrun. by rewrite Hfile, Hvalue in Hrun. }
  apply String.eqb_neq in Hfile, Hvalue.
  rewrite UpdateTagInFile_steps in Hrun by done.
  rewrite Hbackup, Hkeep, Hdry in Hrun. simpl in Hrun.
  destruct (readFile u (FilePath request) w) as [[content|e] wr] eqn:Hread;
    [|done].
  apply readFile_inv in Hread as [(Hfiles & _) Hok].
  destruct (Hok content eq_refl) as (clean & Hclean & Hcontent).
  destruct (ParseContent (parser u) content) as [pr|e]; [|done].
  destruct (if (length _ =? 0)%nat then _ else _) as [tagPath|e]; [|done].
  destruct (UpdateTag _ _ _) as [updated|e]; [|done].
  destruct (createBackup u timestamp (FilePath request) content wr)
    as [[backupPath|e] wb] eqn:Hcreate; [|done].
  destruct (writeFile u (FilePath request) updated wb) as [[[]|e] ww] eqn:Hwrite;
    [|done].
  injection Hrun as <- <-. simpl in *.
  apply createBackup_inv in Hcreate as (w0 & Hbwrite & Hfiles0 & Hpath).
  rewrite Hdir in Hpath. simpl in Hpath. split; [done |].
  apply writeFile_inv in Hbwrite, Hwrite. rewrite Hclean in Hwrite.
  destruct Hwrite as [Hframe Hwritten].
  destruct (RollbackFromBackup_Ok_inv _ _ _ _ _ Hroll)
    as (backup & clean' & content' & Hvalid & Hheld & _ & Hclean' & Hrestored & _).
  rewrite Hclean in Hclean'. injection Hclean' as <-.
  rewrite Hvalid in Hbwrite. destruct Hbwrite as [_ Hbwritten].
  rewrite Hpath in Hvalid.
  destruct (backup_path_apart _ _ _ _ Hts Hclean Hvalid) as [Hne Htemp].
  rewrite Hframe, Hbwritten in Hheld by done. injection Hheld as <-.
  exists clean. split_and!; [done | done | by apply Hwritten | done].
Qed.

End FileProperties.

(** ** Removal of old backups *)

Lemma remove_each_files (names : list string) (w : os.World) :
  os.fault (remove_each names w) = os.fault w
  ∧ (∀ q, q ∉ names → os.files (remove_each names w) !! q = os.files w !! q)
  ∧ (∀ q data, os.files (remove_each names w) !! q = Some data →
               os.files w !! q = Some data)
  ∧ ((∀ calls c, os.fault w calls c = None) →
     ∀ q, q ∈ names → os.files (remove_each names w) !! q = None).
Proof.
  revert w. induction names as [|name names IH]; intros w.
  { split_and!; try done. intros _ q Hq. by apply elem_of_nil in Hq. }
  simpl. destruct (os.Remove name w) as [err w1] eqn:Hremove.
  destruct (IH w1) as (Hfault & Hframe & Hsub & Hgone).
  assert (os.fault w1 = os.fault w
          ∧ (∀ q, q ≠ name → os.files w1 !! q = os.files w !! q)
          ∧ (∀ q data, os.files w1 !! q = Some data → os.files w !! q = Some data)
          ∧ ((∀ calls c, os.fault w calls c = None) → os.files w1 !! name = None))
    as (Hfault1 & Hframe1 & Hsub1 & Hgone1).
  { revert Hremove. unfold os.Remove.
    destruct (os.fault w (os.trace w) (os.CallRemove name)) as [err'|] eqn:Hf.
    - intros [= <- <-]. simpl. split_and!; try done. intros Hnone.
      by rewrite Hnone in Hf.
    - destruct (os.files w !! name) as [data|] eqn:Hname; intros [= <- <-]; simpl.
      + split_and!; [done | | |].
        * intros q Hq. by rewrite lookup_delete_ne.
        * intros q data' Hq. by apply lookup_delete_Some in Hq as [_ ?].
        * intros _. apply lookup_delete_eq.
      + by split_and!. }
  split_and!.
  - congruence.
  - intros q Hq. apply not_elem_of_cons in Hq as [Hq1 Hq2].
    rewrite Hframe by done. by apply Hframe1.
  - intros q data Hq. by apply Hsub1, Hsub.
  - intros Hnone q Hq.
    assert (∀ calls c, os.fault w1 calls c = None) as Hnone1.
    { intros calls c. by rewrite Hfault1. }
    destruct (decide (q ∈ names)) as [Hin|Hout]; [by apply Hgone |].
    apply elem_of_cons in Hq as [->|Hq]; [|done].
    rewrite Hframe by done. by apply Hgone1.
Qed.

Section CleanupProperties.

Variable Glob : string → os.World → list string + string.

(** X24.  [CleanupOldBackups] does nothing without a backup directory, nor for
    five matches or fewer.  Otherwise it removes the matches from the
    sixth on, in the order of [Glob], passing over the removals that are
    refused: it returns no error, creates and changes no file, and leaves
    every file that is not among these matches in place.  It fails only
    when [Glob] does, and has then changed nothing. *)
Theorem CleanupOldBackups_removes (u : Updater) (filePath : string)
    (w w' : os.World) (r : Result ()) :
  CleanupOldBackups Glob u filePath w = (r, w') →
  let backupGlob :=
    filepath.Join [backupDir u; filepath.Base filePath +:+ ".*.backup"] in
  (backupDir u = "" → r = Ok () ∧ w' = w)
  ∧ (∀ err, backupDir u ≠ "" → Glob backupGlob w = inr err →
       r = Err (ErrWrap "failed to list backup files: " (ErrOS err)) ∧ w' = w)
  ∧ (∀ matches, backupDir u ≠ "" → Glob backupGlob w = inl matches →
       r = Ok ()
       ∧ ((length matches ≤ MaxBackupFiles)%nat → w' = w)
       ∧ (∀ q, q ∉ drop MaxBackupFiles matches →
               os.files w' !! q = os.files w !! q)
       ∧ (∀ q data, os.files w' !! q = Some data → os.files w !! q = Some data)
       ∧ ((∀ calls c, os.fault w calls c = None) →
          ∀ q, q ∈ drop MaxBackupFiles matches → os.files w' !! q = None)).
Proof.
  intros Hrun backupGlob. unfold CleanupOldBackups in Hrun.
  destruct (String.eqb (backupDir u) "") eqn:Hdir.
  { apply String.eqb_eq in Hdir. injection Hrun as <- <-.
    split_and!; [done | congruence | congruence]. }
  apply String.eqb_neq in Hdir. fold backupGlob in Hrun.
  split; [done |].
  destruct (Glob backupGlob w) as [matches|err].
  - split; [done |]. intros matches' _ [= <-].
    destruct (Nat.ltb_spec MaxBackupFiles (length matches)) as [Hmany|Hfew];
      injection Hrun as <- <-.
    + destruct (remove_each_files (drop MaxBackupFiles matches) w)
        as (_ & Hframe & Hsub & Hgone).
      split_and!; [done | lia | done | done | done].
    + split_and!; try done. intros _ q Hq.
      rewrite drop_ge in Hq by done. by apply elem_of_nil in Hq.
  - injection Hrun as <- <-. split; [| done]. by intros err' _ [= <-].
Qed.

End CleanupProperties.

Lemma CleanupOldBackups_removes_witness :
  let names := ["b/a.1.backup"; "b/a.2.backup"; "b/a.3.backup"; "b/a.4.backup";
                "b/a.5.backup"; "b/a.6.backup"; "b/a.7.backup"] in
  let Glob := λ (pattern : string) (w : os.World),
    if String.eqb pattern "b/a.*.backup" then inl names else inr "bad pattern" in
  let u := NewUpdaterWithOptions "b" true true in
  let w := world_with (map (λ name, (name, "tag: v1")) names) in
  let run := CleanupOldBackups Glob u "conf/a" w in
  fst run = Ok ()
  ∧ os.files (snd run) !! "b/a.5.backup" = Some "tag: v1"
  ∧ os.files (snd run) !! "b/a.6.backup" = None
  ∧ os.files (snd run) !! "b/a.7.backup" = None.
Proof.
  intros names Glob u w run.
  destruct (CleanupOldBackups_removes Glob u "conf/a" w (snd run) (fst run))
    as (_ & _ & Hmatches); [by vm_compute |].
  destruct (Hmatches names) as (Hok & _ & Hframe & _ & Hgone);
    [by intros [=] | reflexivity |].
  split_and!; [done | | |].
  - rewrite Hframe; [reflexivity |]. cbv [names drop MaxBackupFiles].
    rewrite !not_elem_of_cons. split_and!; [done | done | apply not_elem_of_nil].
  - apply Hgone; [done |]. cbv [names drop MaxBackupFiles]. left.
  - apply Hgone; [done |]. cbv [names drop MaxBackupFiles]. right. left.
Defined.

(** ** Examples *)

Lemma UpdateTagInFile_error_codes_witness :
  let e := ErrWrap "failed to read file missing.yaml: "
             (ErrApp (errors.NewFileNotFoundError "missing.yaml")) in
  let run := UpdateTagInFile NewUpdater "20240101_120000"
               (Some (request "missing.yaml" "v2.0.0" [] false)) empty_world in
  fst run = Err e
  ∧ is_FileNotFoundError e
  ∧ IsAppError (Some e) = false
  ∧ GetErrorCode (Some e) = 0
  ∧ GetErrorCategory (Some e) = "unknown".
Proof.
  intros e run. split; [by vm_compute |]. split; [by eexists |].
  apply (UpdateTagInFile_error_codes NewUpdater "20240101_120000"
           (Some (request "missing.yaml" "v2.0.0" [] false)) empty_world (snd run) e).
  by vm_compute.
Defined.

Lemma GetTagValue_first_location_witness :
  GetTagValue NewParser (parsed chart_text) ["image"; "tag"] = Ok "v1.0.0"
  ∧ ∃ e, GetTagValue NewParser (parsed chart_text) ["tag"] = Err e
         ∧ is_ValidationError e.
Proof.
  destruct (GetTagValue_first_location NewParser chart_text (parsed chart_text)
              ["image"; "tag"]) as [Hfirst _]; [by vm_compute |].
  destruct (GetTagValue_first_location NewParser chart_text (parsed chart_text)
              ["tag"]) as [_ Hnone]; [by vm_compute |].
  split.
  - refine (proj1 (Hfirst {| Path := ["image"; "tag"]; Loc_Line := 2;
                             Loc_Column := 10; Loc_Value := "v1.0.0";
                             Loc_Node := Some [0; 1; 1]%nat |} _)).
    exists 0%nat. split_and!; [by vm_compute | done | intros; lia].
  - apply Hnone. intros l Hl. vm_compute in Hl.
    apply list_elem_of_singleton in Hl as ->. done.
Defined.

Lemma UpdateTag_same_value_formats_witness :
  let l := {| Path := ["image"; "tag"]; Loc_Line := 2; Loc_Column := 10;
              Loc_Value := "v1.0.0"; Loc_Node := Some [0; 1; 1]%nat |} in
  FormatYAML NewParser chart_text = Ok (chart_encoded "v1.0.0")
  ∧ UpdateTag NewParser (Some (parsed chart_text))
      (Some (new_options ["image"; "tag"] "v1.0.0")) = Ok (chart_encoded "v1.0.0").
Proof.
  intros l. split; [by vm_compute |].
  apply (UpdateTag_same_value_formats NewParser chart_text (parsed chart_text)
           ["image"; "tag"] l (chart_encoded "v1.0.0"));
    try (by vm_compute). vm_compute. lia.
Defined.

Lemma UpdateTag_never_creates_witness :
  ∃ e, UpdateTag NewParser (Some (parsed chart_text))
         (Some {| TagPath := ["image"; "digest"]; NewValue := "v2.0.0";
                  CreateIfMissing := true; BackupContent := false |}) = Err e
       ∧ is_ValidationError e.
Proof.
  apply (UpdateTag_never_creates NewParser (parsed chart_text)).
  intros l Hl. vm_compute in Hl. apply list_elem_of_singleton in Hl as ->. done.
Defined.

Lemma UpdateTag_writes_one_node_witness :
  ∃ l ref tree,
    first_with (λ l', Path l' = ["image"; "tag"])
      (TagLocations (parsed chart_text)) l
    ∧ Loc_Node l = Some ref
    ∧ Encode 2 tree = EncOk (chart_encoded "v2.0.0")
    ∧ ∀ ref' n', node_at (chart "v1.0.0" 5) ref' = Some n' →
        ∃ n'', node_at tree ref' = Some n''
               ∧ Kind_of n'' = Kind_of n' ∧ Style n'' = Style n' ∧ Tag n'' = Tag n'
               ∧ Line n'' = Line n' ∧ Column n'' = Column n'
               ∧ length (Content n'') = length (Content n')
               ∧ Value n'' = (if decide (ref' = ref) then "v2.0.0" else Value n').
Proof.
  apply (UpdateTag_writes_one_node NewParser chart_text (parsed chart_text)
           (new_options ["image"; "tag"] "v2.0.0") (chart_encoded "v2.0.0"));
    by vm_compute.
Defined.

Lemma autoDetectTagPath_found_witness :
  autoDetectTagPath NewUpdater (parsed chart_text) = Ok ["image"; "tag"]
  ∧ (∃ l, findTagByPath (parsed chart_text) ["image"; "tag"] = Some l)
  ∧ ∀ e, UpdateTag NewParser (Some (parsed chart_text))
           (Some (new_options ["image"; "tag"] "v3.0.0")) = Err e →
         is_InvalidYAMLError e.
Proof.
  split; [by vm_compute |].
  apply (autoDetectTagPath_found NewUpdater NewParser (parsed chart_text)
           ["image"; "tag"] "v3.0.0"); [by vm_compute | done | vm_compute; lia].
Defined.

Lemma readFile_outcomes_witness :
  let run := readFile NewUpdater "/etc/passwd" (world_with [("/etc/passwd", "root")]) in
  ∃ e, fst run = Err e ∧ is_ValidationError e
       ∧ snd run = world_with [("/etc/passwd", "root")].
Proof.
  intros run.
  destruct (readFile_outcomes NewUpdater "/etc/passwd"
              (world_with [("/etc/passwd", "root")]) (snd run) (fst run))
    as [_ Hr]; [by vm_compute |].
  exists (ErrApp (errors.NewValidationError
                    "absolute file paths outside safe directories are not allowed")).
  split; [by vm_compute |].
  change (fst run)
    with (@Err string (ErrApp (errors.NewValidationError
             "absolute file paths outside safe directories are not allowed"))) in Hr.
  change (validateAndCleanFilePath "/etc/passwd")
    with (@Err string (ErrApp (errors.NewValidationError
             "absolute file paths outside safe directories are not allowed"))) in Hr.
  by destruct Hr as (_ & ? & ?).
Defined.

Lemma writeFile_all_or_nothing_witness :
  let w := read_only_directory true [("app.yaml", "tag: v1")] in
  let run := writeFile NewUpdater "./app.yaml" "tag: v2" w in
  ∃ e, fst run = Err e ∧ is_FileSystemError e
       ∧ os.files (snd run) !! "app.yaml" = Some "tag: v1".
Proof.
  intros w run.
  pose proof (writeFile_all_or_nothing NewUpdater "./app.yaml" "tag: v2" w
                (snd run) (fst run) eq_refl) as Hr.
  change (validateAndCleanFilePath "./app.yaml") with (@Ok string "app.yaml") in Hr.
  destruct Hr as [_ Hr]; [by vm_compute |].
  exists (ErrApp (errors.NewFileSystemError
                    "failed to rename temporary file: rename: permission denied")).
  split; [by vm_compute |].
  change (fst run)
    with (@Err () (ErrApp (errors.NewFileSystemError
             "failed to rename temporary file: rename: permission denied"))) in Hr.
  destruct Hr as [Hkind Hkept]. split; [done |]. by rewrite Hkept.
Defined.

Lemma PreviewUpdate_faithful_witness :
  let run := PreviewUpdate NewUpdater "20240101_120000" chart_request chart_world in
  ∃ preview, fst run = Ok preview
    ∧ UpdatedContent preview = chart_encoded "v2.0.0"
    ∧ os.files (snd run) = os.files chart_world
    ∧ ∀ result w2,
        UpdateTagInFile NewUpdater "20240101_120000" (Some chart_request) chart_world
        = (Ok result, w2) →
        UpdatedContent result = UpdatedContent preview.
Proof.
  intros run.
  destruct (PreviewUpdate_faithful NewUpdater "20240101_120000" chart_request
              chart_world (snd run) (fst run)) as [Hreads Hr]; [by vm_compute |].
  destruct (fst run) as [preview|e] eqn:Hrun; [| by vm_compute in Hrun].
  exists preview. split; [done |]. split.
  { vm_compute in Hrun. by injection Hrun as <-. }
  split; [by destruct Hreads |].
  intros result w2 Hresult. by destruct (proj2 (proj2 Hr) result w2 Hresult).
Defined.

Lemma UpdateTagInFile_result_witness :
  ∃ result,
    fst chart_first_run = Ok result
    ∧ Success result = true
    ∧ ValidationError result = None
    ∧ os.files (snd chart_first_run) !! "values.yaml" = Some (chart_encoded "v2.0.0").
Proof.
  destruct (fst chart_first_run) as [result|e] eqn:Hrun; [| by vm_compute in Hrun].
  exists result. split; [done |].
  destruct (UpdateTagInFile_result NewUpdater "20240101_120000" chart_request
              chart_world (snd chart_first_run) result)
    as (Hsuccess & Hvalid & _ & clean & Hclean & _ & Hfile).
  { unfold chart_first_run in *. rewrite <- Hrun. by destruct (UpdateTagInFile _ _ _ _). }
  vm_compute in Hclean. injection Hclean as <-.
  vm_compute in Hrun. injection Hrun as <-.
  split_and!; [done | done |]. apply Hfile.
Defined.

Lemma UpdateTagSimpleInFile_result_witness :
  let run := UpdateTagSimpleInFile NewUpdater "20240101_120000" "values.yaml"
               "v2.0.0" false chart_world in
  ∃ result, fst run = Ok result
    ∧ autoDetectTagPath NewUpdater (parsed chart_text) = Ok ["image"; "tag"]
    ∧ os.files (snd run) !! "values.yaml" = Some (UpdatedContent result).
Proof.
  intros run.
  destruct (fst run) as [result|e] eqn:Hrun; [| by vm_compute in Hrun].
  exists result. split; [done |]. split; [by vm_compute |].
  destruct (UpdateTagSimpleInFile_result NewUpdater "20240101_120000" "values.yaml"
              "v2.0.0" false chart_world (snd run) result)
    as (clean & pr & tagPath & Hclean & _ & _ & _ & _ & _ & Hfile).
  { rewrite <- Hrun. unfold run. by destruct (UpdateTagSimpleInFile _ _ _ _ _ _). }
  vm_compute in Hclean. injection Hclean as <-. done.
Defined.

Lemma UpdateTagInFile_failure_keeps_file_witness :
  let w := read_only_directory true [("values.yaml", chart_text)] in
  let run := UpdateTagInFile NewUpdater "20240101_120000"
               (Some (request "values.yaml" "v2.0.0" [] false)) w in
  ∃ e, fst run = Err e
       ∧ os.files (snd run) !! "values.yaml" = Some chart_text
       ∧ os.files (snd run) !! "values.yaml.tmp" = Some (chart_encoded "v2.0.0").
Proof.
  intros w run.
  destruct (fst run) as [result|e] eqn:Hrun; [by vm_compute in Hrun |].
  exists e. split; [done |].
  pose proof (UpdateTagInFile_failure_keeps_file NewUpdater "20240101_120000"
                (request "values.yaml" "v2.0.0" [] false) w (snd run) e
                eq_refl eq_refl) as Hkept.
  change (validateAndCleanFilePath (FilePath (request "values.yaml" "v2.0.0" [] false)))
    with (@Ok string "values.yaml") in Hkept.
  destruct Hkept as [Hfile _].
  { rewrite <- Hrun. unfold run. by destruct (UpdateTagInFile _ _ _ _). }
  split; [by rewrite Hfile | by vm_compute].
Defined.

Lemma ValidateFile_outcomes_witness :
  let run := ValidateFile NewUpdater "values.yaml" chart_world in
  fst run = Ok () ∧ os.files (snd run) = os.files chart_world.
Proof.
  intros run.
  destruct (ValidateFile_outcomes NewUpdater "values.yaml" chart_world
              (snd run) (fst run)) as [(Hfiles & _) _]; [by vm_compute |].
  split; [by vm_compute | done].
Defined.

Lemma GetFileTagLocations_outcomes_witness :
  let run := GetFileTagLocations NewUpdater "values.yaml" chart_world in
  fst run = Ok (TagLocations (parsed chart_text))
  ∧ os.files (snd run) = os.files chart_world.
Proof.
  intros run.
  destruct (GetFileTagLocations_outcomes NewUpdater "values.yaml" chart_world
              (snd run) (fst run)) as [(Hfiles & _) _]; [by vm_compute |].
  split; [by vm_compute | done].
Defined.

Lemma RollbackFromBackup_restores_witness :
  let w := world_with [("values.yaml", chart_encoded "v2.0.0");
                       ("values.yaml.20240101_120000.backup", chart_text)] in
  let run := RollbackFromBackup NewUpdater "values.yaml"
               "values.yaml.20240101_120000.backup" w in
  fst run = Ok ()
  ∧ os.files (snd run) !! "values.yaml" = Some chart_text
  ∧ os.files (snd run) !! "values.yaml.20240101_120000.backup" = Some chart_text.
Proof.
  intros w run. split; [by vm_compute |].
  destruct (RollbackFromBackup_restores NewUpdater "values.yaml"
              "values.yaml.20240101_120000.backup" w (snd run))
    as (backup & clean & content & Hbackup & Hheld & _ & Hclean & Hfile & Hframe);
    [by vm_compute |].
  vm_compute in Hbackup, Hclean. injection Hbackup as <-. injection Hclean as <-.
  vm_compute in Hheld. injection Hheld as <-.
  split; [done |]. rewrite Hframe; [by vm_compute | done | by vm_compute].
Defined.

Lemma createBackup_then_rollback_witness :
  let w := world_with [("values.yaml", chart_encoded "v2.0.0")] in
  let backup := createBackup NewUpdater "20240101_120000" "values.yaml" chart_text w in
  let run := RollbackFromBackup NewUpdater "values.yaml"
               "values.yaml.20240101_120000.backup" (snd backup) in
  fst backup = Ok "values.yaml.20240101_120000.backup"
  ∧ fst run = Ok ()
  ∧ os.files (snd run) !! "values.yaml" = Some chart_text.
Proof.
  intros w backup run. split; [by vm_compute |]. split; [by vm_compute |].
  destruct (createBackup_then_rollback NewUpdater "20240101_120000" "values.yaml"
              chart_text "values.yaml.20240101_120000.backup" w (snd backup) (snd run))
    as (clean & Hclean & Hfile); [by vm_compute | by vm_compute |].
  vm_compute in Hclean. by injection Hclean as <-.
Defined.

Lemma UpdateTagInFile_rollback_witness :
  let run := RollbackFromBackup NewUpdater "values.yaml"
               "values.yaml.20240101_120000.backup" (snd chart_first_run) in
  ∃ result,
    fst chart_first_run = Ok result
    ∧ BackupPath result = "values.yaml.20240101_120000.backup"
    ∧ os.files (snd chart_first_run) !! "values.yaml" = Some (chart_encoded "v2.0.0")
    ∧ fst run = Ok ()
    ∧ os.files (snd run) !! "values.yaml" = Some chart_text.
Proof.
  intros run.
  destruct (fst chart_first_run) as [result|e] eqn:Hrun; [| by vm_compute in Hrun].
  exists result. split; [done |].
  vm_compute in Hrun. injection Hrun as <-.
  match goal with
  | |- BackupPath ?result = _ ∧ _ =>
      destruct (UpdateTagInFile_rollback NewUpdater "20240101_120000" chart_request
                  chart_world (snd chart_first_run) (snd run) result
                  eq_refl eq_refl eq_refl eq_refl eq_refl)
        as (Hpath & clean & Hclean & Hbefore & Hafter & Hrestored);
        [by vm_compute | by vm_compute |]
  end.
  vm_compute in Hclean. injection Hclean as <-.
  split_and!; [done | done | by vm_compute | done].
Defined.
